(** * Obstacle sweep over a grid: lazy-zero segment tree, active intervals, row driver

    Shallow embedding of [solution.cpp]: the array-backed segment tree
    ([SegmentTree]), the ordered set of active column intervals
    ([activeSegs]), the row sweep of [main], and the console routines
    [read] and [write].

    The static arrays are finite maps with a default, so an access past
    their capacity is not an error of the model; all results are stated for
    inputs within the capacity [kMaxN].  Stepping an iterator before
    [begin()] and running out of [fuel] are modelled as [None]. *)

From stdpp Require Import base numbers option list list_numbers sorting gmap
  fin_sets strings.

Local Open Scope Z_scope.

#[local] Set Warnings "-clear-no-such-hyp".

(** ** Machine integers

    [int] is a 32-bit signed integer.  Additions are written with their
    two's-complement wrap-around; [%] is C's truncating remainder [Z.rem]. *)

Definition wrap (z : Z) : Z := (z + 2 ^ 31) `mod` 2 ^ 32 - 2 ^ 31.

Definition iadd (a b : Z) : Z := wrap (a + b).

(** [const int kMod=1e9+7;] *)
Definition kMod : Z := 1000000007.

(** [const int kMaxN=1e6+10;] *)
Definition kMaxN : Z := 1000010.

(** ** Segment tree nodes: [struct Node { int l,r; int tag; int sum; }] *)

Module Node.
Record t : Type := mk { l : Z; r : Z; tag : Z; sum : Z }.

(** Static storage is zero-initialised. *)
Definition zero : t := mk 0 0 0 0.

Definition with_range (lo hi : Z) (n : t) : t := mk lo hi (tag n) (sum n).
Definition with_tag (v : Z) (n : t) : t := mk (l n) (r n) v (sum n).
Definition with_sum (v : Z) (n : t) : t := mk (l n) (r n) (tag n) v.
End Node.

#[global] Instance Node_inhabited : Inhabited Node.t := populate Node.zero.

(** ** The segment tree: [struct SegmentTree { Node tree[kMaxN*4]; ... } seg;]

    The node array is a finite map from index to node, read with the total
    lookup [!!!] so that an index never written holds [Node.zero]. The
    recursive member functions take a [fuel] that bounds the recursion
    depth; [None] means the fuel ran out. *)

Module SegmentTree.

Abbreviation tree := (gmap Z Node.t).

(** [#define lson x<<1] and [#define rson x<<1|1].  Node indices stay far
    below the range of [int], so the shifts are those of [Z]. *)
Definition lson (x : Z) : Z := Z.shiftl x 1.
Definition rson (x : Z) : Z := Z.lor (Z.shiftl x 1) 1.

Definition setRange (x lo hi : Z) (t : tree) : tree :=
  <[x := Node.with_range lo hi (t !!! x)]> t.
Definition setTag (x v : Z) (t : tree) : tree :=
  <[x := Node.with_tag v (t !!! x)]> t.
Definition setSum (x v : Z) (t : tree) : tree :=
  <[x := Node.with_sum v (t !!! x)]> t.

(** [int mid=(tree[x].l+tree[x].r)>>1;] *)
Definition midpoint (x : Z) (t : tree) : Z :=
  Z.shiftr (iadd (Node.l (t !!! x)) (Node.r (t !!! x))) 1.

Fixpoint buildTree (fuel : nat) (x l r : Z) (t : tree) : option tree :=
  match fuel with
  | O => None
  | S fuel =>
      let t := setRange x l r t in
      if l =? r then Some t
      else
        let mid := Z.shiftr (iadd l r) 1 in
        t ← buildTree fuel (lson x) l mid t;
        buildTree fuel (rson x) (iadd mid 1) r t
  end.

Definition pushUp (x : Z) (t : tree) : tree :=
  setSum x
    (Z.rem (iadd (Node.sum (t !!! lson x)) (Node.sum (t !!! rson x))) kMod) t.

Definition pushDown (x : Z) (t : tree) : tree :=
  if Node.tag (t !!! x) =? 0 then t
  else
    let t := setTag (rson x) 1 t in
    let t := setTag (lson x) 1 t in
    let t := setSum (rson x) 0 t in
    let t := setSum (lson x) 0 t in
    setTag x 0 t.

Fixpoint updatePoint (fuel : nat) (x pos val : Z) (t : tree) : option tree :=
  match fuel with
  | O => None
  | S fuel =>
      if Node.l (t !!! x) =? Node.r (t !!! x) then Some (setSum x val t)
      else
        let t := pushDown x t in
        let mid := midpoint x t in
        t ← (if pos <=? mid then updatePoint fuel (lson x) pos val t
             else Some t);
        t ← (if mid <? pos then updatePoint fuel (rson x) pos val t
             else Some t);
        Some (pushUp x t)
  end.

Fixpoint zeroRange (fuel : nat) (x l r : Z) (t : tree) : option tree :=
  match fuel with
  | O => None
  | S fuel =>
      if (l <=? Node.l (t !!! x)) && (Node.r (t !!! x) <=? r)
      then Some (setSum x 0 (setTag x 1 t))
      else
        let t := pushDown x t in
        let mid := midpoint x t in
        t ← (if l <=? mid then zeroRange fuel (lson x) l r t else Some t);
        t ← (if mid <? r then zeroRange fuel (rson x) l r t else Some t);
        Some (pushUp x t)
  end.

(** [queryRange] pushes tags down on its way, so it returns the tree
    along with the sum. *)
Fixpoint queryRange (fuel : nat) (x l r : Z) (t : tree) : option (Z * tree) :=
  match fuel with
  | O => None
  | S fuel =>
      if (l <=? Node.l (t !!! x)) && (Node.r (t !!! x) <=? r)
      then Some (Node.sum (t !!! x), t)
      else
        let t := pushDown x t in
        let tmp := 0 in
        let mid := midpoint x t in
        '(tmp, t) ← (if l <=? mid
                     then '(q, t) ← queryRange fuel (lson x) l r t;
                          Some (Z.rem (iadd tmp q) kMod, t)
                     else Some (tmp, t));
        '(tmp, t) ← (if mid <? r
                     then '(q, t) ← queryRange fuel (rson x) l r t;
                          Some (Z.rem (iadd tmp q) kMod, t)
                     else Some (tmp, t));
        Some (tmp, t)
  end.

End SegmentTree.

Import SegmentTree.

(** ** Active intervals: [set<pair<int,int>> activeSegs] *)

Abbreviation interval := (Z * Z)%type.

(** [operator<] and [operator<=] of [pair<int,int>]. *)
Definition pair_lt (p q : interval) : Prop :=
  p.1 < q.1 ∨ (p.1 = q.1 ∧ p.2 < q.2).
Definition pair_le (p q : interval) : Prop :=
  p.1 < q.1 ∨ (p.1 = q.1 ∧ p.2 ≤ q.2).

#[global] Instance pair_lt_dec p q : Decision (pair_lt p q).
Proof. unfold pair_lt. apply _. Defined.
#[global] Instance pair_le_dec p q : Decision (pair_le p q).
Proof. unfold pair_le. apply _. Defined.

(** The greater of an optional running maximum and one more element. *)
Definition maxStep (p : interval) (acc : option interval) : option interval :=
  match acc with
  | None => Some p
  | Some q => if decide (pair_lt q p) then Some p else Some q
  end.

(** [auto it=activeSegs.end();it--; ... *it]: the greatest member; [None]
    where the C++ would step before [begin()]. *)
Definition setMax (s : gset interval) : option interval :=
  foldr maxStep None (elements s).

(** [auto it=activeSegs.lower_bound(key);it--; ... *it]: the greatest member
    strictly below [key]. *)
Definition lowerBoundPrev (key : interval) (s : gset interval) : option interval :=
  setMax (filter (λ p, pair_lt p key) s).

(** ** Input and per-row buckets *)

Module Rect.
Record t : Type := mk { x1 : Z; y1 : Z; x2 : Z; y2 : Z }.
Definition cols (o : t) : interval := (y1 o, y2 o).
End Rect.

(** [vector<pair<int,int>> addRanges[1000010], delRanges[1000010];] *)
Abbreviation buckets := (gmap Z (list interval)).

Definition push_back (i : Z) (p : interval) (b : buckets) : buckets :=
  <[i := (b !!! i) ++ [p]]> b.

(** The input loop of [main], lines 83-88. *)
Definition readRects (rects : list Rect.t) : buckets * buckets :=
  foldl (λ '(addRanges, delRanges) o,
           (push_back (Rect.x1 o) (Rect.cols o) addRanges,
            push_back (iadd (Rect.x2 o) 1) (Rect.cols o) delRanges))
        (∅, ∅) rects.

(** ** The row sweep *)

Record State : Type := mkState { seg : tree; activeSegs : gset interval }.

(** [for(auto v:l) body], for a body that may fail. *)
Fixpoint forEach {A S : Type} (body : A → S → option S) (l : list A) (s : S)
  : option S :=
  match l with
  | [] => Some s
  | v :: l => s ← body v s; forEach body l s
  end.

(** [sort(...); reverse(...);] on a bucket (lines 95-96). *)
Definition sortDesc (l : list interval) : list interval :=
  reverse (merge_sort pair_le l).

(** Lines 98-104: the boundary value written right of an activating interval. *)
Definition boundaryStep (fuel : nat) (mCols : Z) (segRange : interval)
    (st : State) : option State :=
  let x := segRange.1 in
  let y := segRange.2 in
  if y =? mCols then Some st
  else
    pr ← lowerBoundPrev (iadd y 2, 0) (activeSegs st);
    let ans := 0 in
    '(ans, t) ← (if pr.2 <=? y
                 then queryRange fuel 1 (iadd pr.2 1) (iadd y 1) (seg st)
                 else Some (ans, seg st));
    t ← updatePoint fuel 1 (iadd y 1) ans t;
    Some (mkState t (activeSegs st)).

(** Lines 106-107. *)
Definition eraseStep (segRange : interval) (st : State) : State :=
  mkState (seg st) (activeSegs st ∖ {[segRange]}).

(** Lines 108-110. *)
Definition activateStep (fuel : nat) (segRange : interval) (st : State)
  : option State :=
  let s := {[segRange]} ∪ activeSegs st in
  t ← zeroRange fuel 1 segRange.1 segRange.2 (seg st);
  Some (mkState t s).

(** The body of the row loop (lines 95-110); [order] is what lines 95-96 do
    to the bucket of the row. *)
Definition rowStepWith (order : list interval → list interval) (fuel : nat)
    (mCols : Z) (addRanges delRanges : buckets) (i : Z) (st : State)
  : option State :=
  let added := order (addRanges !!! i) in
  st ← forEach (boundaryStep fuel mCols) added st;
  let st :=
    foldl (λ st segRange, eraseStep segRange st) st (delRanges !!! i) in
  forEach (activateStep fuel) added st.

(** Lines 89-93. *)
Definition initState (fuel : nat) (mCols : Z) (addRanges : buckets)
  : option State :=
  let s := {[ (0, 0) ]} in
  let s := foldl (λ s segRange, {[segRange]} ∪ s) s (addRanges !!! 1) in
  t ← buildTree fuel 1 1 mCols ∅;
  t ← updatePoint fuel 1 1 1 t;
  Some (mkState t s).

(** The state once rows [1..upTo] have been processed. *)
Definition sweepWith (order : list interval → list interval) (fuel : nat)
    (mCols : Z) (rects : list Rect.t) (upTo : Z) : option State :=
  let '(addRanges, delRanges) := readRects rects in
  st ← initState fuel mCols addRanges;
  forEach (rowStepWith order fuel mCols addRanges delRanges)
          (seqZ 2 (upTo - 1)) st.

(** Lines 112-113. *)
Definition finish (fuel : nat) (mCols : Z) (st : State) : option Z :=
  it ← setMax (activeSegs st);
  '(res, _) ← queryRange fuel 1 (iadd it.2 1) mCols (seg st);
  Some res.

(** [main] on the input [nRows mCols qCount] followed by the [qCount]
    rectangles [rects]; the result is the number printed. *)
Definition mainWith (order : list interval → list interval) (fuel : nat)
    (nRows mCols : Z) (rects : list Rect.t) : option Z :=
  st ← sweepWith order fuel mCols rects nRows;
  finish fuel mCols st.

(** The program as written: buckets are sorted, then reversed. *)
Definition sweep := sweepWith sortDesc.
Definition main := mainWith sortDesc.

(** ** The abstract array the tree stands for *)

(** [a[pos] := val] *)
Definition aset (a : Z → Z) (pos val : Z) : Z → Z :=
  λ p, if decide (p = pos) then val else a p.

(** [a[p] := 0] for every [p] in [[l, r]] *)
Definition azero (a : Z → Z) (l r : Z) : Z → Z :=
  λ p, if decide (l ≤ p ≤ r) then 0 else a p.

(** [a lo + a (lo+1) + ...], [n] terms *)
Fixpoint asum (a : Z → Z) (lo : Z) (n : nat) : Z :=
  match n with
  | O => 0
  | S n => a lo + asum a (lo + 1) n
  end.

(** The sum of [a] over [[l, r]], and the same modulo [kMod]. *)
Definition arange (a : Z → Z) (l r : Z) : Z := asum a l (Z.to_nat (r - l + 1)).

Definition asumRange (a : Z → Z) (l r : Z) : Z := arange a l r `mod` kMod.

(** ** Representation invariant of the node array *)

(** [below x y]: index [y] lies in the subtree rooted at index [x]. *)
Inductive below (x : Z) : Z → Prop :=
| below_refl : below x x
| below_left y : below x y → below x (2 * y)
| below_right y : below x y → below x (2 * y + 1).

(** [shape t h x lo hi]: the nodes under index [x] carry the ranges that
    [buildTree] gives the segment [[lo, hi]], within height [h]. *)
Inductive shape (t : tree) : nat → Z → Z → Z → Prop :=
| shape_leaf h x p :
    1 ≤ x → 0 ≤ p < 2 ^ 30 →
    Node.l (t !!! x) = p → Node.r (t !!! x) = p →
    shape t h x p p
| shape_node h x lo hi :
    1 ≤ x → 0 ≤ lo → lo < hi → hi < 2 ^ 30 →
    Node.l (t !!! x) = lo → Node.r (t !!! x) = hi →
    shape t h (lson x) lo ((lo + hi) `div` 2) →
    shape t h (rson x) ((lo + hi) `div` 2 + 1) hi →
    shape t (S h) x lo hi.

(** [rep t a h x lo hi]: under index [x] the array [t] stores the values
    [a lo .. a hi].  A node with a pending tag stands for zeros whatever
    its descendants hold; the tag of a leaf is never read. *)
Inductive rep (t : tree) (a : Z → Z) : nat → Z → Z → Z → Prop :=
| rep_leaf h x p :
    1 ≤ x → 0 ≤ p < 2 ^ 30 →
    Node.l (t !!! x) = p → Node.r (t !!! x) = p →
    Node.sum (t !!! x) = a p →
    rep t a h x p p
| rep_tagged h x lo hi :
    1 ≤ x → 0 ≤ lo → lo < hi → hi < 2 ^ 30 →
    Node.l (t !!! x) = lo → Node.r (t !!! x) = hi →
    Node.tag (t !!! x) ≠ 0 → Node.sum (t !!! x) = 0 →
    (∀ p, lo ≤ p ≤ hi → a p = 0) →
    shape t h (lson x) lo ((lo + hi) `div` 2) →
    shape t h (rson x) ((lo + hi) `div` 2 + 1) hi →
    rep t a (S h) x lo hi
| rep_node h x lo hi :
    1 ≤ x → 0 ≤ lo → lo < hi → hi < 2 ^ 30 →
    Node.l (t !!! x) = lo → Node.r (t !!! x) = hi →
    Node.tag (t !!! x) = 0 →
    Node.sum (t !!! x) =
      Z.rem (iadd (Node.sum (t !!! lson x)) (Node.sum (t !!! rson x))) kMod →
    rep t a h (lson x) lo ((lo + hi) `div` 2) →
    rep t a h (rson x) ((lo + hi) `div` 2 + 1) hi →
    rep t a (S h) x lo hi.

(** ** Well-formed input (section 6 of the specification)

    Coordinates are 1-indexed and bounded by the capacity [kMaxN] of the
    static arrays, which leaves ten spare slots. *)

Definition valid_rect (nRows mCols : Z) (o : Rect.t) : Prop :=
  1 ≤ Rect.x1 o ∧ Rect.x1 o ≤ Rect.x2 o ∧ Rect.x2 o ≤ nRows ∧
  1 ≤ Rect.y1 o ∧ Rect.y1 o ≤ Rect.y2 o ∧ Rect.y2 o ≤ mCols.

Definition valid_input (nRows mCols : Z) (rects : list Rect.t) : Prop :=
  1 ≤ nRows ∧ nRows + 10 ≤ kMaxN ∧ 1 ≤ mCols ∧ mCols + 10 ≤ kMaxN ∧
  Forall (valid_rect nRows mCols) rects.

#[global] Instance valid_rect_dec nRows mCols o :
  Decision (valid_rect nRows mCols o).
Proof. unfold valid_rect. apply _. Defined.

#[global] Instance valid_input_dec nRows mCols rects :
  Decision (valid_input nRows mCols rects).
Proof. unfold valid_input. apply _. Defined.

(** Rectangle [o] obstructs row [i]. *)
Definition spans (o : Rect.t) (i : Z) : Prop := Rect.x1 o ≤ i ≤ Rect.x2 o.

#[global] Instance spans_dec o i : Decision (spans o i).
Proof. unfold spans. apply _. Defined.

(** Two rectangles with the same column interval occupy disjoint rows. *)
Definition compatible (o1 o2 : Rect.t) : Prop :=
  Rect.cols o1 = Rect.cols o2 →
  Rect.x2 o1 < Rect.x1 o2 ∨ Rect.x2 o2 < Rect.x1 o1.

#[global] Instance compatible_dec o1 o2 : Decision (compatible o1 o2).
Proof. unfold compatible. apply _. Defined.

Fixpoint distinctSpans (rects : list Rect.t) : Prop :=
  match rects with
  | [] => True
  | o :: rects => Forall (compatible o) rects ∧ distinctSpans rects
  end.

#[global] Instance distinctSpans_dec rects : Decision (distinctSpans rects).
Proof. induction rects; simpl; apply _. Defined.

(** The buckets of a row, as the sweep reads them. *)
Definition addsAt (rects : list Rect.t) (i : Z) : list interval :=
  (readRects rects).1 !!! i.
Definition delsAt (rects : list Rect.t) (i : Z) : list interval :=
  (readRects rects).2 !!! i.

(** Every erase of the list hits a member of the set. *)
Fixpoint erasesPresent (s : gset interval) (l : list interval) : Prop :=
  match l with
  | [] => True
  | p :: l => p ∈ s ∧ erasesPresent (s ∖ {[p]}) l
  end.

(** The range sum over [[c, d]] reads 0 in state [st]. *)
Definition readsZero (fuel : nat) (st : State) (c d : Z) : Prop :=
  ∃ t', queryRange fuel 1 c d (seg st) = Some (0, t').

(** ** Invariant of the sweep *)

(** The set holds the sentinel and column intervals of the grid. *)
Definition SetOK (mCols : Z) (s : gset interval) : Prop :=
  (0, 0) ∈ s ∧
  ∀ p, p ∈ s → p = (0, 0) ∨ (1 ≤ p.1 ∧ p.1 ≤ p.2 ∧ p.2 ≤ mCols).

(** Every member interval is cleared, column 1 apart (the base case is
    written there before any interval is cleared). *)
Definition ZeroIn (a : Z → Z) (s : gset interval) : Prop :=
  ∀ p c, p ∈ s → p.1 ≤ c ≤ p.2 → 2 ≤ c → a c = 0.

Definition InRange (a : Z → Z) : Prop := ∀ p, 0 ≤ a p < kMod.

Definition Inv (fuel : nat) (mCols : Z) (st : State) (a : Z → Z) : Prop :=
  (∃ h, (h < fuel)%nat ∧ rep (seg st) a h 1 1 mCols) ∧
  InRange a ∧ SetOK mCols (activeSegs st) ∧ ZeroIn a (activeSegs st).

(** The active set after rows [1 .. n+1], by the events of each row. *)
Fixpoint segsAfter (rects : list Rect.t) (n : nat) : gset interval :=
  match n with
  | O => list_to_set (addsAt rects 1) ∪ {[ (0, 0) ]}
  | S n =>
      (segsAfter rects n ∖ list_to_set (delsAt rects (Z.of_nat n + 2)))
      ∪ list_to_set (addsAt rects (Z.of_nat n + 2))
  end.

(** ** Sequences of tree operations *)

Inductive Op : Type :=
| PointSet (pos val : Z)
| ZeroAssign (l r : Z)
| RangeSum (l r : Z).

(** One call on the global tree; a query also yields its answer. *)
Definition runOp (fuel : nat) (o : Op) (t : tree) : option (list Z * tree) :=
  match o with
  | PointSet pos val => t ← updatePoint fuel 1 pos val t; Some ([], t)
  | ZeroAssign l r => t ← zeroRange fuel 1 l r t; Some ([], t)
  | RangeSum l r => '(q, t) ← queryRange fuel 1 l r t; Some ([q], t)
  end.

(** The calls of [ops] in turn, with the answers of the queries. *)
Fixpoint runOps (fuel : nat) (ops : list Op) (t : tree)
  : option (list Z * tree) :=
  match ops with
  | [] => Some ([], t)
  | o :: ops =>
      '(out, t) ← runOp fuel o t;
      '(outs, t) ← runOps fuel ops t;
      Some (out ++ outs, t)
  end.

(** Calls within the contract of a tree over [[1, mCols]]: positions and
    range ends inside the tree (a range may be empty), values already
    reduced. *)
Definition okOp (mCols : Z) (o : Op) : Prop :=
  match o with
  | PointSet pos val => 1 ≤ pos ∧ pos ≤ mCols ∧ 0 ≤ val ∧ val < kMod
  | ZeroAssign l r => 1 ≤ l ∧ l ≤ mCols ∧ 1 ≤ r ∧ r ≤ mCols
  | RangeSum l r => 1 ≤ l ∧ l ≤ mCols ∧ 1 ≤ r ∧ r ≤ mCols
  end.

#[global] Instance okOp_dec mCols o : Decision (okOp mCols o).
Proof. destruct o; simpl; apply _. Defined.

(** The call leaves position [p] alone. *)
Definition keeps (p : Z) (o : Op) : Prop :=
  match o with
  | PointSet pos _ => pos ≠ p
  | ZeroAssign l r => ¬ (l ≤ p ≤ r)
  | RangeSum _ _ => True
  end.

#[global] Instance keeps_dec p o : Decision (keeps p o).
Proof. destruct o; simpl; apply _. Defined.

(** A tree state: what [buildTree] and a history of calls leave behind. *)
Definition treeState (fuel : nat) (mCols : Z) (t : tree) : Prop :=
  ∃ hist outs,
    Forall (okOp mCols) hist ∧
    (t0 ← buildTree fuel 1 1 mCols ∅; runOps fuel hist t0) = Some (outs, t).

(** ** The array of residues of the specification (section 4.1) *)

Module Spec.
(** [pointSet] is [a[p] := v], [zeroAssign] clears [[l, r]], [rangeSum]
    answers the sum over [[l, r]] modulo [kMod]. *)
Definition step (o : Op) (a : Z → Z) : list Z * (Z → Z) :=
  match o with
  | PointSet pos val => ([], aset a pos val)
  | ZeroAssign l r => ([], azero a l r)
  | RangeSum l r => ([asumRange a l r], a)
  end.

Fixpoint run (ops : list Op) (a : Z → Z) : list Z * (Z → Z) :=
  match ops with
  | [] => ([], a)
  | o :: ops =>
      let '(out, a) := step o a in
      let '(outs, a) := run ops a in
      (out ++ outs, a)
  end.

(** Binomial coefficients, by Pascal's rule. *)
Fixpoint binom (n k : nat) : Z :=
  match n, k with
  | _, O => 1
  | O, S _ => 0
  | S n, S k' => binom n k' + binom n k
  end.

(** [C(nRows+mCols-2, nRows-1) mod M], section 8. *)
Definition latticePaths (nRows mCols : Z) : Z :=
  binom (Z.to_nat (nRows + mCols - 2)) (Z.to_nat (nRows - 1)) `mod` kMod.
End Spec.

(** ** Console input and output: [read] and [write] (lines 3-19)

    The standard input is the list of characters still to be read:
    [getchar()] takes the first one and yields [EOF], which is no digit,
    once the list is exhausted.  The standard output is the list of
    characters printed so far. *)

Definition imul (a b : Z) : Z := wrap (a * b).
Definition isub (a b : Z) : Z := wrap (a - b).
Definition ineg (a : Z) : Z := wrap (- a).

Abbreviation stdin := (list Ascii.ascii).
Abbreviation stdout := (list Ascii.ascii).

(** The character as an [int]. *)
Definition code (c : Ascii.ascii) : Z := Z.of_N (Ascii.N_of_ascii c).

(** [isdigit(c)]; a character outside ASCII is no digit. *)
Definition isdigit (c : Ascii.ascii) : bool := (48 <=? code c) && (code c <=? 57).

(** Line 6, [for(;!isdigit(c);c=getchar())f!=c=='-';].  The list starts
    with the current character [c].  The body is the comparison
    [(f!=c)=='-'], whose value is dropped: nothing is assigned, and [f] is
    handed on as it is.  At the end of the input the loop does not end:
    [None]. *)
Fixpoint skipToDigit (f : bool) (s : stdin) : option (bool * stdin) :=
  match s with
  | [] => None
  | c :: s' =>
      if isdigit c then Some (f, s)
      else
        let _ := Z.b2z (negb (Z.b2z f =? code c)) =? 45 in
        skipToDigit f s'
  end.

(** Line 7, [for(;isdigit(c);c=getchar())x=x*10+c-'0';].  The character
    that ends the loop has been taken from the input. *)
Fixpoint readDigits (x : Z) (s : stdin) : Z * stdin :=
  match s with
  | [] => (x, [])
  | c :: s' =>
      if isdigit c
      then readDigits (isub (iadd (imul x 10) (code c)) 48) s'
      else (x, s')
  end.

(** [read(x)] at type [int]: the value stored in [x] and the input left. *)
Definition read (s : stdin) : option (Z * stdin) :=
  let x := 0 in
  let f := false in
  '(f, s) ← skipToDigit f s;
  let '(x, s) := readDigits x s in
  Some (if f : bool then ineg x else x, s).

(** An [int] converted to [unsigned char]. *)
Definition chr (v : Z) : Ascii.ascii := Ascii.ascii_of_N (Z.to_N (v `mod` 256)).

(** [putchar(v)] *)
Definition putchar (v : Z) (out : stdout) : stdout := out ++ [chr v].

(** [write(x)] at type [int]; [fuel] bounds the recursion depth. *)
Fixpoint write (fuel : nat) (x : Z) (out : stdout) : option stdout :=
  match fuel with
  | O => None
  | S fuel =>
      let '(x, out) :=
        if x <? 0 then (ineg x, putchar 45 out) else (x, out) in
      out ← (if 10 <=? x then write fuel (Z.quot x 10) out else Some out);
      Some (putchar (iadd (Z.rem x 10) 48) out)
  end.

(** The input loop of [main] (lines 83-88) as far as it reads: [n] times
    [read(x1,y1,x2,y2)].  The variadic [read] is one [read] per argument,
    from left to right. *)
Fixpoint readQueries (n : nat) (s : stdin) : option (list Rect.t * stdin) :=
  match n with
  | O => Some ([], s)
  | S n =>
      '(x1, s) ← read s;
      '(y1, s) ← read s;
      '(x2, s) ← read s;
      '(y2, s) ← read s;
      '(rects, s) ← readQueries n s;
      Some (Rect.mk x1 y1 x2 y2 :: rects, s)
  end.

(** The program on its standard input; the result is the number printed
    by line 113.  [while(qCount--)] with a negative count does not end
    before the counter has left the range of [int]: [None]. *)
Definition program (fuel : nat) (s : stdin) : option Z :=
  '(nRows, s) ← read s;
  '(mCols, s) ← read s;
  '(qCount, s) ← read s;
  if qCount <? 0 then None
  else
    '(rects, _) ← readQueries (Z.to_nat qCount) s;
    main fuel nRows mCols rects.

(** ** Decimal numerals *)

(** The number a string of digits stands for. *)
Definition numeral (ds : list Ascii.ascii) : Z :=
  foldl (λ acc c, acc * 10 + (code c - 48)) 0 ds.

(** The decimal numeral of [n ≥ 0], of at most [fuel] digits. *)
Fixpoint decimal (fuel : nat) (n : Z) : list Ascii.ascii :=
  match fuel with
  | O => []
  | S fuel =>
      (if 10 <=? n then decimal fuel (n `div` 10) else [])
      ++ [chr (48 + n `mod` 10)]
  end.

(** The input of [main] in the layout of the task: the numbers of a line
    separated by one space, the three numbers of the header on the first
    line, then one rectangle per line. *)
Fixpoint inputLine (ns : list Z) : list Ascii.ascii :=
  match ns with
  | [] => [chr 10]
  | n :: ns =>
      decimal 10 n ++
      match ns with
      | [] => inputLine ns
      | _ :: _ => chr 32 :: inputLine ns
      end
  end.

Definition inputText (nRows mCols : Z) (rects : list Rect.t)
  : list Ascii.ascii :=
  inputLine [nRows; mCols; Z.of_nat (length rects)]
  ++ mjoin ((λ o, inputLine [Rect.x1 o; Rect.y1 o; Rect.x2 o; Rect.y2 o])
              <$> rects).

(** The numbers of a rectangle fit an [int] and carry no sign. *)
Definition rect_fits (o : Rect.t) : Prop :=
  (0 ≤ Rect.x1 o < 2 ^ 31 ∧ 0 ≤ Rect.y1 o < 2 ^ 31) ∧
  (0 ≤ Rect.x2 o < 2 ^ 31 ∧ 0 ≤ Rect.y2 o < 2 ^ 31).

#[global] Instance rect_fits_dec o : Decision (rect_fits o).
Proof. unfold rect_fits. apply _. Defined.

(** ** Properties of the node array as a whole *)

(** No node's range differs between [t] and [t']. *)
Definition sameRanges (t t' : tree) : Prop :=
  ∀ y, Node.l (t' !!! y) = Node.l (t !!! y) ∧
       Node.r (t' !!! y) = Node.r (t !!! y).

(** Every stored sum is a residue modulo [kMod] and every tag is 0 or 1. *)
Definition reduced (t : tree) : Prop :=
  ∀ y, 0 ≤ Node.sum (t !!! y) < kMod ∧
       (Node.tag (t !!! y) = 0 ∨ Node.tag (t !!! y) = 1).

(** The value a call stores, if any, is a residue. *)
Definition storesResidue (o : Op) : Prop :=
  match o with
  | PointSet _ val => 0 ≤ val < kMod
  | _ => True
  end.

#[global] Instance storesResidue_dec o : Decision (storesResidue o).
Proof. destruct o; simpl; apply _. Defined.

(** The indices written so far are those of [dom]: every assignment to a
    node inserts its index.  [inBounds n t]: they all lie in [[1, 4n)]. *)
Definition inBounds (n : Z) (t : tree) : Prop :=
  ∀ y, y ∈ dom t → 1 ≤ y < 4 * n.

(** The indices written between [t] and [t'] satisfy [P]. *)
Definition writesOnly (P : Z → Prop) (t t' : tree) : Prop :=
  ∀ y, y ∈ dom t' → y ∈ dom t ∨ P y.

(** The indices of a subtree of height [h] rooted at [x]. *)
Definition within (x : Z) (h : nat) (y : Z) : Prop :=
  x ≤ y < (x + 1) * 2 ^ Z.of_nat h.

(** The tree of state [st] has the ranges of [buildTree] within height
    [h], which is tight for [mCols] columns, and no index outside
    [[1, 4 * mCols)] has been written. *)
Definition Safe (h : nat) (mCols : Z) (st : State) : Prop :=
  shape (seg st) h 1 1 mCols ∧ 2 ^ Z.of_nat h ≤ 2 * mCols ∧
  inBounds mCols (seg st).

(** The position of [[lo, hi]] nearest to [pos]. *)
Definition clamp (lo hi pos : Z) : Z := Z.max lo (Z.min hi pos).

(** Every node carries a range inside [[0, m]]: the range [buildTree]
    gave it, or [[0, 0]] if it was never built. *)
Definition rangesIn (m : Z) (t : tree) : Prop :=
  ∀ y, 0 ≤ Node.l (t !!! y) ≤ Node.r (t !!! y) ∧ Node.r (t !!! y) ≤ m.

(** Every value of [a] is a residue, except that the one at [p] may be
    any value that a residue can be added to within the range of [int]. *)
Definition wideAt (p : Z) (a : Z → Z) : Prop :=
  0 ≤ a p ≤ 2 ^ 31 - kMod ∧ ∀ q, q ≠ p → 0 ≤ a q < kMod.

(** ** Machine arithmetic *)

Lemma wrap_small z : - 2 ^ 31 ≤ z < 2 ^ 31 → wrap z = z.
Proof. intros Hz. unfold wrap. rewrite Z.mod_small; lia. Qed.

Lemma iadd_small a b : - 2 ^ 31 ≤ a + b < 2 ^ 31 → iadd a b = a + b.
Proof. apply wrap_small. Qed.

Lemma shiftr_1 z : Z.shiftr z 1 = z `div` 2.
Proof. rewrite Z.shiftr_div_pow2 by lia. reflexivity. Qed.

Lemma lson_eq x : lson x = 2 * x.
Proof. unfold lson. rewrite Z.shiftl_mul_pow2 by lia. lia. Qed.

Lemma rson_eq x : 0 ≤ x → rson x = 2 * x + 1.
Proof.
  intros Hx. unfold rson. destruct x as [|p|p]; [reflexivity|reflexivity|lia].
Qed.

Lemma addmod_kMod a b :
  0 ≤ a < kMod → 0 ≤ b < kMod → Z.rem (iadd a b) kMod = (a + b) `mod` kMod.
Proof.
  intros Ha Hb. unfold kMod in *.
  rewrite iadd_small by lia. apply Z.rem_mod_nonneg; lia.
Qed.

(** ** Node indices *)

Lemma below_ge x y : 1 ≤ x → below x y → x ≤ y.
Proof. intros Hx Hb. induction Hb; lia. Qed.

Lemma below_trans x y z : below x y → below y z → below x z.
Proof. intros Hxy Hyz. induction Hyz; [done|by constructor..]. Qed.

Lemma below_lson x y : below (lson x) y → below x y.
Proof.
  apply below_trans. rewrite lson_eq. apply below_left, below_refl.
Qed.

Lemma below_rson x y : 1 ≤ x → below (rson x) y → below x y.
Proof.
  intros Hx. apply below_trans. rewrite rson_eq by lia.
  apply below_right, below_refl.
Qed.

Lemma below_sons_disjoint x y :
  1 ≤ x → below (2 * x) y → below (2 * x + 1) y → False.
Proof.
  intros Hx Hl. induction Hl as [|y Hl IH|y Hl IH]; intros Hr.
  - apply below_ge in Hr; lia.
  - inversion Hr as [Heq|z Hz Heq|z Hz Heq]; [lia| |lia].
    assert (z = y) as -> by lia. auto.
  - inversion Hr as [Heq|z Hz Heq|z Hz Heq]; [|lia|].
    + apply below_ge in Hl; lia.
    + assert (z = y) as -> by lia. auto.
Qed.

Lemma not_below_lson_rson x y : 1 ≤ x → below (lson x) y → ¬ below (rson x) y.
Proof.
  rewrite lson_eq. intros Hx Hl Hr. rewrite rson_eq in Hr by lia.
  eauto using below_sons_disjoint.
Qed.

Lemma not_below_rson_lson x y : 1 ≤ x → below (rson x) y → ¬ below (lson x) y.
Proof. intros Hx Hr Hl. by eapply not_below_lson_rson. Qed.

Lemma not_below_lson_self x : 1 ≤ x → ¬ below (lson x) x.
Proof. rewrite lson_eq. intros Hx Hb%below_ge; lia. Qed.

Lemma not_below_rson_self x : 1 ≤ x → ¬ below (rson x) x.
Proof. intros Hx. rewrite rson_eq by lia. intros Hb%below_ge; lia. Qed.

(** ** Reading the node array after a write *)

Lemma lookup_setRange x lo hi t y :
  setRange x lo hi t !!! y =
    if decide (x = y) then Node.with_range lo hi (t !!! x) else t !!! y.
Proof. unfold setRange. apply lookup_total_insert. Qed.

Lemma lookup_setTag x v t y :
  setTag x v t !!! y =
    if decide (x = y) then Node.with_tag v (t !!! x) else t !!! y.
Proof. unfold setTag. apply lookup_total_insert. Qed.

Lemma lookup_setSum x v t y :
  setSum x v t !!! y =
    if decide (x = y) then Node.with_sum v (t !!! x) else t !!! y.
Proof. unfold setSum. apply lookup_total_insert. Qed.

Lemma lookup_pushUp_ne x t y : x ≠ y → pushUp x t !!! y = t !!! y.
Proof. intros Hne. unfold pushUp. rewrite lookup_setSum. by case_decide. Qed.

Lemma lookup_pushUp_eq x t :
  pushUp x t !!! x =
    Node.with_sum
      (Z.rem (iadd (Node.sum (t !!! lson x)) (Node.sum (t !!! rson x))) kMod)
      (t !!! x).
Proof. unfold pushUp. rewrite lookup_setSum. by case_decide. Qed.

(** ** Frame properties of the invariant *)

Lemma shape_frame t t' h x lo hi :
  shape t h x lo hi →
  (∀ y, below x y → t' !!! y = t !!! y) →
  shape t' h x lo hi.
Proof.
  intros Hs. induction Hs as [h x p ????|h x lo hi ?????? _ IHl _ IHr];
    intros Hfr.
  - apply shape_leaf; rewrite ?Hfr; auto using below_refl.
  - apply shape_node; rewrite ?Hfr; auto using below_refl.
    + apply IHl. intros y Hy. apply Hfr. by apply below_lson.
    + apply IHr. intros y Hy. apply Hfr. by apply below_rson.
Qed.

Lemma rep_frame t t' a h x lo hi :
  rep t a h x lo hi →
  (∀ y, below x y → t' !!! y = t !!! y) →
  rep t' a h x lo hi.
Proof.
  intros Hr.
  induction Hr as [h x p ?????|h x lo hi ????????? Hsl Hsr
                  |h x lo hi ???????? _ IHl _ IHr]; intros Hfr.
  - apply rep_leaf; rewrite ?Hfr; auto using below_refl.
  - apply rep_tagged; rewrite ?Hfr; auto using below_refl.
    + eapply shape_frame; [done|]. intros y Hy. apply Hfr. by apply below_lson.
    + eapply shape_frame; [done|]. intros y Hy. apply Hfr. by apply below_rson.
  - assert (t' !!! x = t !!! x) as Hx by apply Hfr, below_refl.
    assert (t' !!! lson x = t !!! lson x) as Hl.
    { apply Hfr. rewrite lson_eq. apply below_left, below_refl. }
    assert (t' !!! rson x = t !!! rson x) as Hr.
    { apply Hfr. rewrite rson_eq by lia. apply below_right, below_refl. }
    apply rep_node; rewrite ?Hx, ?Hl, ?Hr; auto.
    + apply IHl. intros y Hy. apply Hfr. by apply below_lson.
    + apply IHr. intros y Hy. apply Hfr. by apply below_rson.
Qed.

Lemma rep_shape t a h x lo hi : rep t a h x lo hi → shape t h x lo hi.
Proof. induction 1; eauto using shape. Qed.

Lemma rep_ext t a a' h x lo hi :
  rep t a h x lo hi →
  (∀ p, lo ≤ p ≤ hi → a' p = a p) →
  rep t a' h x lo hi.
Proof.
  intros Hr.
  induction Hr as [h x p ?????|h x lo hi ????????? Hsl Hsr
                  |h x lo hi ???????? _ IHl _ IHr]; intros Hext.
  - apply rep_leaf; auto. rewrite Hext; [done|lia].
  - apply rep_tagged; auto. intros p Hp. rewrite Hext; auto.
  - assert (lo ≤ (lo + hi) `div` 2 < hi) by (split; [apply Z.div_le_lower_bound|apply Z.div_lt_upper_bound]; lia).
    apply rep_node; auto.
    + apply IHl. intros p Hp. apply Hext. lia.
    + apply IHr. intros p Hp. apply Hext. lia.
Qed.

(** ** [pushDown] and [pushUp] against the invariant *)

Lemma mid_bounds lo hi : lo < hi → lo ≤ (lo + hi) `div` 2 < hi.
Proof.
  intros Hlt. split; [apply Z.div_le_lower_bound|apply Z.div_lt_upper_bound]; lia.
Qed.

Lemma rep_range t a h x lo hi :
  rep t a h x lo hi →
  1 ≤ x ∧ 0 ≤ lo ∧ lo ≤ hi ∧ hi < 2 ^ 30 ∧
  Node.l (t !!! x) = lo ∧ Node.r (t !!! x) = hi.
Proof. destruct 1; repeat split; auto; lia. Qed.

Lemma shape_range t h x lo hi :
  shape t h x lo hi →
  1 ≤ x ∧ 0 ≤ lo ∧ lo ≤ hi ∧ hi < 2 ^ 30 ∧
  Node.l (t !!! x) = lo ∧ Node.r (t !!! x) = hi.
Proof. destruct 1; repeat split; auto; lia. Qed.

Lemma midpoint_eq t x lo hi :
  Node.l (t !!! x) = lo → Node.r (t !!! x) = hi →
  0 ≤ lo → lo ≤ hi → hi < 2 ^ 30 →
  midpoint x t = (lo + hi) `div` 2.
Proof.
  intros Hl Hr ???. unfold midpoint. rewrite Hl, Hr, iadd_small by lia.
  apply shiftr_1.
Qed.

Lemma sons_ne x : 1 ≤ x → lson x ≠ x ∧ rson x ≠ x ∧ lson x ≠ rson x.
Proof. intros Hx. rewrite lson_eq, rson_eq by lia. lia. Qed.

Lemma lookup_pushDown_ne x t y :
  y ≠ x → y ≠ lson x → y ≠ rson x → pushDown x t !!! y = t !!! y.
Proof.
  intros ???. unfold pushDown. destruct (_ =? 0); [done|].
  rewrite lookup_setTag, !lookup_setSum, !lookup_setTag.
  repeat case_decide; congruence.
Qed.

Lemma lookup_pushDown_self x t :
  1 ≤ x → pushDown x t !!! x = Node.with_tag 0 (t !!! x).
Proof.
  intros Hx. destruct (sons_ne x Hx) as (?&?&?). unfold pushDown.
  destruct (Z.eqb_spec (Node.tag (t !!! x)) 0) as [Htag|Htag].
  - destruct (t !!! x); simpl in *; by subst.
  - rewrite lookup_setTag, !lookup_setSum, !lookup_setTag.
    repeat case_decide; congruence.
Qed.

Lemma lookup_pushDown_sons x t c :
  1 ≤ x → Node.tag (t !!! x) ≠ 0 → c = lson x ∨ c = rson x →
  pushDown x t !!! c = Node.mk (Node.l (t !!! c)) (Node.r (t !!! c)) 1 0.
Proof.
  intros Hx Htag Hc. destruct (sons_ne x Hx) as (?&?&?). unfold pushDown.
  destruct (Z.eqb_spec (Node.tag (t !!! x)) 0) as [|_]; [done|].
  rewrite lookup_setTag, !lookup_setSum, !lookup_setTag.
  destruct Hc as [-> | ->]; repeat case_decide; try congruence; done.
Qed.

Lemma pushDown_frame x t y : 1 ≤ x → ¬ below x y → pushDown x t !!! y = t !!! y.
Proof.
  intros Hx Hy. apply lookup_pushDown_ne; intros ->; apply Hy.
  - apply below_refl.
  - rewrite lson_eq. apply below_left, below_refl.
  - rewrite rson_eq by lia. apply below_right, below_refl.
Qed.

(** A node that has just been tagged and cleared stands for zeros. *)
Lemma rep_zero_tagged t t' a h c lo hi :
  shape t h c lo hi →
  (∀ p, lo ≤ p ≤ hi → a p = 0) →
  Node.l (t' !!! c) = lo → Node.r (t' !!! c) = hi →
  Node.tag (t' !!! c) ≠ 0 → Node.sum (t' !!! c) = 0 →
  (∀ y, below c y → y ≠ c → t' !!! y = t !!! y) →
  rep t' a h c lo hi.
Proof.
  intros Hs Hz Hl Hr Htag Hsum Hfr. inversion Hs; subst.
  - apply rep_leaf; auto. rewrite Hz; [done|lia].
  - apply rep_tagged; auto.
    + eapply shape_frame; [done|]. intros y Hy. apply Hfr.
      * by apply below_lson.
      * rewrite lson_eq in Hy. apply below_ge in Hy; lia.
    + eapply shape_frame; [done|]. intros y Hy. apply Hfr.
      * by apply below_rson.
      * rewrite rson_eq in Hy by lia. apply below_ge in Hy; lia.
Qed.

Lemma pushDown_rep t a h x lo hi :
  rep t a h x lo hi → lo < hi →
  ∃ h', h = S h' ∧
    Node.l (pushDown x t !!! x) = lo ∧ Node.r (pushDown x t !!! x) = hi ∧
    Node.tag (pushDown x t !!! x) = 0 ∧
    Node.sum (pushDown x t !!! x) =
      Z.rem (iadd (Node.sum (pushDown x t !!! lson x))
                  (Node.sum (pushDown x t !!! rson x))) kMod ∧
    rep (pushDown x t) a h' (lson x) lo ((lo + hi) `div` 2) ∧
    rep (pushDown x t) a h' (rson x) ((lo + hi) `div` 2 + 1) hi.
Proof.
  intros Hrep Hlt.
  inversion Hrep as [|h' ? ? ? Hx ? ? ? Hl Hr Htag Hsum Hz Hsl Hsr
                     |h' ? ? ? Hx ? ? ? Hl Hr Htag Hsum Hrl Hrr]; subst; [lia|..].
  - exists h'. split; [done|].
    pose proof (mid_bounds _ _ Hlt) as Hmid.
    destruct (shape_range _ _ _ _ _ Hsl) as (_&_&_&_&Hll&Hlr).
    destruct (shape_range _ _ _ _ _ Hsr) as (_&_&_&_&Hrl&Hrr).
    rewrite lookup_pushDown_self by done.
    rewrite !(lookup_pushDown_sons x t) by auto. simpl.
    repeat split; auto.
    + eapply rep_zero_tagged; first done.
      * intros p Hp. apply Hz. lia.
      * by rewrite lookup_pushDown_sons by auto.
      * by rewrite lookup_pushDown_sons by auto.
      * by rewrite lookup_pushDown_sons by auto.
      * by rewrite lookup_pushDown_sons by auto.
      * intros y Hy Hne. rewrite lson_eq in Hy, Hne.
        assert (2 * x ≤ y) by (apply below_ge; [lia|done]).
        apply lookup_pushDown_ne; rewrite ?lson_eq, ?rson_eq by lia; [lia..|].
        intros ->. eapply below_sons_disjoint; [|done|apply below_refl]. lia.
    + eapply rep_zero_tagged; first done.
      * intros p Hp. apply Hz. lia.
      * by rewrite lookup_pushDown_sons by auto.
      * by rewrite lookup_pushDown_sons by auto.
      * by rewrite lookup_pushDown_sons by auto.
      * by rewrite lookup_pushDown_sons by auto.
      * intros y Hy Hne. rewrite rson_eq in Hy, Hne by lia.
        assert (2 * x + 1 ≤ y) by (apply below_ge; [lia|done]).
        apply lookup_pushDown_ne; rewrite ?lson_eq, ?rson_eq by lia; lia.
  - exists h'. split; [done|].
    assert (pushDown x t = t) as ->; [|by auto].
    unfold pushDown. by rewrite Htag.
Qed.

Lemma rep_pushUp t a h x lo hi :
  1 ≤ x → 0 ≤ lo → lo < hi → hi < 2 ^ 30 →
  Node.l (t !!! x) = lo → Node.r (t !!! x) = hi → Node.tag (t !!! x) = 0 →
  rep t a h (lson x) lo ((lo + hi) `div` 2) →
  rep t a h (rson x) ((lo + hi) `div` 2 + 1) hi →
  rep (pushUp x t) a (S h) x lo hi.
Proof.
  intros Hx ??? Hl Hr Htag Hrl Hrr. destruct (sons_ne x Hx) as (?&?&?).
  apply rep_node; auto; rewrite ?lookup_pushUp_eq, ?lookup_pushUp_ne by done;
    auto.
  - eapply rep_frame; [done|]. intros y Hy. apply lookup_pushUp_ne.
    intros ->. by eapply not_below_lson_self.
  - eapply rep_frame; [done|]. intros y Hy. apply lookup_pushUp_ne.
    intros ->. by eapply not_below_rson_self.
Qed.

Lemma pushUp_frame x t y : ¬ below x y → pushUp x t !!! y = t !!! y.
Proof. intros Hy. apply lookup_pushUp_ne. intros ->. apply Hy, below_refl. Qed.

(** ** [buildTree] *)

Lemma buildTree_spec fuel : ∀ h t x l r,
  (h < fuel)%nat → 1 ≤ x → 0 ≤ l → l ≤ r → r < 2 ^ 30 →
  r - l + 1 ≤ 2 ^ Z.of_nat h →
  ∃ t', buildTree fuel x l r t = Some t' ∧ shape t' h x l r ∧
    (∀ y, ¬ below x y → t' !!! y = t !!! y) ∧
    (∀ y, Node.sum (t' !!! y) = Node.sum (t !!! y) ∧
          Node.tag (t' !!! y) = Node.tag (t !!! y)).
Proof.
  induction fuel as [|fuel IH]; intros h t x l r Hh Hx Hl Hlr Hr Hsz; [lia|].
  simpl. destruct (Z.eqb_spec l r) as [->|Hne].
  - eexists; split; [done|]. split; [|split].
    + apply shape_leaf; auto; rewrite lookup_setRange; by case_decide.
    + intros y Hy. rewrite lookup_setRange. case_decide; [|done].
      subst. destruct Hy. apply below_refl.
    + intros y. rewrite lookup_setRange. by case_decide; subst.
  - destruct h as [|h]; [simpl in Hsz; lia|].
    rewrite Nat2Z.inj_succ, Z.pow_succ_r in Hsz by lia.
    assert (l < r) as Hlt by lia.
    pose proof (mid_bounds _ _ Hlt) as Hmid.
    pose proof (Z.div_mod (l + r) 2 ltac:(lia)) as Hdm.
    pose proof (Z.mod_pos_bound (l + r) 2 ltac:(lia)) as Hmb.
    rewrite (iadd_small l r), shiftr_1 by lia. rewrite iadd_small by lia.
    destruct (sons_ne x Hx) as (?&?&?).
    destruct (IH h (setRange x l r t) (lson x) l ((l + r) `div` 2))
      as (t1 & -> & Hs1 & Hf1 & Hp1); [rewrite ?lson_eq; lia..|].
    simpl.
    destruct (IH h t1 (rson x) ((l + r) `div` 2 + 1) r)
      as (t2 & -> & Hs2 & Hf2 & Hp2); [rewrite ?rson_eq by lia; lia..|].
    eexists; split; [done|]. split; [|split].
    + assert (t2 !!! x = Node.with_range l r (t !!! x)) as Hx2.
      { rewrite Hf2 by by apply not_below_rson_self.
        rewrite Hf1 by by apply not_below_lson_self.
        rewrite lookup_setRange. by case_decide. }
      apply shape_node; auto; rewrite ?Hx2; auto.
      eapply shape_frame; [done|]. intros y Hy. apply Hf2.
      by apply not_below_lson_rson.
    + intros y Hy. rewrite Hf2, Hf1.
      * rewrite lookup_setRange. case_decide; [|done].
        subst. destruct Hy. apply below_refl.
      * intros Hb. by apply Hy, below_lson.
      * intros Hb. by apply Hy, below_rson.
    + intros y. destruct (Hp2 y) as [-> ->], (Hp1 y) as [-> ->].
      rewrite lookup_setRange. by case_decide; subst.
Qed.

Lemma rep_of_shape_zero t h x lo hi :
  shape t h x lo hi →
  (∀ y, Node.sum (t !!! y) = 0 ∧ Node.tag (t !!! y) = 0) →
  rep t (λ _, 0) h x lo hi.
Proof.
  intros Hs Hz. induction Hs.
  - apply rep_leaf; auto. apply Hz.
  - apply rep_node; auto; try apply Hz.
    by rewrite !(proj1 (Hz _)).
Qed.

(** ** [updatePoint] writes one cell of the abstract array *)

Lemma updatePoint_spec fuel : ∀ t a h x lo hi pos val,
  rep t a h x lo hi → (h < fuel)%nat → lo ≤ pos ≤ hi →
  ∃ t', updatePoint fuel x pos val t = Some t' ∧
    rep t' (aset a pos val) h x lo hi ∧
    (∀ y, ¬ below x y → t' !!! y = t !!! y).
Proof.
  induction fuel as [|fuel IH]; intros t a h x lo hi pos val Hrep Hh Hpos;
    [lia|].
  destruct (rep_range _ _ _ _ _ _ Hrep) as (Hx & Hlo & Hle & Hhi & Hl & Hr).
  simpl. rewrite Hl, Hr. destruct (Z.eqb_spec lo hi) as [->|Hne].
  - eexists; split; [done|]. split.
    + apply rep_leaf; auto; rewrite lookup_setSum; case_decide; try done.
      simpl. unfold aset. case_decide; [done|lia].
    + intros y Hy. rewrite lookup_setSum. case_decide; [|done].
      subst. destruct Hy. apply below_refl.
  - assert (lo < hi) as Hlt by lia.
    pose proof (mid_bounds _ _ Hlt) as Hmid.
    destruct (pushDown_rep _ _ _ _ _ _ Hrep Hlt)
      as (h' & -> & Hl1 & Hr1 & Htag1 & _ & Hrl & Hrr).
    rewrite (midpoint_eq _ _ lo hi) by auto.
    destruct (sons_ne x Hx) as (?&?&?).
    destruct (Z.leb_spec pos ((lo + hi) `div` 2)) as [Hp|Hp].
    + destruct (IH _ _ _ _ _ _ pos val Hrl) as (t2 & -> & Hrep2 & Hf2);
        [lia..|].
      simpl. destruct (Z.ltb_spec ((lo + hi) `div` 2) pos); [lia|]. simpl.
      eexists; split; [done|]. split.
      * apply rep_pushUp; auto;
          rewrite ?Hf2 by (by apply not_below_lson_self); auto.
        eapply rep_ext.
        { eapply rep_frame; [exact Hrr|]. intros y Hy. apply Hf2.
          by apply not_below_rson_lson. }
        intros p Hp'. unfold aset. case_decide; [lia|done].
      * intros y Hy. rewrite pushUp_frame, Hf2, pushDown_frame; auto.
        intros Hb. by apply Hy, below_lson.
    + simpl. destruct (Z.ltb_spec ((lo + hi) `div` 2) pos); [|lia].
      destruct (IH _ _ _ _ _ _ pos val Hrr) as (t2 & -> & Hrep2 & Hf2);
        [lia..|].
      simpl. eexists; split; [done|]. split.
      * apply rep_pushUp; auto;
          rewrite ?Hf2 by (by apply not_below_rson_self); auto.
        eapply rep_ext.
        { eapply rep_frame; [exact Hrl|]. intros y Hy. apply Hf2.
          by apply not_below_lson_rson. }
        intros p Hp'. unfold aset. case_decide; [lia|done].
      * intros y Hy. rewrite pushUp_frame, Hf2, pushDown_frame; auto.
        intros Hb. by apply Hy, below_rson.
Qed.

(** ** Sums over the abstract array *)

Lemma asum_app a n m : ∀ lo,
  asum a lo (n + m) = asum a lo n + asum a (lo + Z.of_nat n) m.
Proof.
  induction n as [|n IH]; intros lo.
  - simpl. by rewrite Z.add_0_r.
  - cbn [Nat.add asum]. rewrite IH.
    replace (lo + 1 + Z.of_nat n) with (lo + Z.of_nat (S n)) by lia. lia.
Qed.

Lemma asum_zero a n : ∀ lo,
  (∀ p, lo ≤ p < lo + Z.of_nat n → a p = 0) → asum a lo n = 0.
Proof.
  induction n as [|n IH]; intros lo Hp; [done|]. simpl.
  rewrite Hp, IH by (intros; try apply Hp; lia). done.
Qed.

Lemma arange_empty a l r : r < l → arange a l r = 0.
Proof. intros Hlt. unfold arange. by replace (Z.to_nat _) with O by lia. Qed.

Lemma arange_single a p : arange a p p = a p.
Proof.
  unfold arange. replace (Z.to_nat _) with 1%nat by lia. simpl. lia.
Qed.

Lemma arange_zero a l r : (∀ p, l ≤ p ≤ r → a p = 0) → arange a l r = 0.
Proof. intros Hz. apply asum_zero. intros p Hp. apply Hz. lia. Qed.

Lemma arange_split a l m r :
  l ≤ m + 1 → m ≤ r → arange a l r = arange a l m + arange a (m + 1) r.
Proof.
  intros Hlm Hmr. unfold arange.
  replace (Z.to_nat (r - l + 1))
    with (Z.to_nat (m - l + 1) + Z.to_nat (r - (m + 1) + 1))%nat by lia.
  rewrite asum_app. do 2 f_equal. lia.
Qed.

Lemma arange_split_at a l r m :
  arange a l r = arange a l (Z.min r m) + arange a (Z.max l (m + 1)) r.
Proof.
  destruct (decide (m < l)); [|destruct (decide (r ≤ m))].
  - rewrite (arange_empty a l (Z.min r m)) by lia.
    by replace (Z.max l (m + 1)) with l by lia.
  - rewrite (arange_empty a (Z.max l (m + 1)) r) by lia.
    replace (Z.min r m) with r by lia. lia.
  - replace (Z.min r m) with m by lia.
    replace (Z.max l (m + 1)) with (m + 1) by lia.
    apply arange_split; lia.
Qed.

Lemma asumRange_bounds a l r : 0 ≤ asumRange a l r < kMod.
Proof. unfold asumRange. apply Z.mod_pos_bound. done. Qed.

(** The sum stored at a node is the sum of the cells under it. *)
Lemma node_sum_rep t a h x lo hi :
  rep t a h x lo hi →
  (∀ p, lo ≤ p ≤ hi → 0 ≤ a p < kMod) →
  Node.sum (t !!! x) = asumRange a lo hi.
Proof.
  intros Hrep.
  induction Hrep as [h x p ???? Hsum|h x lo hi ??????? Hsum Hz ??
                    |h x lo hi ? ? Hlt ???? Hsum _ IHl _ IHr]; intros Hin.
  - unfold asumRange. rewrite arange_single, Hsum.
    rewrite Z.mod_small; [done|]. apply Hin. lia.
  - unfold asumRange. by rewrite Hsum, arange_zero.
  - pose proof (mid_bounds _ _ Hlt) as Hmid.
    rewrite Hsum, IHl, IHr by (intros; apply Hin; lia).
    rewrite addmod_kMod by apply asumRange_bounds.
    unfold asumRange. rewrite <- Z.add_mod by done.
    by rewrite <- arange_split by lia.
Qed.

(** ** [zeroRange] clears a range of the abstract array *)

Lemma covered_decide l lo hi r :
  (l <=? lo) && (hi <=? r) = bool_decide (l ≤ lo ∧ hi ≤ r).
Proof.
  case_bool_decide as Hc.
  - destruct Hc. apply andb_true_intro. split; by apply Z.leb_le.
  - apply andb_false_iff.
    destruct (Z.leb_spec l lo); [right; apply Z.leb_gt; lia|by left].
Qed.

Lemma zeroRange_spec fuel : ∀ t a h x lo hi l r,
  rep t a h x lo hi → (h < fuel)%nat → l ≤ hi → lo ≤ r →
  ∃ t', zeroRange fuel x l r t = Some t' ∧
    rep t' (azero a l r) h x lo hi ∧
    (∀ y, ¬ below x y → t' !!! y = t !!! y).
Proof.
  induction fuel as [|fuel IH]; intros t a h x lo hi l r Hrep Hh Hlhi Hlor;
    [lia|].
  destruct (rep_range _ _ _ _ _ _ Hrep) as (Hx & Hlo & Hle & Hhi & Hl & Hr).
  simpl. rewrite Hl, Hr, covered_decide. case_bool_decide as Hc.
  - (* fully covered *)
    eexists; split; [done|]. split.
    + eapply rep_zero_tagged.
      * eapply rep_shape, Hrep.
      * intros p Hp. unfold azero. case_decide; [done|lia].
      * rewrite lookup_setSum, lookup_setTag. by case_decide.
      * rewrite lookup_setSum, lookup_setTag. by case_decide.
      * rewrite lookup_setSum, lookup_setTag. by case_decide.
      * rewrite lookup_setSum, lookup_setTag. by case_decide.
      * intros y _ Hne. rewrite lookup_setSum, !lookup_setTag.
        repeat case_decide; congruence.
    + intros y Hy. rewrite lookup_setSum, !lookup_setTag.
      repeat case_decide; try done; subst; destruct Hy; apply below_refl.
  - (* partial overlap: the node is not a leaf *)
    assert (lo < hi) as Hlt by lia.
    pose proof (mid_bounds _ _ Hlt) as Hmid.
    destruct (pushDown_rep _ _ _ _ _ _ Hrep Hlt)
      as (h' & -> & Hl1 & Hr1 & Htag1 & _ & Hrl & Hrr).
    rewrite (midpoint_eq _ _ lo hi) by auto.
    destruct (sons_ne x Hx) as (?&?&?).
    set (t1 := pushDown x t) in *. set (mid := (lo + hi) `div` 2) in *.
    assert (∃ t2, (if l <=? mid then zeroRange fuel (lson x) l r t1
                   else Some t1) = Some t2 ∧
              rep t2 (azero a l r) h' (lson x) lo mid ∧
              (∀ y, ¬ below (lson x) y → t2 !!! y = t1 !!! y))
      as (t2 & -> & Hrep2 & Hf2).
    { destruct (Z.leb_spec l mid).
      - apply IH; auto; lia.
      - exists t1. split; [done|]. split; [|done].
        eapply rep_ext; [done|]. intros p Hp. unfold azero.
        case_decide; [lia|done]. }
    simpl.
    assert (∃ t3, (if mid <? r then zeroRange fuel (rson x) l r t2
                   else Some t2) = Some t3 ∧
              rep t3 (azero a l r) h' (rson x) (mid + 1) hi ∧
              (∀ y, ¬ below (rson x) y → t3 !!! y = t2 !!! y))
      as (t3 & -> & Hrep3 & Hf3).
    { assert (rep t2 a h' (rson x) (mid + 1) hi) as Hrr2.
      { eapply rep_frame; [done|]. intros y Hy. apply Hf2.
        by apply not_below_rson_lson. }
      destruct (Z.ltb_spec mid r).
      - apply IH; auto; lia.
      - exists t2. split; [done|]. split; [|done].
        eapply rep_ext; [done|]. intros p Hp. unfold azero.
        case_decide; [lia|done]. }
    simpl. eexists; split; [done|]. split.
    + apply rep_pushUp; auto;
        rewrite ?Hf3, ?Hf2
          by (by apply not_below_rson_self || by apply not_below_lson_self);
        auto.
      eapply rep_frame; [done|]. intros y Hy. apply Hf3.
      by apply not_below_lson_rson.
    + intros y Hy.
      rewrite pushUp_frame, Hf3, Hf2 by eauto using below_lson, below_rson.
      by apply pushDown_frame.
Qed.

(** ** [queryRange] reads a range sum and leaves the abstract array alone *)

Lemma queryRange_spec fuel : ∀ t a h x lo hi l r,
  rep t a h x lo hi → (h < fuel)%nat → l ≤ hi → lo ≤ r →
  (∀ p, lo ≤ p ≤ hi → l ≤ p ≤ r → 0 ≤ a p < kMod) →
  ∃ t', queryRange fuel x l r t =
          Some (asumRange a (Z.max l lo) (Z.min r hi), t') ∧
    rep t' a h x lo hi ∧
    Node.sum (t' !!! x) = Node.sum (t !!! x) ∧
    (∀ y, ¬ below x y → t' !!! y = t !!! y).
Proof.
  induction fuel as [|fuel IH]; intros t a h x lo hi l r Hrep Hh Hlhi Hlor Hin;
    [lia|].
  destruct (rep_range _ _ _ _ _ _ Hrep) as (Hx & Hlo & Hle & Hhi & Hl & Hr).
  simpl. rewrite Hl, Hr, covered_decide. case_bool_decide as Hc.
  - exists t. split; [|done].
    rewrite (node_sum_rep _ _ _ _ _ _ Hrep) by (intros; apply Hin; lia).
    by replace (Z.max l lo) with lo by lia; replace (Z.min r hi) with hi by lia.
  - assert (lo < hi) as Hlt by lia.
    pose proof (mid_bounds _ _ Hlt) as Hmid.
    destruct (pushDown_rep _ _ _ _ _ _ Hrep Hlt)
      as (h' & -> & Hl1 & Hr1 & Htag1 & Hsum1 & Hrl & Hrr).
    rewrite (midpoint_eq _ _ lo hi) by auto.
    destruct (sons_ne x Hx) as (?&?&?).
    assert (Node.sum (pushDown x t !!! x) = Node.sum (t !!! x)) as Hsx.
    { by rewrite lookup_pushDown_self. }
    set (t1 := pushDown x t) in *. set (mid := (lo + hi) `div` 2) in *.
    assert (∃ t2,
      (if l <=? mid
       then '(q, t) ← queryRange fuel (lson x) l r t1;
            Some (Z.rem (iadd 0 q) kMod, t)
       else Some (0, t1)) = Some (asumRange a (Z.max l lo) (Z.min r mid), t2) ∧
      rep t2 a h' (lson x) lo mid ∧
      Node.sum (t2 !!! lson x) = Node.sum (t1 !!! lson x) ∧
      (∀ y, ¬ below (lson x) y → t2 !!! y = t1 !!! y))
      as (t2 & -> & Hrep2 & Hs2 & Hf2).
    { destruct (Z.leb_spec l mid).
      - destruct (IH t1 a h' (lson x) lo mid l r) as (t2 & -> & ?);
          [auto; try lia..|].
        { intros; apply Hin; lia. }
        exists t2. split; [|done]. simpl.
        pose proof (asumRange_bounds a (Z.max l lo) (Z.min r mid)).
        rewrite addmod_kMod by (done || by unfold kMod).
        by rewrite Z.add_0_l, Z.mod_small.
      - exists t1. split; [|done].
        unfold asumRange. by rewrite arange_empty by lia. }
    simpl.
    assert (∃ t3,
      (if mid <? r
       then '(q, t) ← queryRange fuel (rson x) l r t2;
            Some (Z.rem (iadd (asumRange a (Z.max l lo) (Z.min r mid)) q) kMod, t)
       else Some (asumRange a (Z.max l lo) (Z.min r mid), t2))
        = Some (asumRange a (Z.max l lo) (Z.min r hi), t3) ∧
      rep t3 a h' (rson x) (mid + 1) hi ∧
      Node.sum (t3 !!! rson x) = Node.sum (t2 !!! rson x) ∧
      (∀ y, ¬ below (rson x) y → t3 !!! y = t2 !!! y))
      as (t3 & -> & Hrep3 & Hs3 & Hf3).
    { assert (rep t2 a h' (rson x) (mid + 1) hi) as Hrr2.
      { eapply rep_frame; [done|]. intros y Hy. apply Hf2.
        by apply not_below_rson_lson. }
      assert (arange a (Z.max l lo) (Z.min r hi) =
              arange a (Z.max l lo) (Z.min r mid)
              + arange a (Z.max l (mid + 1)) (Z.min r hi)) as Hsplit.
      { rewrite (arange_split_at a (Z.max l lo) (Z.min r hi) mid).
        f_equal; f_equal; lia. }
      destruct (Z.ltb_spec mid r).
      - destruct (IH t2 a h' (rson x) (mid + 1) hi l r) as (t3 & -> & ?);
          [auto; try lia..|].
        { intros; apply Hin; lia. }
        exists t3. split; [|done]. simpl.
        rewrite addmod_kMod by apply asumRange_bounds.
        unfold asumRange. rewrite <- Z.add_mod by done. by rewrite Hsplit.
      - exists t2. split; [|done].
        unfold asumRange. rewrite Hsplit.
        by rewrite (arange_empty a (Z.max l (mid + 1))), Z.add_0_r by lia. }
    simpl. exists t3. split; [done|].
    assert (t3 !!! x = t1 !!! x) as Hx3.
    { rewrite Hf3, Hf2;
        by (done || apply not_below_rson_self || apply not_below_lson_self). }
    assert (t3 !!! lson x = t2 !!! lson x) as Hl3.
    { apply Hf3, not_below_lson_rson; [done|apply below_refl]. }
    assert (t2 !!! rson x = t1 !!! rson x) as Hr2.
    { apply Hf2, not_below_rson_lson; [done|apply below_refl]. }
    split; [|split].
    + apply rep_node; auto; rewrite ?Hx3; auto.
      * by rewrite Hl3, Hs2, Hs3, Hr2.
      * eapply rep_frame; [done|]. intros y Hy. apply Hf3.
        by apply not_below_lson_rson.
    + by rewrite Hx3.
    + intros y Hy.
      rewrite Hf3, Hf2 by eauto using below_lson, below_rson.
      by apply pushDown_frame.
Qed.

(** The query the driver issues when the last interval ends at the last
    column: nothing lies right of the tree's range. *)
Lemma queryRange_right_of fuel : ∀ t a h x lo hi l r,
  rep t a h x lo hi → (h < fuel)%nat → hi < l → r ≤ hi →
  ∃ t', queryRange fuel x l r t = Some (0, t') ∧
    rep t' a h x lo hi ∧
    Node.sum (t' !!! x) = Node.sum (t !!! x) ∧
    (∀ y, ¬ below x y → t' !!! y = t !!! y).
Proof.
  induction fuel as [|fuel IH]; intros t a h x lo hi l r Hrep Hh Hl' Hr';
    [lia|].
  destruct (rep_range _ _ _ _ _ _ Hrep) as (Hx & Hlo & Hle & Hhi & Hl & Hr).
  simpl. rewrite Hl, Hr, covered_decide. case_bool_decide as Hc; [lia|].
  destruct (sons_ne x Hx) as (?&?&?).
  assert (Node.sum (pushDown x t !!! x) = Node.sum (t !!! x)) as Hsx.
  { by rewrite lookup_pushDown_self. }
  assert (midpoint x (pushDown x t) = (lo + hi) `div` 2) as ->.
  { apply midpoint_eq; auto; by rewrite lookup_pushDown_self. }
  destruct (decide (lo = hi)) as [->|Hne].
  - (* a leaf: both descents are skipped *)
    replace ((hi + hi) `div` 2) with hi
      by (replace (hi + hi) with (hi * 2) by lia; by rewrite Z.div_mul).
    destruct (Z.leb_spec l hi); [lia|]. destruct (Z.ltb_spec hi r); [lia|].
    simpl. eexists; split; [done|]. split; [|split; [done|]].
    + inversion Hrep; subst; try lia.
      apply rep_leaf; auto; by rewrite lookup_pushDown_self.
    + intros y Hy. by apply pushDown_frame.
  - assert (lo < hi) as Hlt by lia.
    pose proof (mid_bounds _ _ Hlt) as Hmid.
    destruct (pushDown_rep _ _ _ _ _ _ Hrep Hlt)
      as (h' & -> & Hl1 & Hr1 & Htag1 & Hsum1 & Hrl & Hrr).
    set (t1 := pushDown x t) in *. set (mid := (lo + hi) `div` 2) in *.
    destruct (Z.leb_spec l mid); [lia|]. simpl.
    assert (∃ t3,
      (if mid <? r
       then '(q, t) ← queryRange fuel (rson x) l r t1;
            Some (Z.rem (iadd 0 q) kMod, t)
       else Some (0, t1)) = Some (0, t3) ∧
      rep t3 a h' (rson x) (mid + 1) hi ∧
      Node.sum (t3 !!! rson x) = Node.sum (t1 !!! rson x) ∧
      (∀ y, ¬ below (rson x) y → t3 !!! y = t1 !!! y))
      as (t3 & -> & Hrep3 & Hs3 & Hf3).
    { destruct (Z.ltb_spec mid r).
      - destruct (IH t1 a h' (rson x) (mid + 1) hi l r) as (t3 & -> & ?);
          [auto; lia..|].
        by exists t3.
      - by exists t1. }
    simpl. exists t3. split; [done|].
    assert (t3 !!! x = t1 !!! x) as Hx3.
    { by apply Hf3, not_below_rson_self. }
    assert (t3 !!! lson x = t1 !!! lson x) as Hl3.
    { apply Hf3, not_below_lson_rson; [done|apply below_refl]. }
    split; [|split].
    + apply rep_node; auto; rewrite ?Hx3; auto.
      * by rewrite Hl3, Hs3.
      * eapply rep_frame; [done|]. intros y Hy. apply Hf3.
        by apply not_below_lson_rson.
    + by rewrite Hx3.
    + intros y Hy. rewrite Hf3 by eauto using below_rson.
      by apply pushDown_frame.
Qed.

(** ** The order on intervals and the extremal lookups *)

#[global] Instance pair_le_total : Total pair_le.
Proof. intros [??] [??]. unfold pair_le. simpl. lia. Qed.

#[global] Instance pair_le_trans : Transitive pair_le.
Proof. intros [??] [??] [??]. unfold pair_le. simpl. lia. Qed.

#[global] Instance pair_le_antisymm : AntiSymm (=) pair_le.
Proof.
  intros [??] [??]. unfold pair_le. simpl. intros ??. f_equal; lia.
Qed.

Lemma foldr_maxStep l :
  match foldr maxStep None l with
  | None => l = []
  | Some p => p ∈ l ∧ ∀ q, q ∈ l → pair_le q p
  end.
Proof.
  induction l as [|x l IH]; [done|]. simpl.
  destruct (foldr maxStep None l) as [m|]; simpl.
  - destruct IH as [Hm Hmax]. case_decide as Hlt.
    + split; [left|]. intros q [->|Hq]%elem_of_cons.
      * destruct x. unfold pair_le. simpl. lia.
      * specialize (Hmax q Hq). destruct q, m, x.
        unfold pair_le, pair_lt in *. simpl in *. lia.
    + split; [by right|]. intros q [->|Hq]%elem_of_cons; [|by auto].
      destruct m, x. unfold pair_le, pair_lt in *. simpl in *. lia.
  - subst. split; [left|]. intros q ->%list_elem_of_singleton.
    destruct x. unfold pair_le. simpl. lia.
Qed.

Lemma setMax_spec (s : gset interval) :
  match setMax s with
  | None => s = ∅
  | Some p => p ∈ s ∧ ∀ q, q ∈ s → pair_le q p
  end.
Proof.
  unfold setMax. pose proof (foldr_maxStep (elements s)) as H.
  destruct (foldr maxStep None (elements s)).
  - destruct H as [Hp Hmax]. split; [by apply elem_of_elements|].
    intros q Hq. by apply Hmax, elem_of_elements.
  - by apply elements_empty_iff, leibniz_equiv in H.
Qed.

Lemma lowerBoundPrev_spec (key : interval) (s : gset interval) :
  match lowerBoundPrev key s with
  | None => ∀ q, q ∈ s → ¬ pair_lt q key
  | Some p => p ∈ s ∧ pair_lt p key ∧ ∀ q, q ∈ s → pair_lt q key → pair_le q p
  end.
Proof.
  unfold lowerBoundPrev.
  pose proof (setMax_spec (filter (λ p, pair_lt p key) s)) as H.
  destruct (setMax _) as [p|].
  - destruct H as [[Hlt Hp]%elem_of_filter Hmax]. repeat split; auto.
    intros q Hq Hqlt. apply Hmax, elem_of_filter. done.
  - intros q Hq Hlt. assert (q ∈ filter (λ p, pair_lt p key) s) as Hin.
    { by apply elem_of_filter. }
    rewrite H in Hin. set_solver.
Qed.

(** ** Sorting a bucket *)

Lemma sortDesc_perm l l' : l ≡ₚ l' → sortDesc l = sortDesc l'.
Proof.
  intros Hperm. unfold sortDesc. f_equal.
  apply (Sorted_unique pair_le); try apply Sorted_merge_sort; try apply _.
  by rewrite !merge_sort_Permutation.
Qed.

Lemma elem_of_sortDesc p l : p ∈ sortDesc l ↔ p ∈ l.
Proof.
  unfold sortDesc. by rewrite elem_of_reverse, merge_sort_Permutation.
Qed.

(** ** The per-row buckets *)

Lemma lookup_push_back i p (b : buckets) j :
  push_back i p b !!! j = if decide (i = j) then (b !!! i) ++ [p] else b !!! j.
Proof. unfold push_back. apply lookup_total_insert. Qed.

Lemma readRects_from rects : ∀ (adds dels : buckets) i,
  let res :=
    foldl (λ '(adds, dels) o,
             (push_back (Rect.x1 o) (Rect.cols o) adds,
              push_back (iadd (Rect.x2 o) 1) (Rect.cols o) dels))
          (adds, dels) rects in
  res.1 !!! i = adds !!! i ++ (Rect.cols <$> filter (λ o, Rect.x1 o = i) rects) ∧
  res.2 !!! i =
    dels !!! i ++ (Rect.cols <$> filter (λ o, iadd (Rect.x2 o) 1 = i) rects).
Proof.
  induction rects as [|o rects IH]; intros adds dels i; simpl.
  - by rewrite !app_nil_r.
  - destruct (IH (push_back (Rect.x1 o) (Rect.cols o) adds)
                 (push_back (iadd (Rect.x2 o) 1) (Rect.cols o) dels) i)
      as [-> ->].
    rewrite !lookup_push_back, !filter_cons.
    split; case_decide; subst; simpl; by rewrite <- ?app_assoc.
Qed.

Lemma addsAt_filter rects i :
  addsAt rects i = Rect.cols <$> filter (λ o, Rect.x1 o = i) rects.
Proof.
  unfold addsAt, readRects.
  destruct (readRects_from rects ∅ ∅ i) as [-> _].
  by rewrite lookup_total_empty.
Qed.

Lemma delsAt_filter rects i :
  delsAt rects i = Rect.cols <$> filter (λ o, iadd (Rect.x2 o) 1 = i) rects.
Proof.
  unfold delsAt, readRects.
  destruct (readRects_from rects ∅ ∅ i) as [_ ->].
  by rewrite lookup_total_empty.
Qed.

Lemma elem_of_addsAt rects i p :
  p ∈ addsAt rects i ↔ ∃ o, o ∈ rects ∧ Rect.x1 o = i ∧ Rect.cols o = p.
Proof.
  rewrite addsAt_filter, list_elem_of_fmap. split.
  - intros (o & -> & [??]%list_elem_of_filter). eauto.
  - intros (o & ? & ? & <-). exists o. split; [done|].
    by apply list_elem_of_filter.
Qed.

Lemma elem_of_delsAt rects i p :
  p ∈ delsAt rects i ↔
  ∃ o, o ∈ rects ∧ iadd (Rect.x2 o) 1 = i ∧ Rect.cols o = p.
Proof.
  rewrite delsAt_filter, list_elem_of_fmap. split.
  - intros (o & -> & [??]%list_elem_of_filter). eauto.
  - intros (o & ? & ? & <-). exists o. split; [done|].
    by apply list_elem_of_filter.
Qed.

Lemma addsAt_perm rects rects' i :
  rects ≡ₚ rects' → addsAt rects i ≡ₚ addsAt rects' i.
Proof. intros Hp. rewrite !addsAt_filter. by rewrite Hp. Qed.

Lemma delsAt_perm rects rects' i :
  rects ≡ₚ rects' → delsAt rects i ≡ₚ delsAt rects' i.
Proof. intros Hp. rewrite !delsAt_filter. by rewrite Hp. Qed.

(** ** Loops *)

Lemma forEach_app {A S} (body : A → S → option S) l1 l2 s :
  forEach body (l1 ++ l2) s = s' ← forEach body l1 s; forEach body l2 s'.
Proof.
  revert s. induction l1 as [|v l1 IH]; intros s; simpl; [done|].
  destruct (body v s); simpl; auto.
Qed.

Lemma forEach_inv {A S} (body : A → S → option S) (P : S → Prop) l s :
  P s →
  (∀ v s, v ∈ l → P s → ∃ s', body v s = Some s' ∧ P s') →
  ∃ s', forEach body l s = Some s' ∧ P s'.
Proof.
  revert s. induction l as [|v l IH]; intros s Hs Hbody; simpl; [eauto|].
  destruct (Hbody v s) as (s1 & -> & Hs1); [left|done|]. simpl.
  apply IH; [done|]. intros w s' Hw. apply Hbody. by right.
Qed.

Lemma foldl_eraseStep l : ∀ st,
  foldl (λ st segRange, eraseStep segRange st) st l =
    mkState (seg st) (activeSegs st ∖ list_to_set l).
Proof.
  induction l as [|p l IH]; intros [t s]; simpl.
  - f_equal. set_solver.
  - rewrite IH. simpl. f_equal. set_solver.
Qed.

Lemma foldl_insert l : ∀ s : gset interval,
  foldl (λ s segRange, {[segRange]} ∪ s) s l = list_to_set l ∪ s.
Proof.
  induction l as [|p l IH]; intros s; simpl; [set_solver|].
  rewrite IH. set_solver.
Qed.

(** ** One row of the sweep against the invariant *)

Section RowStep.
Context (fuel : nat) (mCols : Z).

Lemma Inv_mCols st a : Inv fuel mCols st a → 1 ≤ mCols < 2 ^ 30.
Proof. intros [(h & _ & Hrep%rep_range) _]. lia. Qed.

Lemma boundaryStep_spec p st a :
  Inv fuel mCols st a → 1 ≤ p.1 → p.1 ≤ p.2 → p.2 ≤ mCols →
  ∃ st' a', boundaryStep fuel mCols p st = Some st' ∧
    Inv fuel mCols st' a' ∧ activeSegs st' = activeSegs st ∧ a' 1 = a 1.
Proof.
  intros HInv Hp1 Hp12 Hp2. pose proof (Inv_mCols _ _ HInv) as Hm.
  destruct HInv as ((h & Hh & Hrep) & Hin & [Hsent Hset] & Hzero).
  destruct p as [x y]; simpl in *. unfold boundaryStep; simpl.
  destruct (Z.eqb_spec y mCols) as [->|Hy].
  { exists st, a. split; [done|]. split; [|done]. split; [by exists h|done]. }
  rewrite !iadd_small by lia.
  pose proof (lowerBoundPrev_spec (y + 2, 0) (activeSegs st)) as Hpr.
  destruct (lowerBoundPrev _ _) as [pr|]; last first.
  { destruct (Hpr _ Hsent). left. simpl. lia. }
  destruct Hpr as (Hprin & Hprlt & Hprmax). simpl.
  assert (∃ ans t1,
    (if pr.2 <=? y
     then queryRange fuel 1 (iadd pr.2 1) (y + 1) (seg st)
     else Some (0, seg st)) = Some (ans, t1) ∧
    rep t1 a h 1 1 mCols ∧ 0 ≤ ans < kMod ∧
    (∀ q, q ∈ activeSegs st → q.1 ≤ y + 1 ≤ q.2 → ans = 0))
    as (ans & t1 & -> & Hrep1 & Hans & Hans0).
  { destruct (Hset _ Hprin) as [->|(Hpr1 & Hpr12 & Hpr2)]; simpl.
    - (* the sentinel is the predecessor *)
      destruct (Z.leb_spec 0 y); [|lia]. rewrite iadd_small by lia.
      destruct (queryRange_spec fuel (seg st) a h 1 1 mCols (0 + 1) (y + 1))
        as (t1 & -> & Hrep1 & _); auto; try lia.
      do 2 eexists. split; [done|]. split; [done|].
      split; [apply asumRange_bounds|].
      intros q Hq Hqy. specialize (Hprmax q Hq).
      destruct (Hset _ Hq) as [->|?]; [simpl in *; lia|].
      destruct q as [q1 q2]. unfold pair_lt, pair_le in Hprmax.
      simpl in *. lia.
    - destruct (Z.leb_spec pr.2 y) as [Hle|Hgt].
      + rewrite iadd_small by lia.
        destruct (queryRange_spec fuel (seg st) a h 1 1 mCols (pr.2 + 1) (y + 1))
          as (t1 & -> & Hrep1 & _); auto; try lia.
        do 2 eexists. split; [done|]. split; [done|].
        split; [apply asumRange_bounds|].
        intros q Hq Hqy. specialize (Hprmax q Hq).
        destruct q as [q1 q2], pr as [pr1 pr2].
        unfold pair_lt, pair_le in Hprmax. simpl in *.
        unfold asumRange. rewrite arange_zero; [done|].
        intros c Hc. apply (Hzero (q1, q2)); simpl; [done|lia..].
      + do 2 eexists. split; [done|]. split; [done|]. split; [by unfold kMod|].
        done. }
  simpl.
  destruct (updatePoint_spec fuel t1 a h 1 1 mCols (y + 1) ans)
    as (t2 & -> & Hrep2 & _); auto; try lia.
  simpl. exists (mkState t2 (activeSegs st)), (aset a (y + 1) ans).
  split; [done|]. split; [|split; [done|]].
  - split; [by eauto|]. split; [|split; [done|]].
    + intros c. unfold aset. case_decide; auto.
    + intros q c Hq Hc Hc2. simpl in Hq. unfold aset. case_decide; subst.
      * by eapply Hans0.
      * by eapply Hzero.
  - unfold aset. case_decide; [lia|done].
Qed.

Lemma activateStep_spec p st a :
  Inv fuel mCols st a → 1 ≤ p.1 → p.1 ≤ p.2 → p.2 ≤ mCols →
  ∃ st', activateStep fuel p st = Some st' ∧
    Inv fuel mCols st' (azero a p.1 p.2) ∧
    activeSegs st' = {[p]} ∪ activeSegs st.
Proof.
  intros HInv Hp1 Hp12 Hp2. pose proof (Inv_mCols _ _ HInv) as Hm.
  destruct HInv as ((h & Hh & Hrep) & Hin & [Hsent Hset] & Hzero).
  unfold activateStep.
  destruct (zeroRange_spec fuel (seg st) a h 1 1 mCols p.1 p.2)
    as (t1 & -> & Hrep1 & _); auto; try lia.
  simpl. eexists. split; [done|]. split; [|done].
  split; [by eauto|]. split; [|split; [split|]]; simpl.
  - intros c. unfold azero. case_decide; [by unfold kMod|done].
  - set_solver.
  - intros q [->%elem_of_singleton|Hq]%elem_of_union; auto.
  - intros q c [->%elem_of_singleton|Hq]%elem_of_union Hc Hc2;
      unfold azero; case_decide; try done; try lia.
    by eapply Hzero.
Qed.

Lemma boundary_loop l : ∀ st a,
  Inv fuel mCols st a →
  (∀ p, p ∈ l → 1 ≤ p.1 ∧ p.1 ≤ p.2 ∧ p.2 ≤ mCols) →
  ∃ st' a', forEach (boundaryStep fuel mCols) l st = Some st' ∧
    Inv fuel mCols st' a' ∧ activeSegs st' = activeSegs st ∧ a' 1 = a 1.
Proof.
  induction l as [|p l IH]; intros st a HInv Hl; simpl.
  - by exists st, a.
  - destruct (Hl p) as (?&?&?); [left|].
    destruct (boundaryStep_spec p st a)
      as (st1 & a1 & -> & HInv1 & Hs1 & Ha1); auto.
    simpl. destruct (IH st1 a1 HInv1) as (st' & a' & -> & HInv' & Hs' & Ha').
    { intros q Hq. apply Hl. by right. }
    exists st', a'. split; [done|]. split; [done|]. split; congruence.
Qed.

Lemma erase_Inv l st a :
  Inv fuel mCols st a → (∀ p, p ∈ l → 1 ≤ p.1) →
  Inv fuel mCols (foldl (λ st segRange, eraseStep segRange st) st l) a.
Proof.
  intros (Hrep & Hin & [Hsent Hset] & Hzero) Hl. rewrite foldl_eraseStep.
  split; [done|]. split; [done|]. simpl. split; [split|].
  - apply elem_of_difference. split; [done|].
    intros Hin0%elem_of_list_to_set. apply Hl in Hin0. simpl in *. lia.
  - intros p Hp%elem_of_difference. apply Hset, Hp.
  - intros p c Hp%elem_of_difference. apply Hzero, Hp.
Qed.

Lemma activate_loop l : ∀ st a,
  Inv fuel mCols st a →
  (∀ p, p ∈ l → 1 ≤ p.1 ∧ p.1 ≤ p.2 ∧ p.2 ≤ mCols) →
  ∃ st' a', forEach (activateStep fuel) l st = Some st' ∧
    Inv fuel mCols st' a' ∧
    activeSegs st' = list_to_set l ∪ activeSegs st ∧
    (∀ c, a c = 0 → a' c = 0) ∧
    (∀ p, p ∈ l → p.1 = 1 → a' 1 = 0).
Proof.
  induction l as [|p l IH]; intros st a HInv Hl; simpl.
  - exists st, a. split; [done|]. split; [done|]. split; [set_solver|].
    split; [done|]. intros p Hp. by apply elem_of_nil in Hp.
  - destruct (Hl p) as (?&?&?); [left|].
    destruct (activateStep_spec p st a) as (st1 & -> & HInv1 & Hs1);
      auto.
    simpl. destruct (IH st1 _ HInv1) as (st' & a' & -> & HInv' & Hs' & Hz & Hz1).
    { intros q Hq. apply Hl. by right. }
    exists st', a'. split; [done|]. split; [done|]. split; [|split].
    + rewrite Hs', Hs1. set_solver.
    + intros c Ha. apply Hz. unfold azero. by case_decide.
    + intros q [->|Hq]%elem_of_cons Hq1; [|by eauto].
      apply Hz. unfold azero. case_decide; [done|lia].
Qed.

Lemma rowStepWith_spec order (addRanges delRanges : buckets) i st a :
  (∀ l p, p ∈ order l ↔ p ∈ l) →
  Inv fuel mCols st a →
  (∀ p, p ∈ addRanges !!! i → 1 ≤ p.1 ∧ p.1 ≤ p.2 ∧ p.2 ≤ mCols) →
  (∀ p, p ∈ delRanges !!! i → 1 ≤ p.1) →
  ∃ st' a', rowStepWith order fuel mCols addRanges delRanges i st = Some st' ∧
    Inv fuel mCols st' a' ∧
    activeSegs st' =
      (activeSegs st ∖ list_to_set (delRanges !!! i))
      ∪ list_to_set (addRanges !!! i) ∧
    (a 1 = 0 → a' 1 = 0) ∧
    (∀ p, p ∈ addRanges !!! i → p.1 = 1 → a' 1 = 0).
Proof.
  intros Hord HInv Hadds Hdels. unfold rowStepWith.
  assert (∀ p, p ∈ order (addRanges !!! i) →
               1 ≤ p.1 ∧ p.1 ≤ p.2 ∧ p.2 ≤ mCols) as Hadded.
  { intros p Hp. by apply Hadds, (proj1 (Hord _ _)). }
  destruct (boundary_loop _ st a HInv Hadded)
    as (st1 & a1 & -> & HInv1 & Hs1 & Ha1).
  simpl.
  destruct (activate_loop (order (addRanges !!! i))
              (foldl (λ st segRange, eraseStep segRange st) st1
                     (delRanges !!! i)) a1)
    as (st' & a' & -> & HInv' & Hs' & Hz & Hz1); auto using erase_Inv.
  exists st', a'. split; [done|]. split; [done|]. split; [|split].
  - rewrite Hs', foldl_eraseStep. simpl. rewrite Hs1.
    apply set_eq. intros p. rewrite !elem_of_union, !elem_of_list_to_set, Hord.
    tauto.
  - intros Ha. apply Hz. congruence.
  - intros p Hp. apply Hz1. by apply Hord.
Qed.

End RowStep.

(** ** Initialisation, the whole sweep and the final query *)

Lemma initState_spec fuel mCols (adds : buckets) :
  (20 < fuel)%nat → 1 ≤ mCols → mCols + 10 ≤ kMaxN →
  (∀ p, p ∈ adds !!! 1 → 1 ≤ p.1 ∧ p.1 ≤ p.2 ∧ p.2 ≤ mCols) →
  ∃ st, initState fuel mCols adds = Some st ∧
    Inv fuel mCols st (aset (λ _, 0) 1 1) ∧
    activeSegs st = list_to_set (adds !!! 1) ∪ {[ (0, 0) ]}.
Proof.
  intros Hfuel Hm1 Hm2 Hadds. unfold initState, kMaxN in *.
  destruct (buildTree_spec fuel 20 ∅ 1 1 mCols)
    as (t0 & -> & Hshape & _ & Hzero); [lia..|].
  simpl.
  assert (rep t0 (λ _, 0) 20 1 1 mCols) as Hrep0.
  { apply rep_of_shape_zero; [done|]. intros y.
    destruct (Hzero y) as [-> ->]. by rewrite lookup_total_empty. }
  destruct (updatePoint_spec fuel t0 (λ _, 0) 20 1 1 mCols 1 1)
    as (t1 & -> & Hrep1 & _); auto; try lia.
  simpl. eexists. split; [done|]. rewrite foldl_insert. split; [|done].
  split; [by exists 20%nat|]. simpl. split; [|split; [split|]].
  - intros p. unfold aset, kMod. case_decide; lia.
  - set_solver.
  - intros p [Hp%elem_of_list_to_set| ->%elem_of_singleton]%elem_of_union;
      auto.
  - intros p c _ _ Hc. unfold aset. case_decide; [lia|done].
Qed.

Lemma sweepWith_unfold order fuel mCols rects upTo :
  sweepWith order fuel mCols rects upTo =
    st ← initState fuel mCols (readRects rects).1;
    forEach (rowStepWith order fuel mCols (readRects rects).1 (readRects rects).2)
            (seqZ 2 (upTo - 1)) st.
Proof. unfold sweepWith. by destruct (readRects rects). Qed.

Lemma valid_addsAt nRows mCols rects i p :
  valid_input nRows mCols rects → p ∈ addsAt rects i →
  1 ≤ p.1 ∧ p.1 ≤ p.2 ∧ p.2 ≤ mCols.
Proof.
  intros (_&_&_&_&Hall) (o & Ho & _ & <-)%elem_of_addsAt.
  rewrite Forall_forall in Hall. destruct (Hall o Ho) as (?&?&?&?&?&?).
  simpl. auto.
Qed.

Lemma valid_delsAt nRows mCols rects i p :
  valid_input nRows mCols rects → p ∈ delsAt rects i → 1 ≤ p.1.
Proof.
  intros (_&_&_&_&Hall) (o & Ho & _ & <-)%elem_of_delsAt.
  rewrite Forall_forall in Hall. destruct (Hall o Ho) as (?&?&?&?&?&?).
  simpl. auto.
Qed.

Lemma sweepWith_spec order fuel nRows mCols rects :
  (∀ l p, p ∈ order l ↔ p ∈ l) →
  valid_input nRows mCols rects → (20 < fuel)%nat →
  ∀ n : nat,
  ∃ st a, sweepWith order fuel mCols rects (Z.of_nat n + 1) = Some st ∧
    Inv fuel mCols st a ∧
    activeSegs st = segsAfter rects n ∧
    (∀ o, o ∈ rects → 2 ≤ Rect.x1 o ≤ Z.of_nat n + 1 → Rect.y1 o = 1 →
          a 1 = 0).
Proof.
  intros Hord Hvalid Hfuel n. rewrite sweepWith_unfold.
  replace (Z.of_nat n + 1 - 1) with (Z.of_nat n) by lia.
  pose proof Hvalid as (Hn1 & Hn2 & Hm1 & Hm2 & Hall).
  destruct (initState_spec fuel mCols (readRects rects).1)
    as (st0 & -> & HInv0 & Hs0); auto.
  { intros p. by apply (valid_addsAt nRows mCols rects 1). }
  simpl. induction n as [|n IH].
  - exists st0, (aset (λ _, 0) 1 1). split; [done|]. split; [done|].
    split; [done|]. intros; lia.
  - destruct IH as (st & a & Hrun & HInv & Hs & Hcol).
    rewrite seqZ_S, forEach_app, Hrun. simpl.
    destruct (rowStepWith_spec fuel mCols order (readRects rects).1
                (readRects rects).2 (2 + Z.of_nat n) st a)
      as (st' & a' & -> & HInv' & Hs' & Hz & Hz1); auto.
    { intros p. by apply (valid_addsAt nRows mCols rects). }
    { intros p. by apply (valid_delsAt nRows mCols rects). }
    simpl. exists st', a'. split; [done|]. split; [done|]. split.
    + rewrite Hs', Hs. simpl. unfold addsAt, delsAt.
      by replace (Z.of_nat n + 2) with (2 + Z.of_nat n) by lia.
    + intros o Ho Hx Hy.
      destruct (decide (Rect.x1 o = 2 + Z.of_nat n)) as [Heq|Hne].
      * apply (Hz1 (Rect.cols o)); [|done].
        apply (elem_of_addsAt rects). eauto.
      * apply Hz. apply (Hcol o); auto. lia.
Qed.

Lemma finish_spec fuel mCols st a :
  Inv fuel mCols st a →
  ∃ it, setMax (activeSegs st) = Some it ∧ it ∈ activeSegs st ∧
    (∀ q, q ∈ activeSegs st → pair_le q it) ∧
    finish fuel mCols st = Some (asumRange a (it.2 + 1) mCols).
Proof.
  intros HInv. pose proof (Inv_mCols _ _ _ _ HInv) as Hm.
  destruct HInv as ((h & Hh & Hrep) & Hin & [Hsent Hset] & Hzero).
  unfold finish. pose proof (setMax_spec (activeSegs st)) as Hmax.
  destruct (setMax (activeSegs st)) as [it|]; [|set_solver].
  destruct Hmax as [Hit Hmax]. exists it. do 3 (split; [done|]). simpl.
  assert (0 ≤ it.2 ≤ mCols) as Hit2.
  { destruct (Hset _ Hit) as [->|?]; simpl; lia. }
  rewrite iadd_small by lia.
  destruct (decide (it.2 < mCols)).
  - destruct (queryRange_spec fuel (seg st) a h 1 1 mCols (it.2 + 1) mCols)
      as (t1 & -> & _); auto; try lia.
    simpl. do 2 f_equal; lia.
  - destruct (queryRange_right_of fuel (seg st) a h 1 1 mCols (it.2 + 1) mCols)
      as (t1 & -> & _); auto; try lia.
    simpl. unfold asumRange. by rewrite arange_empty by lia.
Qed.

Lemma mainWith_unfold order fuel nRows mCols rects :
  mainWith order fuel nRows mCols rects =
    st ← sweepWith order fuel mCols rects nRows; finish fuel mCols st.
Proof. done. Qed.

(** ** The active set, row by row *)

Lemma compatible_sym o1 o2 : compatible o1 o2 → compatible o2 o1.
Proof. unfold compatible. intros H Heq. destruct H; auto. Qed.

Lemma distinctSpans_elem rects o1 o2 :
  distinctSpans rects → o1 ∈ rects → o2 ∈ rects → o1 ≠ o2 → compatible o1 o2.
Proof.
  induction rects as [|o rects IH]; simpl.
  - intros _ H. by apply elem_of_nil in H.
  - intros [Hall Hrest] [->|H1]%elem_of_cons [->|H2]%elem_of_cons Hne.
    + done.
    + rewrite Forall_forall in Hall. by apply Hall.
    + rewrite Forall_forall in Hall. by apply compatible_sym, Hall.
    + by apply IH.
Qed.

Lemma valid_x2_succ nRows mCols rects o :
  valid_input nRows mCols rects → o ∈ rects →
  iadd (Rect.x2 o) 1 = Rect.x2 o + 1 ∧ valid_rect nRows mCols o.
Proof.
  intros (?&?&?&?&Hall) Ho. rewrite Forall_forall in Hall.
  pose proof (Hall o Ho) as Hv. split; [|done].
  destruct Hv as (?&?&?&?&?&?). unfold kMaxN in *.
  apply iadd_small. lia.
Qed.

Lemma segsAfter_spec nRows mCols rects :
  valid_input nRows mCols rects → distinctSpans rects →
  ∀ (n : nat) p,
  p ∈ segsAfter rects n ↔
  p = (0, 0) ∨ ∃ o, o ∈ rects ∧ Rect.cols o = p ∧ spans o (Z.of_nat n + 1).
Proof.
  intros Hvalid Hdistinct n. induction n as [|n IH]; intros p; simpl.
  - rewrite elem_of_union, elem_of_list_to_set, elem_of_singleton,
      elem_of_addsAt.
    split.
    + intros [(o & Ho & Hx & Hc)|?]; [right|by left].
      destruct (valid_x2_succ _ _ _ o Hvalid Ho) as [_ (?&?&?&?&?&?)].
      exists o. unfold spans. repeat split; auto; lia.
    + intros [?|(o & Ho & Hc & Hs)]; [by right|left].
      destruct (valid_x2_succ _ _ _ o Hvalid Ho) as [_ (?&?&?&?&?&?)].
      exists o. unfold spans in Hs. repeat split; auto. lia.
  - rewrite elem_of_union, elem_of_difference, !elem_of_list_to_set, IH,
      elem_of_addsAt, elem_of_delsAt.
    split.
    + intros [[[->|(o & Ho & Hc & Hs)] Hdel]|(o & Ho & Hx & Hc)].
      * by left.
      * right. exists o. split; [done|]. split; [done|].
        destruct (valid_x2_succ _ _ _ o Hvalid Ho) as [Hsucc _].
        unfold spans in *.
        destruct (decide (Rect.x2 o = Z.of_nat n + 1)) as [Heq|Hne]; [|lia].
        destruct Hdel. exists o. rewrite Hsucc. repeat split; auto. lia.
      * right. exists o.
        destruct (valid_x2_succ _ _ _ o Hvalid Ho) as [_ (?&?&?&?&?&?)].
        unfold spans. repeat split; auto; lia.
    + intros [->|(o & Ho & Hc & Hs)].
      * left. split; [by left|].
        intros (o & Ho & _ & Hc).
        destruct (valid_x2_succ _ _ _ o Hvalid Ho) as [_ (?&?&?&?&?&?)].
        unfold Rect.cols in Hc. simplify_eq. lia.
      * unfold spans in Hs.
        destruct (decide (Rect.x1 o = Z.of_nat n + 2)) as [Heq|Hne].
        { right. eauto. }
        left. split.
        { right. exists o. unfold spans. repeat split; auto; lia. }
        intros (o' & Ho' & Hx' & Hc').
        destruct (valid_x2_succ _ _ _ o' Hvalid Ho') as [Hsucc (?&?&?&?&?&?)].
        rewrite Hsucc in Hx'.
        assert (o ≠ o') as Hoo by (intros ->; lia).
        destruct (distinctSpans_elem rects o o' Hdistinct Ho Ho' Hoo); [congruence|lia..].
Qed.

Lemma NoDup_delsAt nRows mCols rects i :
  valid_input nRows mCols rects → distinctSpans rects → NoDup (delsAt rects i).
Proof.
  intros Hvalid Hdistinct. rewrite delsAt_filter.
  assert (∀ o, o ∈ rects →
    iadd (Rect.x2 o) 1 = Rect.x2 o + 1 ∧ Rect.x1 o ≤ Rect.x2 o) as Hv.
  { intros o Ho.
    destruct (valid_x2_succ _ _ _ o Hvalid Ho) as [? (?&?&?&?&?&?)]. auto. }
  clear Hvalid. induction rects as [|o rects IH]; simpl; [constructor|].
  destruct Hdistinct as [Hall Hrest]. rewrite filter_cons.
  assert (NoDup (Rect.cols <$>
            filter (λ o, iadd (Rect.x2 o) 1 = i) rects)) as Hnd.
  { apply IH; [done|]. intros o' Ho'. apply Hv. by right. }
  case_decide as Hi; [|done]. simpl. constructor; [|done].
  intros (o' & Hc & [Hi' Ho']%list_elem_of_filter)%list_elem_of_fmap.
  rewrite Forall_forall in Hall. specialize (Hall o' Ho' Hc).
  destruct (Hv o) as [Hs1 ?]; [left|].
  destruct (Hv o') as [Hs2 ?]; [by right|]. lia.
Qed.

Lemma erasesPresent_intro (s : gset interval) l :
  NoDup l → (∀ p, p ∈ l → p ∈ s) → erasesPresent s l.
Proof.
  revert s. induction l as [|p l IH]; intros s Hnd Hin; simpl; [done|].
  apply NoDup_cons in Hnd as [Hp Hnd]. split; [apply Hin; left|].
  apply IH; [done|]. intros q Hq. apply elem_of_difference. split.
  - apply Hin. by right.
  - intros ->%elem_of_singleton. done.
Qed.

(** Closed side conditions on concrete inputs, by evaluation. *)
Ltac concrete_input := apply (bool_decide_unpack _); by vm_compute.

(** ** Results on the whole program *)

Lemma forEach_ext {A S} (body body' : A → S → option S) l s :
  (∀ v s, body v s = body' v s) → forEach body l s = forEach body' l s.
Proof.
  intros Hext. revert s. induction l as [|v l IH]; intros s; simpl; [done|].
  rewrite Hext. destruct (body' v s); simpl; auto.
Qed.

Lemma forEach_skip {A S} (body : A → S → option S) l s :
  (∀ v, body v s = Some s) → forEach body l s = Some s.
Proof.
  intros Hid. induction l as [|v l IH]; simpl; [done|]. by rewrite Hid.
Qed.

Lemma main_total order fuel nRows mCols rects :
  (∀ l p, p ∈ order l ↔ p ∈ l) →
  (20 < fuel)%nat → valid_input nRows mCols rects →
  is_Some (mainWith order fuel nRows mCols rects).
Proof.
  intros Hord Hfuel Hvalid. rewrite mainWith_unfold.
  destruct (sweepWith_spec order fuel nRows mCols rects Hord Hvalid Hfuel
              (Z.to_nat (nRows - 1))) as (st & a & Hrun & HInv & _).
  destruct Hvalid as (?&_).
  replace (Z.of_nat (Z.to_nat (nRows - 1)) + 1) with nRows in Hrun by lia.
  rewrite Hrun. simpl.
  destruct (finish_spec fuel mCols st a HInv) as (it & _ & _ & _ & ->). eauto.
Qed.

(** The scenario of section 8: a 3 x 3 grid with the cell (2, 2) blocked. *)
Example main_blocked_centre : main 21 3 3 [Rect.mk 2 2 2 2] = Some 2.
Proof. by vm_compute. Qed.

Example main_three_obstacles :
  main 21 5 5 [Rect.mk 2 2 2 3; Rect.mk 4 2 5 2; Rect.mk 4 4 4 4] = Some 3.
Proof. by vm_compute. Qed.

(** C1, as the code has it.  With no rectangle the engine answers 1 for
    every grid: the only boundary value ever written is the base case at
    column 1, and the final query sums the whole row. *)
Theorem main_no_obstacles fuel nRows mCols :
  (20 < fuel)%nat → valid_input nRows mCols [] →
  main fuel nRows mCols [] = Some 1.
Proof.
  intros Hfuel Hvalid. unfold main. rewrite mainWith_unfold, sweepWith_unfold.
  pose proof Hvalid as (Hn1 & Hn2 & Hm1 & Hm2 & _).
  change (readRects []) with ((∅, ∅) : buckets * buckets). simpl.
  destruct (initState_spec fuel mCols ∅) as (st & -> & HInv & Hs); auto.
  { intros p. rewrite lookup_total_empty. intros H. by apply elem_of_nil in H. }
  simpl. rewrite forEach_skip.
  2:{ intros i. unfold rowStepWith. by rewrite !lookup_total_empty. }
  simpl.
  destruct (finish_spec fuel mCols st _ HInv) as (it & _ & Hit & _ & ->).
  rewrite Hs, lookup_total_empty in Hit.
  assert (it = (0, 0)) as -> by set_solver. simpl. f_equal.
  unfold asumRange. rewrite (arange_split _ 1 1 mCols) by lia.
  rewrite arange_single, arange_zero.
  - done.
  - intros p Hp. unfold aset. case_decide; [lia|done].
Qed.

Lemma main_no_obstacles_witness : main 21 2 2 [] = Some 1.
Proof.
  apply main_no_obstacles; [lia|].
  concrete_input.
Defined.

(** C1 as stated fails on a 2 x 2 grid: the engine answers 1, the
    binomial is 2. *)
Lemma main_no_obstacles_not_binomial :
  main 32 2 2 [] = Some 1 ∧ Spec.latticePaths 2 2 = 2.
Proof. split; by vm_compute. Qed.

(** C5.  Reordering the input rectangles leaves the answer unchanged, and
    an answer is produced. *)
Theorem main_permutation fuel nRows mCols rects rects' :
  (20 < fuel)%nat → valid_input nRows mCols rects → rects ≡ₚ rects' →
  main fuel nRows mCols rects' = main fuel nRows mCols rects ∧
  is_Some (main fuel nRows mCols rects).
Proof.
  intros Hfuel Hvalid Hperm. split.
  - assert (∀ l l' : list interval,
              l ≡ₚ l' → list_to_set l =@{gset interval} list_to_set l') as Hset.
    { intros l l' Hl. apply set_eq. intros p.
      by rewrite !elem_of_list_to_set, Hl. }
    unfold main. rewrite !mainWith_unfold, !sweepWith_unfold.
    assert (initState fuel mCols (readRects rects').1 =
            initState fuel mCols (readRects rects).1) as ->.
    { unfold initState. rewrite !foldl_insert.
      fold (addsAt rects' 1) (addsAt rects 1).
      by rewrite (Hset _ _ (addsAt_perm rects rects' 1 Hperm)). }
    destruct (initState _ _ _) as [st|]; simpl; [|done].
    erewrite forEach_ext; [done|]. intros i st'. unfold rowStepWith.
    fold (addsAt rects' i) (addsAt rects i) (delsAt rects' i) (delsAt rects i).
    rewrite (sortDesc_perm (addsAt rects' i) (addsAt rects i))
      by (symmetry; by apply addsAt_perm).
    destruct (forEach _ _ st') as [st1|]; simpl; [|done].
    rewrite !foldl_eraseStep.
    by rewrite (Hset _ _ (delsAt_perm rects rects' i Hperm)).
  - apply main_total; auto. intros l p. apply elem_of_sortDesc.
Qed.

Lemma main_permutation_witness :
  main 21 3 6 [Rect.mk 2 4 3 4; Rect.mk 2 2 2 2] =
    main 21 3 6 [Rect.mk 2 2 2 2; Rect.mk 2 4 3 4] ∧
  is_Some (main 21 3 6 [Rect.mk 2 2 2 2; Rect.mk 2 4 3 4]).
Proof.
  apply main_permutation; [lia| |apply perm_swap].
  concrete_input.
Defined.

(** C4, as the code has it.  Lines 95-96 fix the processing order, so a
    bucket may arrive in any order: shuffling it before the sort leaves
    the answer unchanged.  Processing a bucket in another order leaves the
    active set after each row unchanged as well; the boundary values, and
    with them the answer, depend on the order. *)
Theorem main_bucket_order (shuffle : list interval → list interval)
    fuel nRows mCols rects :
  (20 < fuel)%nat → valid_input nRows mCols rects →
  (∀ l, shuffle l ≡ₚ l) →
  mainWith (λ l, sortDesc (shuffle l)) fuel nRows mCols rects =
    main fuel nRows mCols rects ∧
  ∀ i, 1 ≤ i →
    activeSegs <$> sweepWith shuffle fuel mCols rects i =
      activeSegs <$> sweep fuel mCols rects i.
Proof.
  intros Hfuel Hvalid Hshuffle. split.
  - unfold main. rewrite !mainWith_unfold, !sweepWith_unfold.
    destruct (initState _ _ _) as [st|]; simpl; [|done].
    erewrite forEach_ext; [done|]. intros i st'. unfold rowStepWith.
    by rewrite (sortDesc_perm _ _ (Hshuffle _)).
  - intros i Hi.
    destruct (sweepWith_spec shuffle fuel nRows mCols rects)
      with (n := Z.to_nat (i - 1)) as (st & a & Hrun & _ & Hs & _); auto.
    { intros l p. by rewrite Hshuffle. }
    destruct (sweepWith_spec sortDesc fuel nRows mCols rects)
      with (n := Z.to_nat (i - 1)) as (st' & a' & Hrun' & _ & Hs' & _); auto.
    { intros l p. apply elem_of_sortDesc. }
    replace (Z.of_nat (Z.to_nat (i - 1)) + 1) with i in * by lia.
    unfold sweep. rewrite Hrun, Hrun'. simpl. congruence.
Qed.

Lemma main_bucket_order_witness :
  mainWith (λ l, sortDesc (reverse l)) 21 2 6
      [Rect.mk 2 2 2 2; Rect.mk 2 4 2 4] =
    main 21 2 6 [Rect.mk 2 2 2 2; Rect.mk 2 4 2 4] ∧
  ∀ i, 1 ≤ i →
    activeSegs <$> sweepWith reverse 21 6 [Rect.mk 2 2 2 2; Rect.mk 2 4 2 4] i =
      activeSegs <$> sweep 21 6 [Rect.mk 2 2 2 2; Rect.mk 2 4 2 4] i.
Proof.
  apply (main_bucket_order reverse 21 2 6); [lia|concrete_input|].
  intros l. apply reverse_Permutation.
Defined.

(** C4 as stated fails: two intervals activate at row 2 of a 2 x 6 grid;
    processed in ascending order (a permutation of the bucket) the answer
    is 2, in the engine's descending order it is 1. *)
Lemma main_ascending_order_differs :
  (∀ l, merge_sort pair_le l ≡ₚ l) ∧
  mainWith (merge_sort pair_le) 32 2 6 [Rect.mk 2 2 2 2; Rect.mk 2 4 2 4]
    = Some 2 ∧
  main 32 2 6 [Rect.mk 2 2 2 2; Rect.mk 2 4 2 4] = Some 1.
Proof.
  split; [apply merge_sort_Permutation|]. split; by vm_compute.
Qed.

(** C7.  With [bound = y + 1], the lookup of line 100 returns a member
    whose left endpoint is at most [bound], greatest in the order of the
    set among such members (greatest left endpoint, then greatest right
    endpoint); the sentinel makes it succeed. *)
Theorem predecessor_lookup (s : gset interval) (y : Z) :
  0 ≤ y + 1 → y + 2 < 2 ^ 31 →
  (0, 0) ∈ s → (∀ q, q ∈ s → 0 ≤ q.2) →
  ∃ p, lowerBoundPrev (iadd y 2, 0) s = Some p ∧
    p ∈ s ∧ p.1 ≤ y + 1 ∧
    ∀ q, q ∈ s → q.1 ≤ y + 1 → q.1 < p.1 ∨ (q.1 = p.1 ∧ q.2 ≤ p.2).
Proof.
  intros Hy Hy2 Hsent Hnonneg. rewrite iadd_small by lia.
  pose proof (lowerBoundPrev_spec (y + 2, 0) s) as Hpr.
  destruct (lowerBoundPrev _ _) as [p|].
  - destruct Hpr as (Hp & Hlt & Hmax). exists p. split; [done|].
    split; [done|]. split.
    + specialize (Hnonneg p Hp). unfold pair_lt in Hlt. simpl in Hlt. lia.
    + intros q Hq Hq1. apply Hmax; [done|]. left. simpl. lia.
  - destruct (Hpr _ Hsent). left. simpl. lia.
Qed.

Lemma predecessor_lookup_witness :
  ∃ p, lowerBoundPrev (iadd 4 2, 0) {[ (0, 0); (2, 3); (5, 5); (6, 6) ]}
         = Some p ∧
    p ∈ ({[ (0, 0); (2, 3); (5, 5); (6, 6) ]} : gset interval) ∧
    p.1 ≤ 4 + 1 ∧
    ∀ q, q ∈ ({[ (0, 0); (2, 3); (5, 5); (6, 6) ]} : gset interval) →
         q.1 ≤ 4 + 1 → q.1 < p.1 ∨ (q.1 = p.1 ∧ q.2 ≤ p.2).
Proof.
  apply predecessor_lookup; [lia|lia|set_solver|].
  intros q Hq. repeat (apply elem_of_union in Hq as [Hq|Hq]);
    apply elem_of_singleton in Hq; subst; simpl; lia.
Defined.

Lemma sweep_row fuel nRows mCols rects i :
  (20 < fuel)%nat → valid_input nRows mCols rects → 1 ≤ i →
  ∃ st a, sweep fuel mCols rects i = Some st ∧
    Inv fuel mCols st a ∧
    activeSegs st = segsAfter rects (Z.to_nat (i - 1)) ∧
    (∀ o, o ∈ rects → 2 ≤ Rect.x1 o ≤ i → Rect.y1 o = 1 → a 1 = 0).
Proof.
  intros Hfuel Hvalid Hi.
  destruct (sweepWith_spec sortDesc fuel nRows mCols rects
              (λ l p, elem_of_sortDesc p l) Hvalid Hfuel (Z.to_nat (i - 1)))
    as (st & a & Hrun & HInv & Hs & Hcol).
  replace (Z.of_nat (Z.to_nat (i - 1)) + 1) with i in * by lia.
  by exists st, a.
Qed.

(** C2, as the code has it.  Provided rectangles with equal column
    intervals occupy disjoint rows, after each row [i] the members of the
    set other than the sentinel are exactly the column intervals of the
    rectangles spanning row [i], and every erase that the next row issues
    (the bucket [delRanges[i+1]]) removes an interval that is in the set. *)
Theorem active_set_tracks_rows fuel nRows mCols rects i :
  (20 < fuel)%nat → valid_input nRows mCols rects → distinctSpans rects →
  1 ≤ i ≤ nRows →
  ∃ st, sweep fuel mCols rects i = Some st ∧
    (∀ p, p ∈ activeSegs st ∖ {[ (0, 0) ]} ↔
          ∃ o, o ∈ rects ∧ Rect.cols o = p ∧ spans o i) ∧
    erasesPresent (activeSegs st) (delsAt rects (i + 1)).
Proof.
  intros Hfuel Hvalid Hdistinct Hi.
  destruct (sweep_row fuel nRows mCols rects i) as (st & a & -> & _ & Hs & _);
    auto; [lia|].
  exists st. split; [done|].
  assert (∀ p, p ∈ activeSegs st ↔
               p = (0, 0) ∨ ∃ o, o ∈ rects ∧ Rect.cols o = p ∧ spans o i)
    as Hmem.
  { intros p. rewrite Hs, (segsAfter_spec nRows mCols) by done.
    by replace (Z.of_nat (Z.to_nat (i - 1)) + 1) with i by lia. }
  split.
  - intros p. rewrite elem_of_difference, elem_of_singleton, Hmem. split.
    + intros [[?|?] ?]; done.
    + intros (o & Ho & <- & Hsp). split; [right; eauto|].
      destruct (valid_x2_succ _ _ _ o Hvalid Ho) as [_ (?&?&?&?&?&?)].
      unfold Rect.cols. intros [=]. lia.
  - apply erasesPresent_intro.
    + by eapply NoDup_delsAt.
    + intros p (o & Ho & Hx & <-)%elem_of_delsAt. apply Hmem. right.
      exists o.
      destruct (valid_x2_succ _ _ _ o Hvalid Ho) as [Hsucc (?&?&?&?&?&?)].
      rewrite Hsucc in Hx. unfold spans. repeat split; auto; lia.
Qed.

Lemma active_set_tracks_rows_witness :
  ∃ st, sweep 21 4 [Rect.mk 1 2 2 3; Rect.mk 3 2 3 3; Rect.mk 2 1 3 1] 2
          = Some st ∧
    (∀ p, p ∈ activeSegs st ∖ {[ (0, 0) ]} ↔
          ∃ o, o ∈ [Rect.mk 1 2 2 3; Rect.mk 3 2 3 3; Rect.mk 2 1 3 1] ∧
               Rect.cols o = p ∧ spans o 2) ∧
    erasesPresent (activeSegs st)
      (delsAt [Rect.mk 1 2 2 3; Rect.mk 3 2 3 3; Rect.mk 2 1 3 1] (2 + 1)).
Proof.
  apply (active_set_tracks_rows 21 3 4); [lia| | |lia].
  - concrete_input.
  - concrete_input.
Defined.

(** C2 as stated fails when two rectangles carry the same column interval
    on overlapping rows: the first expires after row 1 and its erase at
    row 2 removes the interval although the second still spans row 2. *)
Lemma active_set_loses_duplicate :
  valid_input 2 3 [Rect.mk 1 2 1 2; Rect.mk 1 2 2 2] ∧
  spans (Rect.mk 1 2 2 2) 2 ∧
  activeSegs <$> sweep 32 3 [Rect.mk 1 2 1 2; Rect.mk 1 2 2 2] 2
    = Some {[ (0, 0) ]}.
Proof.
  split; [|split].
  - concrete_input.
  - concrete_input.
  - by vm_compute.
Qed.

Lemma readsZero_intro fuel mCols st a c d :
  Inv fuel mCols st a → 1 ≤ c → c ≤ d → d ≤ mCols →
  (∀ p, c ≤ p ≤ d → a p = 0) →
  readsZero fuel st c d.
Proof.
  intros HInv Hc Hcd Hd Hzero. pose proof (Inv_mCols _ _ _ _ HInv) as Hm.
  destruct HInv as ((h & Hh & Hrep) & Hin & _).
  destruct (queryRange_spec fuel (seg st) a h 1 1 mCols c d)
    as (t' & Hq & _); auto; try lia.
  exists t'. rewrite Hq. do 2 f_equal.
  unfold asumRange. rewrite arange_zero; [done|].
  intros p Hp. apply Hzero. lia.
Qed.

(** C3, as the code has it.  Provided rectangles with equal column
    intervals occupy disjoint rows, once row [i] has been processed the
    range sum over any part [[c, d]] of the columns of a rectangle spanning
    row [i] reads 0, and it keeps reading 0 at every point of the next
    row's processing: after any part [pre] of the boundary writes of
    lines 97-105, and after all of them, the erases and any part [pre]
    of the activations of lines 108-110.  Excepted is column 1 of a
    rectangle that starts at row 1: rectangles of row 1 are entered into
    the set without a [zeroRange]. *)
Theorem zero_inside_active fuel nRows mCols rects i o c d :
  (20 < fuel)%nat → valid_input nRows mCols rects → distinctSpans rects →
  1 ≤ i ≤ nRows → o ∈ rects → spans o i →
  Rect.y1 o ≤ c → c ≤ d → d ≤ Rect.y2 o →
  2 ≤ Rect.x1 o ∨ 2 ≤ c →
  ∃ st, sweep fuel mCols rects i = Some st ∧ readsZero fuel st c d ∧
    ∀ pre rest, sortDesc (addsAt rects (i + 1)) = pre ++ rest →
    ∃ st1 st2 st3,
      forEach (boundaryStep fuel mCols) pre st = Some st1 ∧
      readsZero fuel st1 c d ∧
      forEach (boundaryStep fuel mCols) rest st1 = Some st2 ∧
      forEach (activateStep fuel) pre
        (foldl (λ st segRange, eraseStep segRange st) st2
               (delsAt rects (i + 1))) = Some st3 ∧
      readsZero fuel st3 c d.
Proof.
  intros Hfuel Hvalid Hdistinct Hi Ho Hsp Hc Hcd Hd Hrow1.
  destruct (sweep_row fuel nRows mCols rects i)
    as (st & a & -> & HInv & Hs & Hcol); auto; [lia|].
  destruct (valid_x2_succ _ _ _ o Hvalid Ho) as [_ (?&?&?&?&?&?)].
  assert (Rect.cols o ∈ activeSegs st) as Hmem.
  { rewrite Hs. apply (segsAfter_spec nRows mCols); [done..|]. right.
    exists o. replace (Z.of_nat (Z.to_nat (i - 1)) + 1) with i by lia. done. }
  assert (∀ st' a', Inv fuel mCols st' a' →
            activeSegs st' = activeSegs st → a' 1 = a 1 →
            ∀ p, c ≤ p ≤ d → a' p = 0) as Hzero.
  { intros st' a' (_ & _ & _ & Hz) Hs' Ha1 p Hp.
    destruct (decide (2 ≤ p)) as [Hp2|Hp1].
    - apply (Hz (Rect.cols o)); simpl; [by rewrite Hs'|lia..].
    - assert (p = 1) as -> by lia. unfold spans in Hsp.
      rewrite Ha1. apply (Hcol o); [done|lia..]. }
  exists st. split; [done|]. split.
  { apply (readsZero_intro fuel mCols st a); auto; try lia.
    by apply (Hzero st a). }
  intros pre rest Hsplit.
  assert (∀ p, p ∈ pre ++ rest → 1 ≤ p.1 ∧ p.1 ≤ p.2 ∧ p.2 ≤ mCols) as Hadded.
  { intros p Hp. rewrite <- Hsplit in Hp.
    apply (proj1 (elem_of_sortDesc _ _)) in Hp.
    by apply (valid_addsAt nRows mCols rects (i + 1)). }
  destruct (boundary_loop fuel mCols pre st a HInv)
    as (st1 & a1 & Hrun1 & HInv1 & Hs1 & Ha1).
  { intros p Hp. apply Hadded, elem_of_app. by left. }
  destruct (boundary_loop fuel mCols rest st1 a1 HInv1)
    as (st2 & a2 & Hrun2 & HInv2 & Hs2 & Ha2).
  { intros p Hp. apply Hadded, elem_of_app. by right. }
  destruct (activate_loop fuel mCols pre
              (foldl (λ st segRange, eraseStep segRange st) st2
                     (delsAt rects (i + 1))) a2)
    as (st3 & a3 & Hrun3 & HInv3 & _ & Hkeep & _).
  { apply erase_Inv; [done|]. intros p.
    by apply (valid_delsAt nRows mCols rects). }
  { intros p Hp. apply Hadded, elem_of_app. by left. }
  exists st1, st2, st3. split; [done|]. split; [|split; [done|split; [done|]]].
  - apply (readsZero_intro fuel mCols st1 a1); auto; try lia.
    by apply (Hzero st1 a1).
  - apply (readsZero_intro fuel mCols st3 a3); auto; try lia.
    intros p Hp. apply Hkeep, (Hzero st2 a2); auto; congruence.
Qed.

Lemma zero_inside_active_witness :
  ∃ st,
    sweep 21 4 [Rect.mk 2 1 3 2; Rect.mk 1 3 3 4; Rect.mk 3 3 3 3] 2
      = Some st ∧
    readsZero 21 st 1 2 ∧
    ∀ pre rest,
      sortDesc (addsAt [Rect.mk 2 1 3 2; Rect.mk 1 3 3 4; Rect.mk 3 3 3 3]
                       (2 + 1)) = pre ++ rest →
      ∃ st1 st2 st3,
        forEach (boundaryStep 21 4) pre st = Some st1 ∧
        readsZero 21 st1 1 2 ∧
        forEach (boundaryStep 21 4) rest st1 = Some st2 ∧
        forEach (activateStep 21) pre
          (foldl (λ st segRange, eraseStep segRange st) st2
             (delsAt [Rect.mk 2 1 3 2; Rect.mk 1 3 3 4; Rect.mk 3 3 3 3]
                     (2 + 1))) = Some st3 ∧
        readsZero 21 st3 1 2.
Proof.
  apply (zero_inside_active 21 3 4 _ 2 (Rect.mk 2 1 3 2));
    try (simpl; lia).
  - concrete_input.
  - concrete_input.
  - left.
  - concrete_input.
Defined.

(** C3 as stated fails for a rectangle that starts at row 1 and holds
    column 1: no [zeroRange] is issued for it and the base case written at
    column 1 stays. *)
Lemma row_one_interval_not_cleared :
  valid_input 2 2 [Rect.mk 1 1 2 1] ∧ spans (Rect.mk 1 1 2 1) 1 ∧
  (st ← sweep 32 2 [Rect.mk 1 1 2 1] 1;
   '(q, _) ← queryRange 32 1 1 1 (seg st); Some q) = Some 1.
Proof.
  split; [|split].
  - concrete_input.
  - concrete_input.
  - by vm_compute.
Qed.

(** The side condition on equal column intervals is needed as well: the
    erase for the first rectangle removes the interval the second one still
    needs, and a later boundary value lands inside the second. *)
Lemma duplicate_interval_not_cleared :
  spans (Rect.mk 3 4 6 8) 5 ∧
  (st ← sweep 32 8 [Rect.mk 2 4 3 8; Rect.mk 3 4 6 8; Rect.mk 5 5 5 5] 5;
   '(q, _) ← queryRange 32 1 6 6 (seg st); Some q) = Some 1.
Proof. split; [concrete_input|by vm_compute]. Qed.

(** C9, as the code has it.  Provided rectangles with equal column
    intervals occupy disjoint rows, a rectangle covering the destination
    cell makes the answer 0: the final query range is empty or lies inside
    the cleared columns of that rectangle.  The query over the empty range
    [[mCols+1, mCols]] returns 0 in the final state. *)
Theorem blocked_destination fuel nRows mCols rects o :
  (20 < fuel)%nat → valid_input nRows mCols rects → distinctSpans rects →
  o ∈ rects → spans o nRows → Rect.y2 o = mCols →
  main fuel nRows mCols rects = Some 0 ∧
  ∃ st t', sweep fuel mCols rects nRows = Some st ∧
    queryRange fuel 1 (iadd mCols 1) mCols (seg st) = Some (0, t').
Proof.
  intros Hfuel Hvalid Hdistinct Ho Hsp Hy2.
  pose proof Hvalid as (Hn1 & _).
  unfold main. rewrite mainWith_unfold. fold sweep.
  destruct (sweep_row fuel nRows mCols rects nRows)
    as (st & a & -> & HInv & Hs & Hcol); auto.
  simpl. pose proof (Inv_mCols _ _ _ _ HInv) as Hm. split.
  - destruct (finish_spec fuel mCols st a HInv)
      as (it & _ & Hit & Hmax & ->).
    f_equal. destruct HInv as (_ & Hin & [Hsent Hset] & Hzero).
    destruct (valid_x2_succ _ _ _ o Hvalid Ho) as [_ (?&?&?&?&?&?)].
    assert (Rect.cols o ∈ activeSegs st) as Hmem.
    { rewrite Hs. apply (segsAfter_spec nRows mCols); [done..|]. right.
      exists o.
      by replace (Z.of_nat (Z.to_nat (nRows - 1)) + 1) with nRows by lia. }
    specialize (Hmax _ Hmem). unfold pair_le, Rect.cols in Hmax.
    simpl in Hmax.
    unfold asumRange. rewrite arange_zero; [done|].
    intros p Hp. assert (1 ≤ it.1 ∧ it.1 ≤ it.2 ∧ it.2 ≤ mCols) as (?&?&?).
    { destruct (Hset _ Hit) as [->|?]; [simpl in *; lia|done]. }
    apply (Hzero (Rect.cols o)); simpl; auto; lia.
  - destruct HInv as ((h & Hh & Hrep) & _). rewrite iadd_small by lia.
    destruct (queryRange_right_of fuel (seg st) a h 1 1 mCols (mCols + 1) mCols)
      as (t' & Hq & _); auto; try lia.
    eauto.
Qed.

Lemma blocked_destination_witness :
  main 21 3 3 [Rect.mk 1 3 3 3; Rect.mk 2 1 2 1] = Some 0 ∧
  ∃ st t', sweep 21 3 [Rect.mk 1 3 3 3; Rect.mk 2 1 2 1] 3 = Some st ∧
    queryRange 21 1 (iadd 3 1) 3 (seg st) = Some (0, t').
Proof.
  apply (blocked_destination 21 3 3 _ (Rect.mk 1 3 3 3)).
  - lia.
  - concrete_input.
  - concrete_input.
  - left.
  - concrete_input.
  - done.
Defined.

(** C9 as stated fails when a second rectangle with the same column
    interval expires first: its erase at row 3 removes the interval of the
    rectangle that covers the destination, and the final query sums the
    whole row. *)
Lemma blocked_destination_duplicate :
  valid_input 3 3 [Rect.mk 2 2 3 3; Rect.mk 2 2 2 3] ∧
  spans (Rect.mk 2 2 3 3) 3 ∧
  main 32 3 3 [Rect.mk 2 2 3 3; Rect.mk 2 2 2 3] = Some 1.
Proof.
  split; [|split].
  - concrete_input.
  - concrete_input.
  - by vm_compute.
Qed.

(** ** The tree against the array of residues *)

Lemma InRange_aset a pos val :
  InRange a → 0 ≤ val < kMod → InRange (aset a pos val).
Proof. intros Ha Hv p. unfold aset. case_decide; auto. Qed.

Lemma InRange_azero a l r : InRange a → InRange (azero a l r).
Proof. intros Ha p. unfold azero. case_decide; [by unfold kMod|auto]. Qed.

Lemma runOp_spec fuel mCols o t a h :
  rep t a h 1 1 mCols → (h < fuel)%nat → InRange a → okOp mCols o →
  ∃ t', runOp fuel o t = Some ((Spec.step o a).1, t') ∧
    rep t' (Spec.step o a).2 h 1 1 mCols ∧ InRange (Spec.step o a).2.
Proof.
  intros Hrep Hh Hin Hok. destruct o as [pos val|l r|l r]; simpl in *.
  - destruct Hok as (?&?&?&?).
    destruct (updatePoint_spec fuel t a h 1 1 mCols pos val)
      as (t' & -> & Hrep' & _); auto; try lia.
    simpl. exists t'. split; [done|]. split; [done|].
    by apply InRange_aset.
  - destruct Hok as (?&?&?&?).
    destruct (zeroRange_spec fuel t a h 1 1 mCols l r)
      as (t' & -> & Hrep' & _); auto; try lia.
    simpl. exists t'. split; [done|]. split; [done|].
    by apply InRange_azero.
  - destruct Hok as (?&?&?&?).
    destruct (queryRange_spec fuel t a h 1 1 mCols l r)
      as (t' & -> & Hrep' & _); auto; try lia.
    simpl. exists t'. split; [|done].
    by replace (Z.max l 1) with l by lia; replace (Z.min r mCols) with r by lia.
Qed.

Lemma runOps_spec fuel mCols ops : ∀ t a h,
  rep t a h 1 1 mCols → (h < fuel)%nat → InRange a →
  Forall (okOp mCols) ops →
  ∃ t', runOps fuel ops t = Some ((Spec.run ops a).1, t') ∧
    rep t' (Spec.run ops a).2 h 1 1 mCols ∧ InRange (Spec.run ops a).2.
Proof.
  induction ops as [|o ops IH]; intros t a h Hrep Hh Hin Hok; simpl.
  - eauto.
  - apply Forall_cons in Hok as [Ho Hok].
    destruct (runOp_spec fuel mCols o t a h) as (t1 & -> & Hrep1 & Hin1);
      auto.
    simpl. destruct (Spec.step o a) as [out a1]. simpl in *.
    destruct (IH t1 a1 h) as (t2 & -> & Hrep2 & Hin2); auto.
    simpl. destruct (Spec.run ops a1) as [outs a2]. simpl in *. eauto.
Qed.

Lemma buildTree_rep fuel mCols :
  (20 < fuel)%nat → 1 ≤ mCols → mCols + 10 ≤ kMaxN →
  ∃ t0, buildTree fuel 1 1 mCols ∅ = Some t0 ∧ rep t0 (λ _, 0) 20 1 1 mCols.
Proof.
  intros Hfuel Hm1 Hm2. unfold kMaxN in *.
  destruct (buildTree_spec fuel 20 ∅ 1 1 mCols)
    as (t0 & -> & Hshape & _ & Hzero); [lia..|].
  exists t0. split; [done|]. apply rep_of_shape_zero; [done|].
  intros y. destruct (Hzero y) as [-> ->]. by rewrite lookup_total_empty.
Qed.

Lemma treeState_rep fuel mCols t :
  (20 < fuel)%nat → 1 ≤ mCols → mCols + 10 ≤ kMaxN →
  treeState fuel mCols t →
  ∃ a, rep t a 20 1 1 mCols ∧ InRange a.
Proof.
  intros Hfuel Hm1 Hm2 (hist & outs & Hok & Hrun).
  destruct (buildTree_rep fuel mCols) as (t0 & Hb & Hrep0); auto.
  rewrite Hb in Hrun. simpl in Hrun.
  destruct (runOps_spec fuel mCols hist t0 (λ _, 0) 20)
    as (t' & Hrun' & Hrep & Hin); auto.
  { intros p. by unfold kMod. }
  rewrite Hrun' in Hrun. injection Hrun as _ <-. eauto.
Qed.


(** C10.  Started from [buildTree], the tree answers every sequence of
    calls exactly as the array of residues does: [updatePoint] is
    [a[p] := v], [zeroRange] clears a range, [queryRange] is the range sum
    modulo [kMod].  The invariant behind it ([rep]) never reads the tag of
    a leaf, so a tag left on a leaf by [updatePoint] is not observed. *)
Theorem tree_refines_array fuel mCols ops :
  (20 < fuel)%nat → 1 ≤ mCols → mCols + 10 ≤ kMaxN →
  Forall (okOp mCols) ops →
  ∃ t0 t', buildTree fuel 1 1 mCols ∅ = Some t0 ∧
    runOps fuel ops t0 = Some ((Spec.run ops (λ _, 0)).1, t').
Proof.
  intros Hfuel Hm1 Hm2 Hok.
  destruct (buildTree_rep fuel mCols) as (t0 & Hb & Hrep0); auto.
  destruct (runOps_spec fuel mCols ops t0 (λ _, 0) 20)
    as (t' & Hrun & _); auto.
  { intros p. by unfold kMod. }
  eauto.
Qed.

(** The scenario of the stale tag: position 2 is cleared (its leaf keeps
    tag 1), then written, then read alone and within the whole range. *)
Lemma tree_refines_array_witness :
  ∃ t0 t', buildTree 21 1 1 3 ∅ = Some t0 ∧
    runOps 21 [PointSet 1 4; ZeroAssign 2 2; PointSet 2 7;
               RangeSum 2 2; RangeSum 1 3] t0
    = Some ((Spec.run [PointSet 1 4; ZeroAssign 2 2; PointSet 2 7;
                       RangeSum 2 2; RangeSum 1 3] (λ _, 0)).1, t').
Proof.
  apply tree_refines_array; [lia|lia|unfold kMaxN; lia|concrete_input].
Defined.

Example stale_leaf_tag :
  (t ← buildTree 21 1 1 3 ∅;
   '(outs, t) ← runOps 21 [PointSet 1 4; ZeroAssign 2 2; PointSet 2 7;
                           RangeSum 2 2; RangeSum 1 3] t;
   Some (outs, Node.tag (t !!! 5), Node.sum (t !!! 5)))
  = Some ([7; 11], 1, 7).
Proof. by vm_compute. Qed.

(** Outside the calls of [okOp] the tree is not the array: the range
    [[1, 0]], whose right end lies left of the tree, makes [zeroRange]
    descend to the leaf of position 1 and recompute it from the two nodes
    under it, which are not part of the tree. *)
Example zeroRange_empty_range :
  (t ← buildTree 21 1 1 4 ∅;
   t ← updatePoint 21 1 1 7 t;
   t ← zeroRange 21 1 1 0 t;
   '(q, _) ← queryRange 21 1 1 1 t; Some q) = Some 0.
Proof. by vm_compute. Qed.

(** C6.  In every tree state and for every range [[l, r]] with its ends
    in [[1, mCols]], right after [zeroRange l r] the query over [[l, r]]
    answers 0, and it still answers 0 after any sequence of [updatePoint]
    calls, with any values, at positions outside [[l, r]], whether these
    follow the [zeroRange] directly ([t1]) or the first query ([t2]). *)
Theorem zero_range_stays_zero fuel mCols t l r (writes : list (Z * Z)) :
  (20 < fuel)%nat → 1 ≤ mCols → mCols + 10 ≤ kMaxN →
  treeState fuel mCols t →
  1 ≤ l → l ≤ mCols → 1 ≤ r → r ≤ mCols →
  Forall (λ w, 1 ≤ w.1 ∧ w.1 ≤ mCols ∧ ¬ (l ≤ w.1 ≤ r)) writes →
  ∃ t1 t2,
    zeroRange fuel 1 l r t = Some t1 ∧
    queryRange fuel 1 l r t1 = Some (0, t2) ∧
    ∀ t', t' = t1 ∨ t' = t2 →
      ∃ t3 t4,
        forEach (λ w, updatePoint fuel 1 w.1 w.2) writes t' = Some t3 ∧
        queryRange fuel 1 l r t3 = Some (0, t4).
Proof.
  intros Hfuel Hm1 Hm2 Hst Hl1 Hl2 Hr1 Hr2 Hw.
  destruct (treeState_rep fuel mCols t) as (a & Hrep & _); auto.
  destruct (zeroRange_spec fuel t a 20 1 1 mCols l r)
    as (t1 & Hz & Hrep1 & _); auto; try lia.
  assert (∀ t' a', rep t' a' 20 1 1 mCols → (∀ p, l ≤ p ≤ r → a' p = 0) →
            ∃ t'', queryRange fuel 1 l r t' = Some (0, t'') ∧
                   rep t'' a' 20 1 1 mCols) as Hquery.
  { intros t' a' Hrep' Hzero.
    destruct (queryRange_spec fuel t' a' 20 1 1 mCols l r)
      as (t'' & Hq & Hrep'' & _); auto; try lia.
    { intros p _ Hp. rewrite Hzero by done. by unfold kMod. }
    exists t''. split; [|done]. rewrite Hq. do 2 f_equal.
    unfold asumRange. rewrite arange_zero; [done|].
    intros p Hp. apply Hzero. lia. }
  assert (∀ p, l ≤ p ≤ r → azero a l r p = 0) as Hzero1.
  { intros p Hp. unfold azero. by case_decide. }
  destruct (Hquery t1 _ Hrep1 Hzero1) as (t2 & Hq2 & Hrep2).
  exists t1, t2. split; [done|]. split; [done|]. intros t' Ht'.
  assert (rep t' (azero a l r) 20 1 1 mCols) as Hrep'.
  { by destruct Ht' as [-> | ->]. }
  destruct (forEach_inv (λ w, updatePoint fuel 1 w.1 w.2)
              (λ t', ∃ a', rep t' a' 20 1 1 mCols ∧ ∀ p, l ≤ p ≤ r → a' p = 0)
              writes t') as (t3 & Hrun & a3 & Hrep3 & Hzero3).
  { by exists (azero a l r). }
  { intros [pos val] t0 Hin (a0 & Hrep0 & Hzero0). simpl.
    rewrite Forall_forall in Hw. destruct (Hw _ Hin) as (?&?&?). simpl in *.
    destruct (updatePoint_spec fuel t0 a0 20 1 1 mCols pos val)
      as (t'' & -> & Hrep'' & _); auto.
    exists t''. split; [done|]. eexists. split; [done|].
    intros p Hp. unfold aset. case_decide; [subst; tauto|auto]. }
  destruct (Hquery t3 _ Hrep3 Hzero3) as (t4 & Hq4 & _).
  by exists t3, t4.
Qed.

Lemma zero_range_stays_zero_witness :
  ∃ t1 t2,
    zeroRange 21 1 2 3
      (default ∅ (t ← buildTree 21 1 1 4 ∅;
                  snd <$> runOps 21 [PointSet 2 5; PointSet 4 6] t))
      = Some t1 ∧
    queryRange 21 1 2 3 t1 = Some (0, t2) ∧
    ∀ t', t' = t1 ∨ t' = t2 →
      ∃ t3 t4,
        forEach (λ w, updatePoint 21 1 w.1 w.2)
                [(1, 5); (4, -3); (1, kMod)] t' = Some t3 ∧
        queryRange 21 1 2 3 t3 = Some (0, t4).
Proof.
  apply (zero_range_stays_zero 21 4); try lia.
  - unfold kMaxN. lia.
  - exists [PointSet 2 5; PointSet 4 6], [].
    split; [concrete_input|by vm_compute].
  - concrete_input.
Defined.

(** ** A value stored without reduction

    [updatePoint] stores the value as given.  One position that holds a
    value outside [[0, kMod)] is reduced on the way up: by [pushUp] in
    the sums of the nodes above its leaf, and by [queryRange] wherever
    the leaf's sum is added to the running total. *)

Lemma wideAt_InRange p a :
  InRange a → wideAt p a.
Proof. intros Ha. split; [|by auto]. specialize (Ha p). unfold kMod in *. lia. Qed.













(** Above one column the value is reduced on the way up: on two columns
    [kMod + 5] written at position 1 is read back as 5. *)
Example point_set_reduced_above_leaf :
  (t ← buildTree 32 1 1 2 ∅;
   t ← updatePoint 32 1 1 (kMod + 5) t;
   '(q, _) ← queryRange 32 1 1 1 t; Some q) = Some 5.
Proof. by vm_compute. Qed.

(** A negative value is outside the property on every tree: [%] rounds
    towards zero, so on two columns [-3] is read back as [-3]. *)
Example point_set_negative :
  (t ← buildTree 32 1 1 2 ∅;
   t ← updatePoint 32 1 1 (-3) t;
   '(q, _) ← queryRange 32 1 1 1 t; Some q) = Some (-3) ∧
  (-3) `mod` kMod = kMod - 3.
Proof. split; by vm_compute. Qed.

(** Above [2^31 - kMod] the sum of the value and a residue leaves the
    range of [int] in [pushUp]; with the wrap-around written out, the sum
    of the root comes out negative. *)
Example point_set_overflow :
  (t ← buildTree 32 1 1 2 ∅;
   t ← updatePoint 32 1 1 (kMod - 1) t;
   t ← updatePoint 32 1 2 (2 ^ 31 - kMod + 1) t;
   '(q, _) ← queryRange 32 1 1 2 t; Some q) = Some (-147483634).
Proof. by vm_compute. Qed.

(** ** Console input and output *)

Lemma wrap_shift a k : wrap (a + k * 2 ^ 32) = wrap a.
Proof.
  unfold wrap. f_equal.
  rewrite <- Z.add_assoc, (Z.add_comm (k * _)), Z.add_assoc.
  apply Z_mod_plus_full.
Qed.

Lemma wrap_repr a : ∃ k, wrap a = a + k * 2 ^ 32.
Proof.
  exists (- ((a + 2 ^ 31) `div` 2 ^ 32)). unfold wrap.
  pose proof (Z.div_mod (a + 2 ^ 31) (2 ^ 32) ltac:(lia)). lia.
Qed.

Lemma readStep_wrap a c :
  isub (iadd (imul (wrap a) 10) c) 48 = wrap (a * 10 + (c - 48)).
Proof.
  unfold isub, iadd, imul.
  destruct (wrap_repr a) as [k1 ->].
  destruct (wrap_repr ((a + k1 * 2 ^ 32) * 10)) as [k2 ->].
  destruct (wrap_repr ((a + k1 * 2 ^ 32) * 10 + k2 * 2 ^ 32 + c)) as [k3 ->].
  rewrite <- (wrap_shift (a * 10 + (c - 48)) (k1 * 10 + k2 + k3)).
  f_equal. lia.
Qed.

Lemma code_chr v : 0 ≤ v < 256 → code (chr v) = v.
Proof.
  intros Hv. unfold code, chr. rewrite Z.mod_small by lia.
  rewrite Ascii.N_ascii_embedding by lia. lia.
Qed.

Lemma isdigit_spec c : isdigit c = true ↔ 48 ≤ code c ≤ 57.
Proof. unfold isdigit. rewrite andb_true_iff, !Z.leb_le. done. Qed.

Lemma skipToDigit_app f junk s :
  Forall (λ c, isdigit c = false) junk →
  skipToDigit f (junk ++ s) = skipToDigit f s.
Proof.
  induction 1 as [|c junk Hc _ IH]; simpl; [done|]. by rewrite Hc.
Qed.

Lemma readDigits_app ds : ∀ acc tail,
  Forall (λ c, isdigit c = true) ds →
  (∀ c, head tail = Some c → isdigit c = false) →
  readDigits (wrap acc) (ds ++ tail) =
    (wrap (foldl (λ acc c, acc * 10 + (code c - 48)) acc ds), drop 1 tail).
Proof.
  induction ds as [|d ds IH]; intros acc tail Hds Htail; simpl.
  - destruct tail as [|c tail]; simpl; [done|].
    by rewrite (Htail c).
  - apply Forall_cons in Hds as [Hd Hds]. rewrite Hd, readStep_wrap.
    by apply IH.
Qed.

Lemma foldl_digits_nonneg ds : ∀ acc,
  0 ≤ acc → Forall (λ c, isdigit c = true) ds →
  0 ≤ foldl (λ acc c, acc * 10 + (code c - 48)) acc ds.
Proof.
  induction ds as [|d ds IH]; intros acc Hacc Hds; simpl; [done|].
  apply Forall_cons in Hds as [Hd%isdigit_spec Hds]. apply IH; [lia|done].
Qed.

Lemma numeral_nonneg ds :
  Forall (λ c, isdigit c = true) ds → 0 ≤ numeral ds.
Proof. by apply foldl_digits_nonneg. Qed.

(** Leading characters that are no digits are skipped, the numeral is
    read, and the character behind it is taken from the input. *)
Lemma read_text junk ds tail :
  Forall (λ c, isdigit c = false) junk →
  ds ≠ [] → Forall (λ c, isdigit c = true) ds → numeral ds < 2 ^ 31 →
  (∀ c, head tail = Some c → isdigit c = false) →
  read (junk ++ ds ++ tail) = Some (numeral ds, drop 1 tail).
Proof.
  intros Hjunk Hne Hds Hlt Htail. unfold read.
  rewrite skipToDigit_app by done.
  assert (skipToDigit false (ds ++ tail) = Some (false, ds ++ tail)) as ->.
  { destruct ds as [|d ds]; [done|]. simpl.
    apply Forall_cons in Hds as [Hd _]. by rewrite Hd. }
  simpl.
  replace (readDigits 0 (ds ++ tail)) with (readDigits (wrap 0) (ds ++ tail))
    by done.
  rewrite readDigits_app by done.
  pose proof (numeral_nonneg ds Hds) as Hge.
  unfold numeral in *. by rewrite wrap_small by lia.
Qed.

Lemma pow10_pos (fuel : nat) n :
  1 ≤ n < 10 ^ Z.of_nat fuel → (0 < fuel)%nat.
Proof. destruct fuel; simpl; lia. Qed.

Lemma decimal_spec fuel : ∀ n,
  (0 < fuel)%nat → 0 ≤ n < 10 ^ Z.of_nat fuel →
  decimal fuel n ≠ [] ∧ Forall (λ c, isdigit c = true) (decimal fuel n) ∧
  numeral (decimal fuel n) = n.
Proof.
  induction fuel as [|fuel IH]; intros n Hfuel Hn; [lia|].
  rewrite Nat2Z.inj_succ, Z.pow_succ_r in Hn by lia. simpl.
  pose proof (Z.mod_pos_bound n 10 ltac:(lia)) as Hm.
  pose proof (Z.div_mod n 10 ltac:(lia)) as Hdm.
  assert (isdigit (chr (48 + n `mod` 10)) = true) as Hlast.
  { apply isdigit_spec. rewrite code_chr; lia. }
  split; [by destruct (if 10 <=? n then _ else _)|].
  destruct (Z.leb_spec 10 n) as [Hge|Hlt].
  - destruct (IH (n `div` 10)) as (_ & Hall & Hnum);
      [apply (pow10_pos _ (n `div` 10)); lia|lia|].
    split; [apply Forall_app; split; [done|by apply Forall_singleton]|].
    unfold numeral in *. rewrite foldl_app, Hnum. simpl.
    rewrite code_chr by lia. lia.
  - split; [by apply Forall_singleton|].
    unfold numeral. simpl. rewrite code_chr by lia. lia.
Qed.

Lemma decimal_enough fuel : ∀ fuel' n,
  (0 < fuel)%nat → 0 ≤ n < 10 ^ Z.of_nat fuel → (fuel ≤ fuel')%nat →
  decimal fuel' n = decimal fuel n.
Proof.
  induction fuel as [|fuel IH]; intros fuel' n Hfuel Hn Hle; [lia|].
  destruct fuel' as [|fuel']; [lia|].
  rewrite Nat2Z.inj_succ, Z.pow_succ_r in Hn by lia. simpl.
  destruct (Z.leb_spec 10 n); [|done].
  pose proof (Z.div_mod n 10 ltac:(lia)).
  pose proof (Z.mod_pos_bound n 10 ltac:(lia)).
  rewrite (IH fuel'); [done|apply (pow10_pos _ (n `div` 10)); lia|lia|lia].
Qed.

Lemma write_nonneg fuel : ∀ x out,
  (0 < fuel)%nat → 0 ≤ x < 2 ^ 31 → x < 10 ^ Z.of_nat fuel →
  write fuel x out = Some (out ++ decimal fuel x).
Proof.
  induction fuel as [|fuel IH]; intros x out Hfuel Hx Hlt; [lia|].
  rewrite Nat2Z.inj_succ, Z.pow_succ_r in Hlt by lia. simpl.
  destruct (Z.ltb_spec x 0); [lia|].
  pose proof (Z.mod_pos_bound x 10 ltac:(lia)) as Hm.
  pose proof (Z.div_mod x 10 ltac:(lia)) as Hdm.
  rewrite Z.rem_mod_nonneg, Z.quot_div_nonneg by lia.
  rewrite iadd_small by lia. unfold putchar.
  rewrite (Z.add_comm (x `mod` 10) 48).
  destruct (Z.leb_spec 10 x).
  - rewrite IH; [|apply (pow10_pos _ (x `div` 10)); lia|lia..].
    simpl. by rewrite <- app_assoc.
  - simpl. done.
Qed.

Lemma write_negative fuel x out :
  - 2 ^ 31 < x < 0 →
  write fuel x out = write fuel (- x) (putchar 45 out).
Proof.
  intros Hx. destruct fuel as [|fuel]; [done|]. simpl.
  destruct (Z.ltb_spec x 0); [|lia].
  destruct (Z.ltb_spec (- x) 0); [lia|].
  unfold ineg. by rewrite wrap_small by lia.
Qed.

Lemma pow10_10 : 2 ^ 31 < 10 ^ Z.of_nat 10.
Proof. done. Qed.

Lemma read_decimal n c rest :
  0 ≤ n < 2 ^ 31 → isdigit c = false →
  read (decimal 10 n ++ c :: rest) = Some (n, rest).
Proof.
  intros Hn Hc. pose proof pow10_10.
  destruct (decimal_spec 10 n) as (Hne & Hall & Hnum); [lia..|].
  rewrite <- Hnum at 2.
  apply (read_text [] (decimal 10 n) (c :: rest)); auto.
  - lia.
  - by intros ? [= <-].
Qed.

Lemma inputLine_cons n m ns :
  inputLine (n :: m :: ns) = decimal 10 n ++ chr 32 :: inputLine (m :: ns).
Proof. done. Qed.

Lemma inputLine_last n : inputLine [n] = decimal 10 n ++ [chr 10].
Proof. done. Qed.

Lemma readQueries_text rects : ∀ rest,
  Forall rect_fits rects →
  readQueries (length rects)
    (mjoin ((λ o, inputLine [Rect.x1 o; Rect.y1 o; Rect.x2 o; Rect.y2 o])
              <$> rects) ++ rest) = Some (rects, rest).
Proof.
  induction rects as [|o rects IH]; intros rest Hall; [done|].
  apply Forall_cons in Hall as [[[??] [??]] Hall].
  cbn [length fmap list_fmap mjoin list_join readQueries].
  rewrite !inputLine_cons, inputLine_last.
  repeat (rewrite <- ?app_assoc, <- ?app_comm_cons).
  rewrite read_decimal by done. cbn [mbind option_bind].
  rewrite read_decimal by done. cbn [mbind option_bind].
  rewrite read_decimal by done. cbn [mbind option_bind].
  rewrite read_decimal by done. cbn [mbind option_bind app].
  rewrite IH by done. cbn [mbind option_bind]. by destruct o.
Qed.

(** X1 (lines 4-9).  [read] skips every character that is no digit, a
    minus sign included, reads the digits that follow as a decimal
    numeral and takes the character behind them from the input: the
    value returned is the numeral's, never negative. *)
Theorem read_numeral junk ds tail :
  Forall (λ c, isdigit c = false) junk →
  ds ≠ [] → Forall (λ c, isdigit c = true) ds → numeral ds < 2 ^ 31 →
  (∀ c, head tail = Some c → isdigit c = false) →
  read (junk ++ ds ++ tail) = Some (numeral ds, drop 1 tail) ∧
  0 ≤ numeral ds.
Proof.
  intros Hjunk Hne Hds Hlt Htail.
  split; [by apply read_text|by apply numeral_nonneg].
Qed.

Lemma read_numeral_witness :
  read (String.list_ascii_of_string " -042,7") =
    Some (42, String.list_ascii_of_string "7") ∧ 0 ≤ 42.
Proof.
  apply (read_numeral (String.list_ascii_of_string " -")
           (String.list_ascii_of_string "042")
           (String.list_ascii_of_string ",7")).
  - concrete_input.
  - done.
  - concrete_input.
  - by vm_compute.
  - intros c [= <-]. reflexivity.
Defined.

(** X2 (lines 4-19).  What [write] prints for an [int] other than the
    least one, [read] reads back up to the sign: the digits are read
    back, the minus sign is skipped, so the value read is the absolute
    value.  Ten levels of recursion are enough for [write]. *)
Theorem read_write fuel x tail :
  (10 ≤ fuel)%nat → - 2 ^ 31 < x < 2 ^ 31 →
  (∀ c, head tail = Some c → isdigit c = false) →
  ∃ w, write fuel x [] = Some w ∧
       read (w ++ tail) = Some (Z.abs x, drop 1 tail).
Proof.
  intros Hfuel Hx Htail.
  assert (2 ^ 31 < 10 ^ Z.of_nat fuel) as Hpow.
  { eapply Z.lt_le_trans; [apply pow10_10|].
    apply Z.pow_le_mono_r; lia. }
  destruct (decimal_spec fuel (Z.abs x)) as (Hne & Hall & Hnum); [lia..|].
  destruct (decide (0 ≤ x)) as [Hpos|Hneg].
  - rewrite Z.abs_eq in * by done.
    rewrite write_nonneg by lia. eexists; split; [done|]. simpl.
    rewrite <- Hnum at 2. apply (read_text [] _ tail); auto. lia.
  - rewrite Z.abs_neq in * by lia.
    rewrite write_negative, write_nonneg by lia.
    eexists; split; [done|]. unfold putchar. simpl.
    rewrite <- Hnum at 2. apply (read_text [chr 45] _ tail); auto; lia.
Qed.

Lemma read_write_witness :
  ∃ w, write 10 (-120) [] = Some w ∧
       read (w ++ [chr 10]) = Some (Z.abs (-120), drop 1 [chr 10]).
Proof.
  apply (read_write 10 (-120) [chr 10]); [lia|lia|].
  intros c [= <-]. reflexivity.
Defined.

(** X3 (lines 5-6).  On an input without any digit, the empty input
    included, [read] does not return: its first loop waits for a digit
    and [getchar()] keeps answering [EOF]. *)
Theorem read_without_digit s :
  Forall (λ c, isdigit c = false) s → read s = None.
Proof.
  intros Hs. unfold read.
  rewrite <- (app_nil_r s), skipToDigit_app by done. done.
Qed.

Lemma read_without_digit_witness :
  read (String.list_ascii_of_string "- x") = None.
Proof. apply read_without_digit. concrete_input. Defined.

(** X4 (lines 82-88).  On the text of an input in the layout of the task
    (numbers of up to 31 bits in decimal, without sign) the program reads
    back the header and the rectangles, in their order, and prints what
    [main] computes from them. *)
Theorem program_reads_input fuel nRows mCols rects :
  0 ≤ nRows < 2 ^ 31 → 0 ≤ mCols < 2 ^ 31 →
  Z.of_nat (length rects) < 2 ^ 31 → Forall rect_fits rects →
  program fuel (inputText nRows mCols rects) = main fuel nRows mCols rects.
Proof.
  intros Hn Hm Hq Hall. unfold program, inputText.
  rewrite !inputLine_cons, inputLine_last.
  repeat (rewrite <- ?app_assoc, <- ?app_comm_cons).
  rewrite read_decimal by done. cbn [mbind option_bind].
  rewrite read_decimal by done. cbn [mbind option_bind].
  rewrite read_decimal by (done || lia). cbn [mbind option_bind app].
  destruct (Z.ltb_spec (Z.of_nat (length rects)) 0); [lia|].
  rewrite Nat2Z.id.
  rewrite <- (app_nil_r (mjoin _)), readQueries_text by done. done.
Qed.

Lemma program_reads_input_witness :
  program 21 (inputText 3 3 [Rect.mk 2 2 2 2]) = main 21 3 3 [Rect.mk 2 2 2 2].
Proof.
  apply program_reads_input; [lia|lia|simpl; lia|concrete_input].
Defined.

Lemma decimal_length fuel : ∀ n, (length (decimal fuel n) ≤ fuel)%nat.
Proof.
  induction fuel as [|fuel IH]; intros n; simpl; [done|].
  rewrite length_app. simpl. destruct (10 <=? n); simpl; [|lia].
  specialize (IH (n `div` 10)). lia.
Qed.

Lemma decimal_head fuel : ∀ n,
  (0 < fuel)%nat → 0 ≤ n < 10 ^ Z.of_nat fuel →
  head (decimal fuel n) = Some (chr 48) → n = 0.
Proof.
  induction fuel as [|fuel IH]; intros n Hfuel Hn Hhead; [lia|].
  rewrite Nat2Z.inj_succ, Z.pow_succ_r in Hn by lia. simpl in Hhead.
  pose proof (Z.mod_pos_bound n 10 ltac:(lia)) as Hm.
  pose proof (Z.div_mod n 10 ltac:(lia)) as Hdm.
  destruct (Z.leb_spec 10 n) as [Hge|Hlt].
  - assert ((0 < fuel)%nat) as Hfuel'.
    { apply (pow10_pos _ (n `div` 10)). lia. }
    destruct (decimal_spec fuel (n `div` 10)) as (Hne & _); [done|lia|].
    destruct (decimal fuel (n `div` 10)) as [|d ds] eqn:Hd; [done|].
    simpl in Hhead. specialize (IH (n `div` 10) Hfuel').
    rewrite Hd in IH. specialize (IH ltac:(lia) Hhead). lia.
  - simpl in Hhead. injection Hhead as Hc.
    apply (f_equal code) in Hc. rewrite !code_chr in Hc by lia. lia.
Qed.

(** X5 (lines 14-19).  For [x ≥ 0], [write] appends the decimal numeral
    of [x] to the output: at most ten digits whose value is [x], without
    a leading zero unless [x] is 0. *)
Theorem write_prints_decimal fuel x out :
  (10 ≤ fuel)%nat → 0 ≤ x < 2 ^ 31 →
  ∃ ds, write fuel x out = Some (out ++ ds) ∧
    Forall (λ c, isdigit c = true) ds ∧ numeral ds = x ∧
    (0 < length ds ≤ 10)%nat ∧ (head ds = Some (chr 48) → x = 0).
Proof.
  intros Hfuel Hx. pose proof pow10_10 as Hpow.
  assert (2 ^ 31 < 10 ^ Z.of_nat fuel) as Hpow'.
  { eapply Z.lt_le_trans; [apply pow10_10|].
    apply Z.pow_le_mono_r; lia. }
  exists (decimal 10 x).
  rewrite write_nonneg, (decimal_enough 10 fuel) by lia.
  destruct (decimal_spec 10 x) as (Hne & Hall & Hnum); [lia..|].
  split; [done|]. split; [done|]. split; [done|]. split.
  - pose proof (decimal_length 10 x).
    destruct (decimal 10 x); [done|]. simpl in *. lia.
  - apply decimal_head; lia.
Qed.

Lemma write_prints_decimal_witness :
  ∃ ds, write 10 2147483647 [chr 45] = Some ([chr 45] ++ ds) ∧
    Forall (λ c, isdigit c = true) ds ∧ numeral ds = 2147483647 ∧
    (0 < length ds ≤ 10)%nat ∧ (head ds = Some (chr 48) → 2147483647 = 0).
Proof. apply write_prints_decimal; lia. Defined.

(** ** What the tree operations never touch *)

Lemma sameRanges_refl t : sameRanges t t.
Proof. by intros y. Qed.

Lemma sameRanges_trans t1 t2 t3 :
  sameRanges t1 t2 → sameRanges t2 t3 → sameRanges t1 t3.
Proof.
  intros H12 H23 y. destruct (H12 y) as [<- <-], (H23 y) as [<- <-]. done.
Qed.

Lemma sameRanges_setSum x v t : sameRanges t (setSum x v t).
Proof. intros y. rewrite lookup_setSum. by case_decide; subst. Qed.

Lemma sameRanges_setTag x v t : sameRanges t (setTag x v t).
Proof. intros y. rewrite lookup_setTag. by case_decide; subst. Qed.

Lemma sameRanges_pushDown x t : sameRanges t (pushDown x t).
Proof.
  unfold pushDown. destruct (_ =? 0); [apply sameRanges_refl|].
  repeat (eapply sameRanges_trans;
          [|apply sameRanges_setSum || apply sameRanges_setTag]).
  apply sameRanges_refl.
Qed.

Lemma sameRanges_pushUp x t : sameRanges t (pushUp x t).
Proof. apply sameRanges_setSum. Qed.

Lemma reduced_setSum x v t :
  reduced t → 0 ≤ v < kMod → reduced (setSum x v t).
Proof.
  intros Ht Hv y. rewrite lookup_setSum. case_decide; subst; [|done].
  destruct (Ht y). done.
Qed.

Lemma reduced_setTag x v t :
  reduced t → v = 0 ∨ v = 1 → reduced (setTag x v t).
Proof.
  intros Ht Hv y. rewrite lookup_setTag. case_decide; subst; [|done].
  destruct (Ht y). done.
Qed.

Lemma reduced_pushDown x t : reduced t → reduced (pushDown x t).
Proof.
  intros Ht. unfold pushDown. destruct (_ =? 0); [done|].
  repeat (apply reduced_setTag || apply reduced_setSum);
    auto; by unfold kMod.
Qed.

Lemma reduced_pushUp x t : reduced t → reduced (pushUp x t).
Proof.
  intros Ht. apply reduced_setSum; [done|].
  destruct (Ht (lson x)) as [Hl _], (Ht (rson x)) as [Hr _].
  rewrite addmod_kMod by done. by apply Z.mod_pos_bound.
Qed.

Lemma updatePoint_keeps fuel : ∀ x pos val t t',
  updatePoint fuel x pos val t = Some t' →
  sameRanges t t' ∧ (reduced t → 0 ≤ val < kMod → reduced t').
Proof.
  induction fuel as [|fuel IH]; intros x pos val t t' Hrun; [done|].
  simpl in Hrun. destruct (_ =? _).
  { simplify_eq. split; [apply sameRanges_setSum|].
    intros. by apply reduced_setSum. }
  pose proof (sameRanges_pushDown x t) as Hs0.
  pose proof (reduced_pushDown x t) as Hr0.
  set (t0 := pushDown x t) in *.
  destruct (if pos <=? midpoint x t0 then _ else _) as [t1|] eqn:H1;
    [|done].
  assert (sameRanges t0 t1 ∧ (reduced t0 → 0 ≤ val < kMod → reduced t1))
    as [Hs1 Hr1].
  { destruct (_ <=? _); [by eapply IH|]. simplify_eq.
    split; [apply sameRanges_refl|done]. }
  simpl in Hrun.
  destruct (if midpoint x t0 <? pos then _ else _) as [t2|] eqn:H2;
    [|done].
  assert (sameRanges t1 t2 ∧ (reduced t1 → 0 ≤ val < kMod → reduced t2))
    as [Hs2 Hr2].
  { destruct (_ <? _); [by eapply IH|]. simplify_eq.
    split; [apply sameRanges_refl|done]. }
  simpl in Hrun. simplify_eq. split.
  - eauto using sameRanges_trans, sameRanges_pushUp.
  - intros. apply reduced_pushUp. auto.
Qed.

Lemma zeroRange_keeps fuel : ∀ x l r t t',
  zeroRange fuel x l r t = Some t' →
  sameRanges t t' ∧ (reduced t → reduced t').
Proof.
  induction fuel as [|fuel IH]; intros x l r t t' Hrun; [done|].
  simpl in Hrun. destruct (_ && _).
  { simplify_eq. split.
    - eauto using sameRanges_trans, sameRanges_setSum, sameRanges_setTag.
    - intros. apply reduced_setSum; [apply reduced_setTag; auto|].
      by unfold kMod. }
  pose proof (sameRanges_pushDown x t) as Hs0.
  pose proof (reduced_pushDown x t) as Hr0.
  set (t0 := pushDown x t) in *.
  destruct (if l <=? midpoint x t0 then _ else _) as [t1|] eqn:H1; [|done].
  assert (sameRanges t0 t1 ∧ (reduced t0 → reduced t1)) as [Hs1 Hr1].
  { destruct (_ <=? _); [by eapply IH|]. simplify_eq.
    split; [apply sameRanges_refl|done]. }
  simpl in Hrun.
  destruct (if midpoint x t0 <? r then _ else _) as [t2|] eqn:H2; [|done].
  assert (sameRanges t1 t2 ∧ (reduced t1 → reduced t2)) as [Hs2 Hr2].
  { destruct (_ <? _); [by eapply IH|]. simplify_eq.
    split; [apply sameRanges_refl|done]. }
  simpl in Hrun. simplify_eq. split.
  - eauto using sameRanges_trans, sameRanges_pushUp.
  - intros. apply reduced_pushUp. auto.
Qed.

Lemma residue_add a b :
  0 ≤ a < kMod → 0 ≤ b < kMod → 0 ≤ Z.rem (iadd a b) kMod < kMod.
Proof. intros. rewrite addmod_kMod by done. by apply Z.mod_pos_bound. Qed.

Lemma queryRange_keeps fuel : ∀ x l r t q t',
  queryRange fuel x l r t = Some (q, t') →
  sameRanges t t' ∧ (reduced t → reduced t' ∧ 0 ≤ q < kMod).
Proof.
  induction fuel as [|fuel IH]; intros x l r t q t' Hrun; [done|].
  simpl in Hrun. destruct (_ && _).
  { simplify_eq. split; [apply sameRanges_refl|].
    intros Ht. split; [done|]. apply Ht. }
  pose proof (sameRanges_pushDown x t) as Hs0.
  pose proof (reduced_pushDown x t) as Hr0.
  set (t0 := pushDown x t) in *.
  destruct (if l <=? midpoint x t0 then _ else _) as [[q1 t1]|] eqn:H1;
    [|done].
  assert (sameRanges t0 t1 ∧ (reduced t0 → reduced t1 ∧ 0 ≤ q1 < kMod))
    as [Hs1 Hr1].
  { destruct (_ <=? _).
    - destruct (queryRange fuel (lson x) l r t0) as [[q0 t0']|] eqn:Hq;
        [|done].
      simpl in H1. simplify_eq. destruct (IH _ _ _ _ _ _ Hq) as [? Hr].
      split; [done|]. intros Ht. destruct (Hr Ht). split; [done|].
      apply residue_add; [by unfold kMod|done].
    - simplify_eq. split; [apply sameRanges_refl|].
      intros. split; [done|by unfold kMod]. }
  simpl in Hrun.
  destruct (if midpoint x t0 <? r then _ else _) as [[q2 t2]|] eqn:H2;
    [|done].
  assert (sameRanges t1 t2 ∧
          (reduced t1 → 0 ≤ q1 < kMod → reduced t2 ∧ 0 ≤ q2 < kMod))
    as [Hs2 Hr2].
  { destruct (_ <? _).
    - destruct (queryRange fuel (rson x) l r t1) as [[q0 t1']|] eqn:Hq;
        [|done].
      simpl in H2. simplify_eq. destruct (IH _ _ _ _ _ _ Hq) as [? Hr].
      split; [done|]. intros Ht ?. destruct (Hr Ht). split; [done|].
      by apply residue_add.
    - simplify_eq. split; [apply sameRanges_refl|]. auto. }
  simpl in Hrun. simplify_eq. split.
  - eauto using sameRanges_trans.
  - intros Ht. destruct Hr1 as [??]; auto.
Qed.

Lemma runOp_keeps fuel o t outs t' :
  runOp fuel o t = Some (outs, t') →
  sameRanges t t' ∧
  (reduced t → storesResidue o →
   reduced t' ∧ Forall (λ q, 0 ≤ q < kMod) outs).
Proof.
  destruct o as [pos val|l r|l r]; simpl; intros Hrun.
  - destruct (updatePoint fuel 1 pos val t) as [t1|] eqn:H1; [|done].
    simpl in Hrun. simplify_eq.
    destruct (updatePoint_keeps _ _ _ _ _ _ H1) as [? Hr].
    split; [done|]. intros. split; [auto|constructor].
  - destruct (zeroRange fuel 1 l r t) as [t1|] eqn:H1; [|done].
    simpl in Hrun. simplify_eq.
    destruct (zeroRange_keeps _ _ _ _ _ _ H1) as [? Hr].
    split; [done|]. intros. split; [auto|constructor].
  - destruct (queryRange fuel 1 l r t) as [[q t1]|] eqn:H1; [|done].
    simpl in Hrun. simplify_eq.
    destruct (queryRange_keeps _ _ _ _ _ _ _ H1) as [? Hr].
    split; [done|]. intros Ht _. destruct (Hr Ht).
    split; [done|]. by apply Forall_singleton.
Qed.

Lemma runOps_keeps fuel ops : ∀ t outs t',
  runOps fuel ops t = Some (outs, t') →
  sameRanges t t' ∧
  (reduced t → Forall storesResidue ops →
   reduced t' ∧ Forall (λ q, 0 ≤ q < kMod) outs).
Proof.
  induction ops as [|o ops IH]; intros t outs t' Hrun; simpl in Hrun.
  { simplify_eq. split; [apply sameRanges_refl|]. intros. by split. }
  destruct (runOp fuel o t) as [[out1 t1]|] eqn:H1; [|done].
  simpl in Hrun.
  destruct (runOps fuel ops t1) as [[out2 t2]|] eqn:H2; [|done].
  simpl in Hrun. simplify_eq.
  destruct (runOp_keeps _ _ _ _ _ H1) as [Hs1 Hr1].
  destruct (IH _ _ _ H2) as [Hs2 Hr2].
  split; [by eapply sameRanges_trans|].
  intros Ht [Ho Hops]%Forall_cons. destruct (Hr1 Ht Ho) as [Ht1 Hout1].
  destruct (Hr2 Ht1 Hops) as [Ht2 Hout2].
  split; [done|]. by apply Forall_app.
Qed.

(** ** The node indices written *)

Lemma shape_sameRanges t t' h x lo hi :
  shape t h x lo hi → sameRanges t t' → shape t' h x lo hi.
Proof.
  intros Hs Hsame. induction Hs.
  - apply shape_leaf; auto; by rewrite (proj1 (Hsame _)) || rewrite (proj2 (Hsame _)).
  - apply shape_node; auto; by rewrite (proj1 (Hsame _)) || rewrite (proj2 (Hsame _)).
Qed.

Lemma writesOnly_refl P t : writesOnly P t t.
Proof. intros y Hy. by left. Qed.

Lemma writesOnly_trans P t1 t2 t3 :
  writesOnly P t1 t2 → writesOnly P t2 t3 → writesOnly P t1 t3.
Proof. intros H12 H23 y Hy. destruct (H23 y Hy); auto. Qed.

Lemma writesOnly_weaken (P Q : Z → Prop) t t' :
  writesOnly P t t' → (∀ y, P y → Q y) → writesOnly Q t t'.
Proof. intros H HPQ y Hy. destruct (H y Hy); auto. Qed.

Lemma writesOnly_setRange x lo hi t : writesOnly (λ y, y = x) t (setRange x lo hi t).
Proof. intros y. unfold setRange. rewrite dom_insert_L. set_solver. Qed.

Lemma writesOnly_setSum x v t : writesOnly (λ y, y = x) t (setSum x v t).
Proof. intros y. unfold setSum. rewrite dom_insert_L. set_solver. Qed.

Lemma writesOnly_setTag x v t : writesOnly (λ y, y = x) t (setTag x v t).
Proof. intros y. unfold setTag. rewrite dom_insert_L. set_solver. Qed.

Lemma writesOnly_pushDown x t :
  writesOnly (λ y, y = x ∨ y = lson x ∨ y = rson x) t (pushDown x t).
Proof.
  unfold pushDown. destruct (_ =? 0); [apply writesOnly_refl|].
  repeat (eapply writesOnly_trans;
    [|eapply writesOnly_weaken;
       [apply writesOnly_setSum || apply writesOnly_setTag|]; naive_solver]).
  apply writesOnly_refl.
Qed.

Lemma dom_pushUp x t y : y ∈ dom t → y ∈ dom (pushUp x t).
Proof. unfold pushUp, setSum. rewrite dom_insert_L. set_solver. Qed.

Lemma within_self x h : 1 ≤ x → within x h x.
Proof.
  intros Hx. unfold within.
  pose proof (Z.pow_pos_nonneg 2 (Z.of_nat h) ltac:(lia) ltac:(lia)). nia.
Qed.

Lemma within_lson x h y : 1 ≤ x → within (lson x) h y → within x (S h) y.
Proof.
  unfold within. rewrite lson_eq, Nat2Z.inj_succ, Z.pow_succ_r by lia.
  pose proof (Z.pow_pos_nonneg 2 (Z.of_nat h) ltac:(lia) ltac:(lia)). nia.
Qed.

Lemma within_rson x h y : 1 ≤ x → within (rson x) h y → within x (S h) y.
Proof.
  intros Hx. unfold within.
  rewrite rson_eq, Nat2Z.inj_succ, Z.pow_succ_r by lia.
  pose proof (Z.pow_pos_nonneg 2 (Z.of_nat h) ltac:(lia) ltac:(lia)). nia.
Qed.

(** The writes of a call that is not answered at the node itself. *)
Lemma writesOnly_descend x h t t1 t2 :
  1 ≤ x →
  writesOnly (within (lson x) h) (pushDown x t) t1 →
  writesOnly (within (rson x) h) t1 t2 →
  writesOnly (within x (S h)) t (pushUp x t2).
Proof.
  intros Hx H1 H2 y Hy.
  pose proof (within_self x (S h) Hx) as Hself.
  pose proof (within_self (lson x) h) as Hl.
  pose proof (within_self (rson x) h) as Hr.
  rewrite lson_eq in Hl. rewrite rson_eq in Hr by lia.
  apply (writesOnly_setSum x) in Hy as [Hy| ->]; [|by right].
  apply H2 in Hy as [Hy|Hy]; [|right; by apply within_rson].
  apply H1 in Hy as [Hy|Hy]; [|right; by apply within_lson].
  apply writesOnly_pushDown in Hy as [Hy|[->|[->| ->]]]; auto.
  - right. apply within_lson; [done|]. rewrite lson_eq. apply Hl. lia.
  - right. apply within_rson; [done|]. rewrite rson_eq by lia. apply Hr. lia.
Qed.

Lemma buildTree_keeps fuel : ∀ x l r t t',
  buildTree fuel x l r t = Some t' →
  ∀ y, Node.sum (t' !!! y) = Node.sum (t !!! y) ∧
       Node.tag (t' !!! y) = Node.tag (t !!! y).
Proof.
  induction fuel as [|fuel IH]; intros x l r t t' Hrun y; [done|].
  simpl in Hrun.
  assert (Node.sum (setRange x l r t !!! y) = Node.sum (t !!! y) ∧
          Node.tag (setRange x l r t !!! y) = Node.tag (t !!! y)) as [H0 H0'].
  { rewrite lookup_setRange. by case_decide; subst. }
  destruct (_ =? _); [by simplify_eq|].
  destruct (buildTree fuel (lson x) _ _ _) as [t1|] eqn:H1; [|done].
  simpl in Hrun.
  destruct (IH _ _ _ _ _ H1 y) as [E1 E1'], (IH _ _ _ _ _ Hrun y) as [E2 E2'].
  by rewrite E2, E2', E1, E1'.
Qed.

Lemma buildTree_dom fuel : ∀ (h : nat) x l r t t',
  1 ≤ x → 0 ≤ l → l ≤ r → r < 2 ^ 30 → r - l + 1 ≤ 2 ^ Z.of_nat h →
  buildTree fuel x l r t = Some t' →
  writesOnly (within x h) t t'.
Proof.
  induction fuel as [|fuel IH]; intros h x l r t t' Hx Hl Hlr Hr Hsz Hrun;
    [done|].
  simpl in Hrun.
  pose proof (writesOnly_setRange x l r t) as H0.
  destruct (Z.eqb_spec l r) as [->|Hne].
  { simplify_eq. eapply writesOnly_weaken; [done|].
    intros y ->. by apply within_self. }
  destruct h as [|h]; [simpl in Hsz; lia|].
  rewrite Nat2Z.inj_succ, Z.pow_succ_r in Hsz by lia.
  assert (l < r) as Hlt by lia.
  pose proof (mid_bounds _ _ Hlt) as Hmid.
  pose proof (Z.div_mod (l + r) 2 ltac:(lia)) as Hdm.
  pose proof (Z.mod_pos_bound (l + r) 2 ltac:(lia)) as Hmb.
  rewrite (iadd_small l r), shiftr_1 in Hrun by lia.
  rewrite iadd_small in Hrun by lia.
  destruct (buildTree fuel (lson x) _ _ _) as [t1|] eqn:H1; [|done].
  simpl in Hrun.
  apply (IH h) in H1; [|rewrite ?lson_eq; lia..].
  apply (IH h) in Hrun; [|rewrite ?rson_eq by lia; lia..].
  intros y Hy.
  apply Hrun in Hy as [Hy|Hy]; [|right; by apply within_rson].
  apply H1 in Hy as [Hy|Hy]; [|right; by apply within_lson].
  apply H0 in Hy as [Hy| ->]; [by left|right; by apply within_self].
Qed.

Lemma updatePoint_dom fuel : ∀ h x lo hi pos val t t',
  shape t h x lo hi → updatePoint fuel x pos val t = Some t' →
  writesOnly (within x h) t t'.
Proof.
  induction fuel as [|fuel IH]; intros h x lo hi pos val t t' Hs Hrun; [done|].
  simpl in Hrun.
  destruct (shape_range _ _ _ _ _ Hs) as (Hx & Hlo & Hle & Hhi & Hl & Hr).
  rewrite Hl, Hr in Hrun. destruct (Z.eqb_spec lo hi) as [->|Hne].
  { simplify_eq. eapply writesOnly_weaken; [apply writesOnly_setSum|].
    intros y ->. by apply within_self. }
  inversion Hs as [|h' ? ? ? _ _ _ _ _ _ Hsl Hsr]; subst; [done|].
  pose proof (sameRanges_pushDown x t) as Hsame.
  set (t0 := pushDown x t) in *.
  destruct (if pos <=? midpoint x t0 then _ else _) as [t1|] eqn:H1;
    [|done].
  simpl in Hrun.
  destruct (if midpoint x t0 <? pos then _ else _) as [t2|] eqn:H2;
    [|done].
  simpl in Hrun. simplify_eq.
  assert (sameRanges t0 t1) as Hsame1.
  { destruct (_ <=? _); [by eapply updatePoint_keeps|].
    simplify_eq. apply sameRanges_refl. }
  apply (writesOnly_descend x h' t t1 t2); [done| |].
  - destruct (_ <=? _); [|simplify_eq; apply writesOnly_refl].
    eapply IH; [|done]. by eapply shape_sameRanges.
  - destruct (_ <? _); [|simplify_eq; apply writesOnly_refl].
    eapply IH; [|done]. eauto using shape_sameRanges.
Qed.

Lemma zeroRange_dom fuel : ∀ h x lo hi l r t t',
  shape t h x lo hi → l ≤ hi → lo ≤ r →
  zeroRange fuel x l r t = Some t' →
  writesOnly (within x h) t t'.
Proof.
  induction fuel as [|fuel IH]; intros h x lo hi l r t t' Hs Hlhi Hlor Hrun;
    [done|].
  simpl in Hrun.
  destruct (shape_range _ _ _ _ _ Hs) as (Hx & Hlo & Hle & Hhi & Hl & Hr).
  rewrite Hl, Hr, covered_decide in Hrun. case_bool_decide as Hc.
  { simplify_eq. intros y Hy.
    apply (writesOnly_setSum x) in Hy as [Hy| ->];
      [|right; by apply within_self].
    apply (writesOnly_setTag x) in Hy as [Hy| ->];
      [by left|right; by apply within_self]. }
  inversion Hs as [|h' ? ? ? _ _ _ _ _ _ Hsl Hsr]; subst; [lia|].
  assert (Node.l (t !!! x) < Node.r (t !!! x)) as Hlt by lia.
  pose proof (mid_bounds _ _ Hlt) as Hmid.
  pose proof (sameRanges_pushDown x t) as Hsame.
  rewrite (midpoint_eq _ _ (Node.l (t !!! x)) (Node.r (t !!! x))) in Hrun;
    [|apply Hsame|apply Hsame|lia..].
  set (t0 := pushDown x t) in *.
  set (mid := (Node.l (t !!! x) + Node.r (t !!! x)) `div` 2) in *.
  destruct (if l <=? mid then _ else _) as [t1|] eqn:H1; [|done].
  simpl in Hrun.
  destruct (if mid <? r then _ else _) as [t2|] eqn:H2; [|done].
  simpl in Hrun. simplify_eq.
  assert (sameRanges t0 t1) as Hsame1.
  { destruct (_ <=? _); [by eapply zeroRange_keeps|].
    simplify_eq. apply sameRanges_refl. }
  apply (writesOnly_descend x h' t t1 t2); [done| |].
  - destruct (Z.leb_spec l mid); [|simplify_eq; apply writesOnly_refl].
    eapply IH; [| | |done]; [by eapply shape_sameRanges|lia..].
  - destruct (Z.ltb_spec mid r); [|simplify_eq; apply writesOnly_refl].
    eapply IH; [| | |done]; [eauto using shape_sameRanges|lia..].
Qed.

Lemma queryRange_dom fuel : ∀ h x lo hi l r t q t',
  shape t h x lo hi → l ≤ hi → lo ≤ r →
  queryRange fuel x l r t = Some (q, t') →
  writesOnly (within x h) t t'.
Proof.
  induction fuel as [|fuel IH];
    intros h x lo hi l r t q t' Hs Hlhi Hlor Hrun; [done|].
  simpl in Hrun.
  destruct (shape_range _ _ _ _ _ Hs) as (Hx & Hlo & Hle & Hhi & Hl & Hr).
  rewrite Hl, Hr, covered_decide in Hrun. case_bool_decide as Hc.
  { simplify_eq. apply writesOnly_refl. }
  inversion Hs as [|h' ? ? ? _ _ _ _ _ _ Hsl Hsr]; subst; [lia|].
  assert (Node.l (t !!! x) < Node.r (t !!! x)) as Hlt by lia.
  pose proof (mid_bounds _ _ Hlt) as Hmid.
  pose proof (sameRanges_pushDown x t) as Hsame.
  rewrite (midpoint_eq _ _ (Node.l (t !!! x)) (Node.r (t !!! x))) in Hrun;
    [|apply Hsame|apply Hsame|lia..].
  set (t0 := pushDown x t) in *.
  set (mid := (Node.l (t !!! x) + Node.r (t !!! x)) `div` 2) in *.
  destruct (if l <=? mid then _ else _) as [[q1 t1]|] eqn:H1; [|done].
  simpl in Hrun.
  destruct (if mid <? r then _ else _) as [[q2 t2]|] eqn:H2; [|done].
  simpl in Hrun. simplify_eq.
  assert (sameRanges t0 t1 ∧ writesOnly (within (lson x) h') t0 t1)
    as [Hsame1 Hw1].
  { destruct (Z.leb_spec l mid); [|simplify_eq; split;
      [apply sameRanges_refl|apply writesOnly_refl]].
    destruct (queryRange fuel (lson x) l r t0) as [[q0 t0']|] eqn:Hq;
      [|done].
    simpl in H1. simplify_eq. split; [by eapply queryRange_keeps|].
    eapply IH; [| | |done]; [by eapply shape_sameRanges|lia..]. }
  assert (writesOnly (within (rson x) h') t1 t') as Hw2.
  { destruct (Z.ltb_spec mid r); [|simplify_eq; apply writesOnly_refl].
    destruct (queryRange fuel (rson x) l r t1) as [[q0 t1']|] eqn:Hq;
      [|done].
    simpl in H2. simplify_eq.
    eapply IH; [| | |done]; [eauto using shape_sameRanges|lia..]. }
  intros y Hy. apply (writesOnly_descend x h' t t1 t'); auto.
  by apply dom_pushUp.
Qed.

(** The query right of the tree walks down the right spine and may push a
    tag below the last leaf. *)
Lemma queryRange_right_dom fuel : ∀ h x lo hi l r t q t',
  shape t h x lo hi → hi < l → r ≤ hi →
  queryRange fuel x l r t = Some (q, t') →
  writesOnly (λ y, x ≤ y < 2 * (x + 1) * (hi - lo + 1)) t t'.
Proof.
  induction fuel as [|fuel IH];
    intros h x lo hi l r t q t' Hs Hl' Hr' Hrun; [done|].
  simpl in Hrun.
  destruct (shape_range _ _ _ _ _ Hs) as (Hx & Hlo & Hle & Hhi & Hl & Hr).
  rewrite Hl, Hr, covered_decide in Hrun.
  case_bool_decide as Hc; [lia|].
  pose proof (sameRanges_pushDown x t) as Hsame.
  pose proof (writesOnly_pushDown x t) as Hw0.
  rewrite (midpoint_eq _ _ lo hi) in Hrun;
    [|by rewrite (proj1 (Hsame _))|by rewrite (proj2 (Hsame _))|lia..].
  set (t0 := pushDown x t) in *.
  assert (lo ≤ (lo + hi) `div` 2 ≤ hi) as Hmid.
  { split; [apply Z.div_le_lower_bound|apply Z.div_le_upper_bound]; lia. }
  set (mid := (lo + hi) `div` 2) in *.
  destruct (Z.leb_spec l mid); [lia|]. simpl in Hrun.
  assert (writesOnly (λ y, x ≤ y < 2 * (x + 1) * (hi - lo + 1)) t t0) as Hw0'.
  { eapply writesOnly_weaken; [done|].
    intros y. rewrite lson_eq, rson_eq by lia. nia. }
  destruct (Z.ltb_spec mid r); [|simpl in Hrun; by simplify_eq].
  destruct (queryRange fuel (rson x) l r t0) as [[q0 t0']|] eqn:Hq; [|done].
  simpl in Hrun. simplify_eq.
  inversion Hs as [|h' ? ? ? _ _ _ _ _ _ Hsl Hsr]; subst; [lia|].
  eapply writesOnly_trans; [done|].
  eapply writesOnly_weaken.
  - eapply (IH h' (rson x)); [| | |done]; [by eapply shape_sameRanges|lia..].
  - intros y. rewrite rson_eq by lia. subst mid.
    pose proof (Z.div_mod (Node.l (t !!! x) + Node.r (t !!! x)) 2 ltac:(lia)).
    pose proof (Z.mod_pos_bound (Node.l (t !!! x) + Node.r (t !!! x)) 2
                  ltac:(lia)).
    nia.
Qed.

(** ** The sweep stays inside the node array *)

Lemma tight_height m :
  1 ≤ m → m + 10 ≤ kMaxN →
  ∃ h : nat, (h ≤ 20)%nat ∧ m ≤ 2 ^ Z.of_nat h ∧ 2 ^ Z.of_nat h ≤ 2 * m.
Proof.
  intros Hm1 Hm2. unfold kMaxN in Hm2.
  exists (Z.to_nat (Z.log2_up m)).
  pose proof (Z.log2_up_nonneg m) as Hnn.
  rewrite Z2Nat.id by done.
  assert (Z.log2_up m ≤ 20) as Hle.
  { apply Z.log2_up_le_pow2; [lia|]. change (2 ^ 20) with 1048576. lia. }
  split; [lia|].
  destruct (decide (m = 1)) as [->|Hne]; [by vm_compute|].
  destruct (Z.log2_up_spec m ltac:(lia)) as [Hlo Hhi].
  split; [done|].
  replace (Z.log2_up m) with (Z.succ (Z.pred (Z.log2_up m))) by lia.
  rewrite Z.pow_succ_r; [lia|].
  assert (0 < Z.log2_up m) by (apply Z.log2_up_pos; lia). lia.
Qed.

Lemma within_root h m y :
  2 ^ Z.of_nat h ≤ 2 * m → within 1 h y → 1 ≤ y < 4 * m.
Proof. unfold within. lia. Qed.

Lemma Safe_step h mCols t s t' s' :
  Safe h mCols (mkState t s) →
  sameRanges t t' → writesOnly (within 1 h) t t' →
  Safe h mCols (mkState t' s').
Proof.
  intros (Hs & Hh & Hb) Hsame Hw. simpl in *.
  split; [by eapply shape_sameRanges|]. split; [done|].
  intros y Hy. apply Hw in Hy as [Hy|Hy]; [by apply Hb|].
  by eapply within_root.
Qed.

Lemma forEach_pres {A S} (body : A → S → option S) (P : S → Prop) l :
  (∀ v s s', v ∈ l → P s → body v s = Some s' → P s') →
  ∀ s s', P s → forEach body l s = Some s' → P s'.
Proof.
  induction l as [|v l IH]; intros Hbody s s' Hs Hrun; simpl in Hrun.
  - by simplify_eq.
  - destruct (body v s) as [s1|] eqn:H1; [|done]. simpl in Hrun.
    eapply IH; [| |done].
    + intros w ?? Hw. apply Hbody. by right.
    + eapply Hbody; [left|done..].
Qed.

Section SafeRow.
Context (fuel : nat) (mCols : Z) (h : nat).

Lemma boundaryStep_safe p st a st' :
  Inv fuel mCols st a → Safe h mCols st →
  1 ≤ p.1 → p.1 ≤ p.2 → p.2 ≤ mCols →
  boundaryStep fuel mCols p st = Some st' → Safe h mCols st'.
Proof.
  intros HInv HSafe Hp1 Hp12 Hp2 Hrun.
  pose proof (Inv_mCols _ _ _ _ HInv) as Hm.
  destruct HInv as (_ & _ & [Hsent Hset] & _).
  destruct p as [x y], st as [t s]; simpl in *.
  unfold boundaryStep in Hrun; simpl in Hrun.
  destruct (Z.eqb_spec y mCols) as [->|Hy]; [by simplify_eq|].
  rewrite !iadd_small in Hrun by lia.
  pose proof (lowerBoundPrev_spec (y + 2, 0) s) as Hpr.
  destruct (lowerBoundPrev _ _) as [pr|]; [|done].
  destruct Hpr as (Hprin & _). simpl in Hrun.
  destruct (if pr.2 <=? y then _ else _) as [[ans t1]|] eqn:H1; [|done].
  simpl in Hrun.
  destruct (updatePoint fuel 1 (y + 1) ans t1) as [t2|] eqn:H2; [|done].
  simpl in Hrun. simplify_eq.
  assert (Safe h mCols (mkState t1 s)) as HSafe1.
  { destruct (Z.leb_spec pr.2 y) as [Hle|Hgt]; [|by simplify_eq].
    assert (0 ≤ pr.2) by (destruct (Hset _ Hprin) as [->|?]; simpl; lia).
    rewrite iadd_small in H1 by lia.
    eapply Safe_step; [done| |].
    - by eapply queryRange_keeps.
    - eapply queryRange_dom; [apply HSafe| | |done]; lia. }
  eapply Safe_step; [done| |].
  - by eapply updatePoint_keeps.
  - eapply updatePoint_dom; [apply HSafe1|done].
Qed.

Lemma activateStep_safe p st st' :
  Safe h mCols st → 1 ≤ p.1 → p.1 ≤ p.2 → p.2 ≤ mCols →
  activateStep fuel p st = Some st' → Safe h mCols st'.
Proof.
  intros HSafe Hp1 Hp12 Hp2 Hrun. destruct st as [t s].
  unfold activateStep in Hrun. simpl in Hrun.
  destruct (zeroRange fuel 1 p.1 p.2 t) as [t1|] eqn:H1; [|done].
  simpl in Hrun. simplify_eq.
  eapply Safe_step; [done| |].
  - by eapply zeroRange_keeps.
  - eapply zeroRange_dom; [apply HSafe| | |done]; lia.
Qed.

Lemma rowStepWith_safe order (addRanges delRanges : buckets) i st a st' :
  (∀ l p, p ∈ order l ↔ p ∈ l) →
  Inv fuel mCols st a → Safe h mCols st →
  (∀ p, p ∈ addRanges !!! i → 1 ≤ p.1 ∧ p.1 ≤ p.2 ∧ p.2 ≤ mCols) →
  (∀ p, p ∈ delRanges !!! i → 1 ≤ p.1) →
  rowStepWith order fuel mCols addRanges delRanges i st = Some st' →
  Safe h mCols st'.
Proof.
  intros Hord HInv HSafe Hadds Hdels Hrun. unfold rowStepWith in Hrun.
  assert (∀ p, p ∈ order (addRanges !!! i) →
               1 ≤ p.1 ∧ p.1 ≤ p.2 ∧ p.2 ≤ mCols) as Hadded.
  { intros p Hp. by apply Hadds, (proj1 (Hord _ _)). }
  destruct (forEach (boundaryStep fuel mCols) _ st) as [st1|] eqn:H1;
    [|done].
  simpl in Hrun.
  assert ((∃ a1, Inv fuel mCols st1 a1) ∧ Safe h mCols st1) as [[a1 HInv1] HSafe1].
  { eapply (forEach_pres _
      (λ st, (∃ a, Inv fuel mCols st a) ∧ Safe h mCols st)); [| |done].
    - intros p s s' Hp [[a0 HInv0] HSafe0] Hstep.
      destruct (Hadded p Hp) as (?&?&?).
      destruct (boundaryStep_spec fuel mCols p s a0)
        as (s1 & a1 & Hs1 & HInv1 & _); auto.
      rewrite Hstep in Hs1. simplify_eq.
      split; [by eauto|]. by apply (boundaryStep_safe p s a0).
    - by eauto. }
  eapply (forEach_pres _ (Safe h mCols)); [| |done].
  - intros p s s' Hp HSafe0 Hstep. destruct (Hadded p Hp) as (?&?&?).
    by apply (activateStep_safe p s).
  - rewrite foldl_eraseStep. by destruct st1.
Qed.

End SafeRow.

Lemma initState_safe fuel mCols h (adds : buckets) st :
  (h < fuel)%nat → 1 ≤ mCols → mCols + 10 ≤ kMaxN →
  mCols ≤ 2 ^ Z.of_nat h → 2 ^ Z.of_nat h ≤ 2 * mCols →
  initState fuel mCols adds = Some st → Safe h mCols st.
Proof.
  intros Hfuel Hm1 Hm2 Hh1 Hh2 Hrun. unfold initState, kMaxN in *.
  destruct (buildTree_spec fuel h ∅ 1 1 mCols)
    as (t0 & Hbuild & Hshape & _); [lia..|].
  rewrite Hbuild in Hrun. simpl in Hrun.
  destruct (updatePoint fuel 1 1 1 t0) as [t1|] eqn:H1; [|done].
  simpl in Hrun. simplify_eq.
  assert (Safe h mCols (mkState t0 ∅)) as HSafe0.
  { split; [done|]. split; [done|]. simpl. intros y Hy.
    assert (writesOnly (within 1 h) ∅ t0) as Hw.
    { eapply (buildTree_dom fuel h); [| | | | |done]; lia. }
    apply Hw in Hy as [Hy|Hy]; [set_solver|by eapply within_root]. }
  eapply Safe_step; [done| |].
  - by eapply updatePoint_keeps.
  - eapply updatePoint_dom; [apply HSafe0|done].
Qed.

Lemma sweepWith_safe order fuel nRows mCols rects h :
  (∀ l p, p ∈ order l ↔ p ∈ l) →
  valid_input nRows mCols rects → (20 < fuel)%nat → (h < fuel)%nat →
  mCols ≤ 2 ^ Z.of_nat h → 2 ^ Z.of_nat h ≤ 2 * mCols →
  ∀ (n : nat) st,
  sweepWith order fuel mCols rects (Z.of_nat n + 1) = Some st →
  Safe h mCols st.
Proof.
  intros Hord Hvalid Hfuel Hh Hh1 Hh2 n.
  pose proof Hvalid as (Hn1 & Hn2 & Hm1 & Hm2 & Hall).
  induction n as [|n IH]; intros st Hrun.
  - rewrite sweepWith_unfold in Hrun. simpl in Hrun.
    destruct (initState fuel mCols _) as [st0|] eqn:H0; [|done].
    simpl in Hrun. simplify_eq. by eapply initState_safe.
  - destruct (sweepWith_spec order fuel nRows mCols rects Hord Hvalid Hfuel n)
      as (st1 & a1 & Hrun1 & HInv1 & _).
    specialize (IH st1 Hrun1).
    rewrite sweepWith_unfold in Hrun, Hrun1.
    replace (Z.of_nat (S n) + 1 - 1) with (Z.of_nat (S n)) in Hrun by lia.
    replace (Z.of_nat n + 1 - 1) with (Z.of_nat n) in Hrun1 by lia.
    destruct (initState fuel mCols _) as [st0|] eqn:H0; [|done].
    simpl in Hrun, Hrun1.
    rewrite seqZ_S, forEach_app, Hrun1 in Hrun. simpl in Hrun.
    destruct (rowStepWith order fuel mCols _ _ _ st1) as [st2|] eqn:H2;
      [|done].
    simpl in Hrun. simplify_eq.
    eapply rowStepWith_safe; [done..| | |done].
    + intros p. by apply (valid_addsAt nRows mCols rects).
    + intros p. by apply (valid_delsAt nRows mCols rects).
Qed.

(** ** [updatePoint] at any position *)

Lemma updatePoint_clamp fuel : ∀ t a h x lo hi pos val,
  rep t a h x lo hi → (h < fuel)%nat →
  ∃ t', updatePoint fuel x pos val t = Some t' ∧
    rep t' (aset a (clamp lo hi pos) val) h x lo hi ∧
    (∀ y, ¬ below x y → t' !!! y = t !!! y).
Proof.
  induction fuel as [|fuel IH]; intros t a h x lo hi pos val Hrep Hh; [lia|].
  destruct (rep_range _ _ _ _ _ _ Hrep) as (Hx & Hlo & Hle & Hhi & Hl & Hr).
  simpl. rewrite Hl, Hr. destruct (Z.eqb_spec lo hi) as [->|Hne].
  - eexists; split; [done|]. split.
    + apply rep_leaf; auto; rewrite lookup_setSum; case_decide; try done.
      simpl. unfold aset, clamp. case_decide; [done|lia].
    + intros y Hy. rewrite lookup_setSum. case_decide; [|done].
      subst. destruct Hy. apply below_refl.
  - assert (lo < hi) as Hlt by lia.
    pose proof (mid_bounds _ _ Hlt) as Hmid.
    destruct (pushDown_rep _ _ _ _ _ _ Hrep Hlt)
      as (h' & -> & Hl1 & Hr1 & Htag1 & _ & Hrl & Hrr).
    rewrite (midpoint_eq _ _ lo hi) by auto.
    destruct (sons_ne x Hx) as (?&?&?).
    destruct (Z.leb_spec pos ((lo + hi) `div` 2)) as [Hp|Hp].
    + destruct (IH _ _ _ _ _ _ pos val Hrl) as (t2 & -> & Hrep2 & Hf2);
        [lia|].
      simpl. destruct (Z.ltb_spec ((lo + hi) `div` 2) pos); [lia|]. simpl.
      replace (clamp lo ((lo + hi) `div` 2) pos) with (clamp lo hi pos)
        in Hrep2 by (unfold clamp; lia).
      eexists; split; [done|]. split.
      * apply rep_pushUp; auto;
          rewrite ?Hf2 by (by apply not_below_lson_self); auto.
        eapply rep_ext.
        { eapply rep_frame; [exact Hrr|]. intros y Hy. apply Hf2.
          by apply not_below_rson_lson. }
        intros p Hp'. unfold aset, clamp. case_decide; [lia|done].
      * intros y Hy. rewrite pushUp_frame, Hf2, pushDown_frame; auto.
        intros Hb. by apply Hy, below_lson.
    + simpl. destruct (Z.ltb_spec ((lo + hi) `div` 2) pos); [|lia].
      destruct (IH _ _ _ _ _ _ pos val Hrr) as (t2 & -> & Hrep2 & Hf2);
        [lia|].
      replace (clamp ((lo + hi) `div` 2 + 1) hi pos) with (clamp lo hi pos)
        in Hrep2 by (unfold clamp; lia).
      simpl. eexists; split; [done|]. split.
      * apply rep_pushUp; auto;
          rewrite ?Hf2 by (by apply not_below_rson_self); auto.
        eapply rep_ext.
        { eapply rep_frame; [exact Hrl|]. intros y Hy. apply Hf2.
          by apply not_below_lson_rson. }
        intros p Hp'. unfold aset, clamp. case_decide; [lia|done].
      * intros y Hy. rewrite pushUp_frame, Hf2, pushDown_frame; auto.
        intros Hb. by apply Hy, below_rson.
Qed.

(** A query for one position reads the array there. *)
Lemma queryRange_cell fuel mCols t a h c :
  rep t a h 1 1 mCols → (h < fuel)%nat → InRange a → 1 ≤ c ≤ mCols →
  ∃ t', queryRange fuel 1 c c t = Some (a c, t').
Proof.
  intros Hrep Hh Hin Hc.
  destruct (queryRange_spec fuel t a h 1 1 mCols c c Hrep)
    as (t' & Hq & _); auto; try lia.
  exists t'. rewrite Hq. do 2 f_equal.
  replace (Z.max c 1) with c by lia. replace (Z.min c mCols) with c by lia.
  unfold asumRange. rewrite arange_single. apply Z.mod_small, Hin.
Qed.

Lemma reduced_empty : reduced ∅.
Proof. intros y. rewrite lookup_total_empty. simpl. unfold kMod. lia. Qed.

Lemma runOp_dom fuel mCols h o t outs t' :
  shape t h 1 1 mCols → okOp mCols o →
  runOp fuel o t = Some (outs, t') → writesOnly (within 1 h) t t'.
Proof.
  intros Hs Hok Hrun. destruct o as [pos val|l r|l r]; simpl in *.
  - destruct (updatePoint fuel 1 pos val t) as [t1|] eqn:H1; [|done].
    simpl in Hrun. simplify_eq. by eapply updatePoint_dom.
  - destruct (zeroRange fuel 1 l r t) as [t1|] eqn:H1; [|done].
    simpl in Hrun. simplify_eq.
    eapply zeroRange_dom; [done| | |done]; lia.
  - destruct (queryRange fuel 1 l r t) as [[q t1]|] eqn:H1; [|done].
    simpl in Hrun. simplify_eq.
    eapply queryRange_dom; [done| | |done]; lia.
Qed.

Lemma runOps_safe fuel mCols h ops : ∀ t outs t',
  Safe h mCols (mkState t ∅) → Forall (okOp mCols) ops →
  runOps fuel ops t = Some (outs, t') → Safe h mCols (mkState t' ∅).
Proof.
  induction ops as [|o ops IH]; intros t outs t' HSafe Hok Hrun;
    simpl in Hrun; [by simplify_eq|].
  apply Forall_cons in Hok as [Ho Hok].
  destruct (runOp fuel o t) as [[out1 t1]|] eqn:H1; [|done].
  simpl in Hrun.
  destruct (runOps fuel ops t1) as [[out2 t2]|] eqn:H2; [|done].
  simpl in Hrun. simplify_eq.
  eapply IH; [|done..].
  eapply Safe_step; [done| |].
  - by eapply runOp_keeps.
  - eapply runOp_dom; [apply HSafe|done..].
Qed.

Lemma buildTree_safe fuel mCols :
  (20 < fuel)%nat → 1 ≤ mCols → mCols + 10 ≤ kMaxN →
  ∃ (h : nat) t0, (h ≤ 20)%nat ∧ mCols ≤ 2 ^ Z.of_nat h ∧
    buildTree fuel 1 1 mCols ∅ = Some t0 ∧ Safe h mCols (mkState t0 ∅) ∧
    (∀ y, Node.sum (t0 !!! y) = 0 ∧ Node.tag (t0 !!! y) = 0).
Proof.
  intros Hfuel Hm1 Hm2.
  destruct (tight_height mCols Hm1 Hm2) as (h & Hh & Hh1 & Hh2).
  unfold kMaxN in *.
  destruct (buildTree_spec fuel h ∅ 1 1 mCols)
    as (t0 & Hbuild & Hshape & _ & Hzero); [lia..|].
  exists h, t0. do 3 (split; [done|]). split.
  - split; [done|]. split; [done|]. simpl. intros y Hy.
    assert (writesOnly (within 1 h) ∅ t0) as Hw.
    { eapply (buildTree_dom fuel h); [| | | | |done]; lia. }
    apply Hw in Hy as [Hy|Hy]; [set_solver|by eapply within_root].
  - intros y. destruct (Hzero y) as [-> ->]. by rewrite lookup_total_empty.
Qed.

(** X6 (lines 47-76).  [updatePoint], [zeroRange] and [queryRange] never
    change the range [[l, r]] of a node, whatever their arguments: the
    ranges are those [buildTree] has set. *)
Theorem ops_never_change_ranges fuel ops t outs t' :
  runOps fuel ops t = Some (outs, t') → sameRanges t t'.
Proof. intros Hrun. by eapply runOps_keeps. Qed.

Lemma ops_never_change_ranges_witness :
  sameRanges
    (default ∅ (buildTree 21 1 1 3 ∅))
    (default ∅ (t ← buildTree 21 1 1 3 ∅;
                snd <$> runOps 21 [PointSet 0 5; ZeroAssign 2 9;
                                   RangeSum (-4) 3] t)).
Proof.
  apply (ops_never_change_ranges 21
           [PointSet 0 5; ZeroAssign 2 9; RangeSum (-4) 3] _ [5]).
  by vm_compute.
Defined.

(** X7 (lines 37-76).  From [buildTree] on, as long as the values handed
    to [updatePoint] are residues, every stored sum is a residue and every
    tag is 0 or 1, and every answer of [queryRange] is a residue; this
    holds for all positions and ranges, inside the tree or not.  So no
    addition of two sums leaves the range of [int]. *)
Theorem sums_stay_reduced fuel mCols ops outs t :
  (t0 ← buildTree fuel 1 1 mCols ∅; runOps fuel ops t0) = Some (outs, t) →
  Forall storesResidue ops →
  reduced t ∧ Forall (λ q, 0 ≤ q < kMod) outs.
Proof.
  intros Hrun Hops.
  destruct (buildTree fuel 1 1 mCols ∅) as [t0|] eqn:Hb; [|done].
  simpl in Hrun. eapply runOps_keeps; [done| |done].
  intros y. destruct (buildTree_keeps _ _ _ _ _ _ Hb y) as [-> ->].
  apply reduced_empty.
Qed.

Lemma sums_stay_reduced_witness :
  reduced (default ∅ (t ← buildTree 21 1 1 3 ∅;
                      snd <$> runOps 21 [PointSet 1 (kMod - 1);
                                         PointSet 2 (kMod - 1);
                                         RangeSum 0 7] t)) ∧
  Forall (λ q, 0 ≤ q < kMod) [kMod - 2].
Proof.
  apply (sums_stay_reduced 21 3
           [PointSet 1 (kMod - 1); PointSet 2 (kMod - 1); RangeSum 0 7]).
  - by vm_compute.
  - concrete_input.
Defined.

(** X8 (lines 30-36).  For up to a million columns [buildTree(1,1,mCols)]
    ends within 21 levels of recursion, assigns only to nodes with an
    index in [[1, 4 * mCols)], inside [tree[kMaxN*4]], and sets ranges
    only: every sum and tag is still zero. *)
Theorem buildTree_in_bounds fuel mCols :
  (20 < fuel)%nat → 1 ≤ mCols → mCols + 10 ≤ kMaxN →
  ∃ t0, buildTree fuel 1 1 mCols ∅ = Some t0 ∧ inBounds mCols t0 ∧
    ∀ y, Node.sum (t0 !!! y) = 0 ∧ Node.tag (t0 !!! y) = 0.
Proof.
  intros Hfuel Hm1 Hm2.
  destruct (buildTree_safe fuel mCols) as (h & t0 & _ & _ & Hb & HSafe & Hz);
    auto.
  exists t0. split; [done|]. split; [apply HSafe|done].
Qed.

Lemma buildTree_in_bounds_witness :
  ∃ t0, buildTree 21 1 1 5 ∅ = Some t0 ∧ inBounds 5 t0 ∧
    ∀ y, Node.sum (t0 !!! y) = 0 ∧ Node.tag (t0 !!! y) = 0.
Proof. apply buildTree_in_bounds; [lia|lia|unfold kMaxN; lia]. Defined.

(** X9 (lines 47-76).  In a tree state, that is after [buildTree] and
    any calls with positions and range ends in [[1, mCols]], no node with
    an index outside [[1, 4 * mCols)] has been assigned to. *)
Theorem tree_state_in_bounds fuel mCols t :
  (20 < fuel)%nat → 1 ≤ mCols → mCols + 10 ≤ kMaxN →
  treeState fuel mCols t → inBounds mCols t.
Proof.
  intros Hfuel Hm1 Hm2 (hist & outs & Hok & Hrun).
  destruct (buildTree_safe fuel mCols) as (h & t0 & _ & _ & Hb & HSafe & _);
    auto.
  rewrite Hb in Hrun. simpl in Hrun.
  by apply (runOps_safe fuel mCols h hist t0 outs t HSafe Hok Hrun).
Qed.

Lemma tree_state_in_bounds_witness :
  inBounds 3 (default ∅ (t ← buildTree 21 1 1 3 ∅;
                         snd <$> runOps 21 [ZeroAssign 1 3; PointSet 3 8;
                                            RangeSum 2 3] t)).
Proof.
  apply (tree_state_in_bounds 21 3); [lia|lia|unfold kMaxN; lia|].
  exists [ZeroAssign 1 3; PointSet 3 8; RangeSum 2 3], [8].
  split; [concrete_input|by vm_compute].
Defined.

(** X10 (lines 89-113).  On a valid input no node with an index outside
    [[1, 4 * mCols)] is assigned to, neither during the sweep nor by the
    final query, the one right of the last column included. *)
Theorem sweep_in_bounds fuel nRows mCols rects :
  (20 < fuel)%nat → valid_input nRows mCols rects →
  ∃ st it res t',
    sweep fuel mCols rects nRows = Some st ∧ inBounds mCols (seg st) ∧
    setMax (activeSegs st) = Some it ∧
    queryRange fuel 1 (iadd it.2 1) mCols (seg st) = Some (res, t') ∧
    inBounds mCols t'.
Proof.
  intros Hfuel Hvalid. pose proof Hvalid as (Hn1 & Hn2 & Hm1 & Hm2 & Hall).
  destruct (tight_height mCols Hm1 Hm2) as (h & Hh & Hh1 & Hh2).
  assert (∀ l p, p ∈ sortDesc l ↔ p ∈ l) as Hord.
  { intros l p. apply elem_of_sortDesc. }
  destruct (sweepWith_spec sortDesc fuel nRows mCols rects Hord
              Hvalid Hfuel (Z.to_nat (nRows - 1)))
    as (st & a & Hrun & HInv & _).
  pose proof (sweepWith_safe sortDesc fuel nRows mCols rects h
                Hord Hvalid Hfuel ltac:(lia) Hh1 Hh2
                (Z.to_nat (nRows - 1)) st Hrun) as HSafe.
  replace (Z.of_nat (Z.to_nat (nRows - 1)) + 1) with nRows in Hrun by lia.
  destruct (finish_spec fuel mCols st a HInv) as (it & Hmax & Hit & _ & _).
  pose proof (Inv_mCols _ _ _ _ HInv) as Hm.
  destruct HInv as ((h' & Hh' & Hrep) & Hin & [Hsent Hset] & Hzero).
  assert (0 ≤ it.2 ≤ mCols) as Hit2.
  { destruct (Hset _ Hit) as [->|?]; simpl; lia. }
  destruct HSafe as (Hshape & _ & Hb).
  exists st, it. rewrite iadd_small by lia.
  destruct (decide (it.2 < mCols)).
  - destruct (queryRange_spec fuel (seg st) a h' 1 1 mCols (it.2 + 1) mCols)
      as (t1 & Hq & _); auto; try lia.
    do 2 eexists. do 4 (split; [done|]).
    intros y Hy.
    eapply (queryRange_dom fuel h) in Hy as [Hy|Hy]; [| |done| | |done];
      [by apply Hb|by eapply within_root|lia..].
  - destruct (queryRange_right_of fuel (seg st) a h' 1 1 mCols (it.2 + 1) mCols)
      as (t1 & Hq & _); auto; try lia.
    do 2 eexists. do 4 (split; [done|]).
    intros y Hy.
    eapply (queryRange_right_dom fuel h) in Hy as [Hy|Hy];
      [| |done| | |done]; [by apply Hb|lia..].
Qed.

Lemma sweep_in_bounds_witness :
  ∃ st it res t',
    sweep 21 5 [Rect.mk 2 2 2 3; Rect.mk 4 2 5 2; Rect.mk 4 5 5 5] 5 = Some st ∧
    inBounds 5 (seg st) ∧
    setMax (activeSegs st) = Some it ∧
    queryRange 21 1 (iadd it.2 1) 5 (seg st) = Some (res, t') ∧
    inBounds 5 t'.
Proof. apply sweep_in_bounds; [lia|concrete_input]. Defined.

(** X11 (lines 47-57).  [updatePoint] at a position outside the tree
    does not fail and is not ignored: it overwrites the first position
    when [pos < 1] and the last one when [pos > mCols].  In general the
    value lands at the position of [[1, mCols]] nearest to [pos], and no
    other position changes. *)
Theorem updatePoint_clamps fuel mCols t pos val c :
  (20 < fuel)%nat → 1 ≤ mCols → mCols + 10 ≤ kMaxN →
  treeState fuel mCols t → 0 ≤ val < kMod → 1 ≤ c ≤ mCols →
  ∃ t1 q t2 t3,
    updatePoint fuel 1 pos val t = Some t1 ∧
    queryRange fuel 1 c c t = Some (q, t2) ∧
    queryRange fuel 1 c c t1 =
      Some (if decide (c = clamp 1 mCols pos) then val else q, t3).
Proof.
  intros Hfuel Hm1 Hm2 Hst Hval Hc.
  destruct (treeState_rep fuel mCols t) as (a & Hrep & Hin); auto.
  destruct (updatePoint_clamp fuel t a 20 1 1 mCols pos val Hrep)
    as (t1 & Hu & Hrep1 & _); [lia|].
  destruct (queryRange_cell fuel mCols t a 20 c) as (t2 & Hq); auto.
  destruct (queryRange_cell fuel mCols t1 _ 20 c Hrep1) as (t3 & Hq1); auto.
  { by apply InRange_aset. }
  exists t1, (a c), t2, t3. do 2 (split; [done|]). by rewrite Hq1.
Qed.

Lemma updatePoint_clamps_witness :
  ∃ t1 q t2 t3,
    updatePoint 21 1 9 7
      (default ∅ (t ← buildTree 21 1 1 4 ∅;
                  snd <$> runOps 21 [PointSet 4 5] t)) = Some t1 ∧
    queryRange 21 1 4 4
      (default ∅ (t ← buildTree 21 1 1 4 ∅;
                  snd <$> runOps 21 [PointSet 4 5] t)) = Some (q, t2) ∧
    queryRange 21 1 4 4 t1 =
      Some (if decide (4 = clamp 1 4 9) then 7 else q, t3).
Proof.
  apply (updatePoint_clamps 21 4); try lia.
  - unfold kMaxN. lia.
  - exists [PointSet 4 5], []. split; [concrete_input|by vm_compute].
  - unfold kMod. lia.
Defined.

(** X12 (lines 58-76).  A range that overhangs the tree is clipped to
    it: for [l ≤ mCols] and [1 ≤ r], [queryRange(l, r)] answers what the
    query over [[max l 1, min r mCols]] answers, and after [zeroRange(l, r)]
    every position reads what it reads after the clipped call. *)
Theorem ranges_are_clipped fuel mCols t l r :
  (20 < fuel)%nat → 1 ≤ mCols → mCols + 10 ≤ kMaxN →
  treeState fuel mCols t → l ≤ mCols → 1 ≤ r →
  (∃ q t1 t2,
     queryRange fuel 1 l r t = Some (q, t1) ∧
     queryRange fuel 1 (Z.max l 1) (Z.min r mCols) t = Some (q, t2)) ∧
  (∃ t1 t2,
     zeroRange fuel 1 l r t = Some t1 ∧
     zeroRange fuel 1 (Z.max l 1) (Z.min r mCols) t = Some t2 ∧
     ∀ c, 1 ≤ c ≤ mCols →
       ∃ q t3 t4, queryRange fuel 1 c c t1 = Some (q, t3) ∧
                  queryRange fuel 1 c c t2 = Some (q, t4)).
Proof.
  intros Hfuel Hm1 Hm2 Hst Hl Hr.
  destruct (treeState_rep fuel mCols t) as (a & Hrep & Hin); auto.
  split.
  - destruct (queryRange_spec fuel t a 20 1 1 mCols l r Hrep)
      as (t1 & Hq1 & _); auto.
    destruct (queryRange_spec fuel t a 20 1 1 mCols
                (Z.max l 1) (Z.min r mCols) Hrep)
      as (t2 & Hq2 & _); auto; try lia.
    exists (asumRange a (Z.max l 1) (Z.min r mCols)), t1, t2.
    split; [done|]. rewrite Hq2. do 3 f_equal; lia.
  - destruct (zeroRange_spec fuel t a 20 1 1 mCols l r Hrep)
      as (t1 & Hz1 & Hrep1 & _); auto.
    destruct (zeroRange_spec fuel t a 20 1 1 mCols
                (Z.max l 1) (Z.min r mCols) Hrep)
      as (t2 & Hz2 & Hrep2 & _); auto; try lia.
    exists t1, t2. do 2 (split; [done|]). intros c Hc.
    destruct (queryRange_cell fuel mCols t1 _ 20 c Hrep1) as (t3 & Hq3);
      auto using InRange_azero.
    destruct (queryRange_cell fuel mCols t2 _ 20 c Hrep2) as (t4 & Hq4);
      auto using InRange_azero.
    exists (azero a l r c), t3, t4. split; [done|]. rewrite Hq4.
    do 2 f_equal. unfold azero. repeat case_decide; done || lia.
Qed.

Lemma ranges_are_clipped_witness :
  (∃ q t1 t2,
     queryRange 21 1 (-3) 2
       (default ∅ (t ← buildTree 21 1 1 4 ∅;
                   snd <$> runOps 21 [PointSet 1 5; PointSet 4 6] t))
       = Some (q, t1) ∧
     queryRange 21 1 (Z.max (-3) 1) (Z.min 2 4)
       (default ∅ (t ← buildTree 21 1 1 4 ∅;
                   snd <$> runOps 21 [PointSet 1 5; PointSet 4 6] t))
       = Some (q, t2)) ∧
  (∃ t1 t2,
     zeroRange 21 1 (-3) 2
       (default ∅ (t ← buildTree 21 1 1 4 ∅;
                   snd <$> runOps 21 [PointSet 1 5; PointSet 4 6] t))
       = Some t1 ∧
     zeroRange 21 1 (Z.max (-3) 1) (Z.min 2 4)
       (default ∅ (t ← buildTree 21 1 1 4 ∅;
                   snd <$> runOps 21 [PointSet 1 5; PointSet 4 6] t))
       = Some t2 ∧
     ∀ c, 1 ≤ c ≤ 4 →
       ∃ q t3 t4, queryRange 21 1 c c t1 = Some (q, t3) ∧
                  queryRange 21 1 c c t2 = Some (q, t4)).
Proof.
  apply (ranges_are_clipped 21 4); try lia.
  - unfold kMaxN. lia.
  - exists [PointSet 1 5; PointSet 4 6], [].
    split; [concrete_input|by vm_compute].
Defined.

(** X13 (lines 40-46).  [pushDown] leaves the values a subtree stands
    for as they are, and the node's own tag is clear afterwards. *)
Theorem pushDown_keeps_contents t a h x lo hi :
  rep t a h x lo hi →
  rep (pushDown x t) a h x lo hi ∧ Node.tag (pushDown x t !!! x) = 0.
Proof.
  intros Hrep.
  destruct (rep_range _ _ _ _ _ _ Hrep) as (Hx & Hlo & Hle & Hhi & Hl & Hr).
  split; [|by rewrite lookup_pushDown_self].
  destruct (decide (lo = hi)) as [->|Hne].
  - inversion Hrep; subst; try lia.
    apply rep_leaf; auto; by rewrite lookup_pushDown_self.
  - destruct (pushDown_rep t a h x lo hi Hrep)
      as (h' & -> & ? & ? & ? & ? & ? & ?); [lia|].
    apply rep_node; auto. lia.
Qed.

Lemma pushDown_keeps_contents_witness :
  rep (pushDown 1 (default ∅ (t ← buildTree 21 1 1 2 ∅; zeroRange 21 1 1 2 t)))
      (λ _, 0) 1 1 1 2 ∧
  Node.tag (pushDown 1 (default ∅ (t ← buildTree 21 1 1 2 ∅;
                                   zeroRange 21 1 1 2 t)) !!! 1) = 0.
Proof.
  apply pushDown_keeps_contents.
  apply rep_tagged; try done.
  - apply shape_leaf; done.
  - apply shape_leaf; done.
Defined.

(** ** More on the sweep *)

Section ZeroRows.
Context (fuel : nat) (mCols : Z).

Lemma boundaryStep_zero p st a :
  Inv fuel mCols st a → (∀ c, 1 ≤ c ≤ mCols → a c = 0) →
  1 ≤ p.1 → p.1 ≤ p.2 → p.2 ≤ mCols →
  ∃ st' a', boundaryStep fuel mCols p st = Some st' ∧
    Inv fuel mCols st' a' ∧ (∀ c, 1 ≤ c ≤ mCols → a' c = 0).
Proof.
  intros HInv Hz Hp1 Hp12 Hp2. pose proof (Inv_mCols _ _ _ _ HInv) as Hm.
  pose proof HInv as ((h & Hh & Hrep) & Hin & [Hsent Hset] & Hzero).
  destruct p as [x y]; simpl in *. unfold boundaryStep; simpl.
  destruct (Z.eqb_spec y mCols) as [->|Hy]; [by exists st, a|].
  rewrite !iadd_small by lia.
  pose proof (lowerBoundPrev_spec (y + 2, 0) (activeSegs st)) as Hpr.
  destruct (lowerBoundPrev _ _) as [pr|]; last first.
  { destruct (Hpr _ Hsent). left. simpl. lia. }
  destruct Hpr as (Hprin & _). simpl.
  assert (0 ≤ pr.2) by (destruct (Hset _ Hprin) as [->|?]; simpl; lia).
  assert (∃ t1,
    (if pr.2 <=? y
     then queryRange fuel 1 (iadd pr.2 1) (y + 1) (seg st)
     else Some (0, seg st)) = Some (0, t1) ∧ rep t1 a h 1 1 mCols)
    as (t1 & -> & Hrep1).
  { destruct (Z.leb_spec pr.2 y) as [Hle|Hgt]; [|by eauto].
    rewrite iadd_small by lia.
    destruct (queryRange_spec fuel (seg st) a h 1 1 mCols (pr.2 + 1) (y + 1))
      as (t1 & -> & Hrep1 & _); auto; try lia.
    exists t1. split; [|done]. do 2 f_equal.
    unfold asumRange. rewrite arange_zero; [done|].
    intros c Hc. apply Hz. lia. }
  simpl.
  destruct (updatePoint_spec fuel t1 a h 1 1 mCols (y + 1) 0)
    as (t2 & -> & Hrep2 & _); auto; try lia.
  simpl. exists (mkState t2 (activeSegs st)), (aset a (y + 1) 0).
  split; [done|].
  assert (∀ c, 1 ≤ c ≤ mCols → aset a (y + 1) 0 c = 0) as Hz'.
  { intros c Hc. unfold aset. case_decide; auto. }
  split; [|done].
  split; [by eauto|]. split; [|split; [done|]].
  - apply InRange_aset; [done|by unfold kMod].
  - intros q c Hq Hc Hc2. simpl in Hq. apply Hz'.
    destruct (Hset _ Hq) as [->|?]; simpl in *; lia.
Qed.

Lemma boundary_loop_zero l : ∀ st a,
  Inv fuel mCols st a → (∀ c, 1 ≤ c ≤ mCols → a c = 0) →
  (∀ p, p ∈ l → 1 ≤ p.1 ∧ p.1 ≤ p.2 ∧ p.2 ≤ mCols) →
  ∃ st' a', forEach (boundaryStep fuel mCols) l st = Some st' ∧
    Inv fuel mCols st' a' ∧ (∀ c, 1 ≤ c ≤ mCols → a' c = 0).
Proof.
  induction l as [|p l IH]; intros st a HInv Hz Hl; simpl.
  - by exists st, a.
  - destruct (Hl p) as (?&?&?); [left|].
    destruct (boundaryStep_zero p st a) as (st1 & a1 & -> & HInv1 & Hz1);
      auto.
    simpl. apply (IH st1 a1); auto. intros q Hq. apply Hl. by right.
Qed.

Lemma activate_loop_cleared l : ∀ st a,
  Inv fuel mCols st a →
  (∀ p, p ∈ l → 1 ≤ p.1 ∧ p.1 ≤ p.2 ∧ p.2 ≤ mCols) →
  ∃ st' a', forEach (activateStep fuel) l st = Some st' ∧
    Inv fuel mCols st' a' ∧
    (∀ c, a c = 0 → a' c = 0) ∧
    (∀ p c, p ∈ l → p.1 ≤ c ≤ p.2 → a' c = 0).
Proof.
  induction l as [|p l IH]; intros st a HInv Hl; simpl.
  - exists st, a. do 3 (split; [done|]).
    intros p c Hp. by apply elem_of_nil in Hp.
  - destruct (Hl p) as (?&?&?); [left|].
    destruct (activateStep_spec fuel mCols p st a) as (st1 & -> & HInv1 & _);
      auto.
    simpl. destruct (IH st1 _ HInv1) as (st' & a' & -> & HInv' & Hz & Hcl).
    { intros q Hq. apply Hl. by right. }
    exists st', a'. do 2 (split; [done|]). split.
    + intros c Ha. apply Hz. unfold azero. by case_decide.
    + intros q c [->|Hq]%elem_of_cons Hc; [|by eauto].
      apply Hz. unfold azero. by case_decide.
Qed.

Lemma rowStepWith_zero order (addRanges delRanges : buckets) i st a :
  (∀ l p, p ∈ order l ↔ p ∈ l) →
  Inv fuel mCols st a →
  (∀ p, p ∈ addRanges !!! i → 1 ≤ p.1 ∧ p.1 ≤ p.2 ∧ p.2 ≤ mCols) →
  (∀ p, p ∈ delRanges !!! i → 1 ≤ p.1) →
  (∀ c, 1 ≤ c ≤ mCols → a c = 0) ∨ (1, mCols) ∈ addRanges !!! i →
  ∃ st' a', rowStepWith order fuel mCols addRanges delRanges i st = Some st' ∧
    Inv fuel mCols st' a' ∧ (∀ c, 1 ≤ c ≤ mCols → a' c = 0).
Proof.
  intros Hord HInv Hadds Hdels Hcase. unfold rowStepWith.
  assert (∀ p, p ∈ order (addRanges !!! i) →
               1 ≤ p.1 ∧ p.1 ≤ p.2 ∧ p.2 ≤ mCols) as Hadded.
  { intros p Hp. by apply Hadds, (proj1 (Hord _ _)). }
  assert (∃ st1 a1,
    forEach (boundaryStep fuel mCols) (order (addRanges !!! i)) st = Some st1 ∧
    Inv fuel mCols st1 a1 ∧
    ((∀ c, 1 ≤ c ≤ mCols → a1 c = 0) ∨ (1, mCols) ∈ addRanges !!! i))
    as (st1 & a1 & -> & HInv1 & Hcase1).
  { destruct Hcase as [Hz|Hwall].
    - destruct (boundary_loop_zero _ st a HInv Hz Hadded)
        as (st1 & a1 & ? & ? & ?). eauto 6.
    - destruct (boundary_loop fuel mCols _ st a HInv Hadded)
        as (st1 & a1 & ? & ? & _). eauto 6. }
  simpl.
  destruct (activate_loop_cleared (order (addRanges !!! i))
              (foldl (λ st segRange, eraseStep segRange st) st1
                     (delRanges !!! i)) a1)
    as (st' & a' & -> & HInv' & Hz & Hcl); auto using erase_Inv.
  exists st', a'. do 2 (split; [done|]). intros c Hc.
  destruct Hcase1 as [Hz1|Hwall]; [by auto|].
  apply (Hcl (1, mCols)); [by apply Hord|done].
Qed.

End ZeroRows.

Lemma sweepWith_wall order fuel nRows mCols rects o :
  (∀ l p, p ∈ order l ↔ p ∈ l) →
  valid_input nRows mCols rects → (20 < fuel)%nat →
  o ∈ rects → 2 ≤ Rect.x1 o → Rect.y1 o = 1 → Rect.y2 o = mCols →
  ∀ n : nat, Rect.x1 o ≤ Z.of_nat n + 1 →
  ∃ st a, sweepWith order fuel mCols rects (Z.of_nat n + 1) = Some st ∧
    Inv fuel mCols st a ∧ (∀ c, 1 ≤ c ≤ mCols → a c = 0).
Proof.
  intros Hord Hvalid Hfuel Ho Hx1 Hy1 Hy2 n.
  induction n as [|n IH]; intros Hn; [lia|].
  assert (∃ st a,
    sweepWith order fuel mCols rects (Z.of_nat n + 1) = Some st ∧
    Inv fuel mCols st a ∧
    ((∀ c, 1 ≤ c ≤ mCols → a c = 0) ∨
     (1, mCols) ∈ (readRects rects).1 !!! (2 + Z.of_nat n)))
    as (st & a & Hrun & HInv & Hcase).
  { destruct (decide (Rect.x1 o = 2 + Z.of_nat n)) as [Heq|Hne].
    - destruct (sweepWith_spec order fuel nRows mCols rects Hord Hvalid
                  Hfuel n) as (st & a & Hrun & HInv & _).
      exists st, a. do 2 (split; [done|]).
      right. apply (elem_of_addsAt rects). exists o.
      unfold Rect.cols. by rewrite Hy1, Hy2.
    - destruct IH as (st & a & Hrun & HInv & Hz); [lia|]. eauto 6. }
  rewrite sweepWith_unfold in Hrun |- *.
  replace (Z.of_nat (S n) + 1 - 1) with (Z.of_nat (S n)) by lia.
  replace (Z.of_nat n + 1 - 1) with (Z.of_nat n) in Hrun by lia.
  destruct (initState fuel mCols _) as [st0|]; [|done]. simpl in *.
  rewrite seqZ_S, forEach_app, Hrun. simpl.
  destruct (rowStepWith_zero fuel mCols order (readRects rects).1
              (readRects rects).2 (2 + Z.of_nat n) st a)
    as (st' & a' & -> & HInv' & Hz'); auto.
  - intros p. by apply (valid_addsAt nRows mCols rects).
  - intros p. by apply (valid_delsAt nRows mCols rects).
  - simpl. eauto.
Qed.

Lemma main_answer fuel nRows mCols rects :
  (20 < fuel)%nat → valid_input nRows mCols rects →
  ∃ st a it,
    sweep fuel mCols rects nRows = Some st ∧ Inv fuel mCols st a ∧
    it ∈ activeSegs st ∧ (∀ q, q ∈ activeSegs st → pair_le q it) ∧
    main fuel nRows mCols rects = Some (asumRange a (it.2 + 1) mCols).
Proof.
  intros Hfuel Hvalid.
  assert (∀ l p, p ∈ sortDesc l ↔ p ∈ l) as Hord.
  { intros l p. apply elem_of_sortDesc. }
  destruct (sweepWith_spec sortDesc fuel nRows mCols rects Hord Hvalid Hfuel
              (Z.to_nat (nRows - 1))) as (st & a & Hrun & HInv & _).
  destruct Hvalid as (?&_).
  replace (Z.of_nat (Z.to_nat (nRows - 1)) + 1) with nRows in Hrun by lia.
  destruct (finish_spec fuel mCols st a HInv) as (it & _ & Hit & Hmax & Hfin).
  exists st, a, it. do 4 (split; [done|]).
  unfold main. by rewrite mainWith_unfold, Hrun.
Qed.

(** X14 (lines 81-113).  On every valid input the program prints a
    residue: a number from 0 to [kMod - 1]. *)
Theorem main_answer_range fuel nRows mCols rects :
  (20 < fuel)%nat → valid_input nRows mCols rects →
  ∃ res, main fuel nRows mCols rects = Some res ∧ 0 ≤ res < kMod.
Proof.
  intros Hfuel Hvalid.
  destruct (main_answer fuel nRows mCols rects)
    as (st & a & it & _ & _ & _ & _ & ->); auto.
  eexists. split; [done|]. apply asumRange_bounds.
Qed.

Lemma main_answer_range_witness :
  ∃ res, main 21 5 5 [Rect.mk 2 2 2 3; Rect.mk 4 2 5 2; Rect.mk 4 4 4 4]
         = Some res ∧ 0 ≤ res < kMod.
Proof. apply main_answer_range; [lia|concrete_input]. Defined.

(** X15 (lines 89-93, 112-113).  On a grid of one row the answer is 0 as
    soon as there is a rectangle: every rectangle lies in row 1, so the
    greatest active interval ends at a column [≥ 1], and right of it
    nothing has been written. *)
Theorem main_single_row fuel mCols rects :
  (20 < fuel)%nat → valid_input 1 mCols rects → rects ≠ [] →
  main fuel 1 mCols rects = Some 0.
Proof.
  intros Hfuel Hvalid Hne.
  pose proof Hvalid as (_ & _ & Hm1 & Hm2 & Hall).
  unfold main. rewrite mainWith_unfold, sweepWith_unfold. simpl.
  destruct (initState_spec fuel mCols (readRects rects).1)
    as (st & -> & HInv & Hs); auto.
  { intros p. by apply (valid_addsAt 1 mCols rects 1). }
  simpl.
  destruct (finish_spec fuel mCols st _ HInv) as (it & _ & Hit & Hmax & ->).
  f_equal. unfold asumRange. rewrite arange_zero; [done|].
  intros c Hc. unfold aset. case_decide; [|done].
  destruct rects as [|o rects]; [done|].
  apply Forall_cons in Hall as [(?&?&?&?&?&?) _].
  assert (Rect.cols o ∈ activeSegs st) as Ho.
  { rewrite Hs. apply elem_of_union_l, elem_of_list_to_set.
    apply (elem_of_addsAt (o :: rects)). exists o.
    split; [left|]. split; [lia|done]. }
  specialize (Hmax _ Ho).
  destruct HInv as (_ & _ & [_ Hset] & _).
  destruct (Hset _ Hit) as [->|?];
    unfold pair_le, Rect.cols in Hmax; simpl in *; lia.
Qed.

Lemma main_single_row_witness : main 21 1 4 [Rect.mk 1 2 1 3] = Some 0.
Proof. apply main_single_row; [lia|concrete_input|done]. Defined.

(** X16 (lines 94-113).  A rectangle that starts at a row [≥ 2] and
    spans all the columns leaves nothing to count: the answer is 0,
    whatever the other rectangles are and wherever they lie. *)
Theorem main_full_width_wall fuel nRows mCols rects o :
  (20 < fuel)%nat → valid_input nRows mCols rects →
  o ∈ rects → 2 ≤ Rect.x1 o → Rect.y1 o = 1 → Rect.y2 o = mCols →
  main fuel nRows mCols rects = Some 0.
Proof.
  intros Hfuel Hvalid Ho Hx1 Hy1 Hy2.
  assert (∀ l p, p ∈ sortDesc l ↔ p ∈ l) as Hord.
  { intros l p. apply elem_of_sortDesc. }
  pose proof Hvalid as (_ & _ & _ & _ & Hall).
  rewrite Forall_forall in Hall. destruct (Hall o Ho) as (_&?&?&_).
  destruct (sweepWith_wall sortDesc fuel nRows mCols rects o Hord Hvalid
              Hfuel Ho Hx1 Hy1 Hy2 (Z.to_nat (nRows - 1)))
    as (st & a & Hrun & HInv & Hz); [lia|].
  replace (Z.of_nat (Z.to_nat (nRows - 1)) + 1) with nRows in Hrun by lia.
  unfold main. rewrite mainWith_unfold, Hrun. simpl.
  destruct (finish_spec fuel mCols st a HInv) as (it & _ & Hit & _ & ->).
  f_equal. unfold asumRange. rewrite arange_zero; [done|].
  intros c Hc. apply Hz.
  destruct HInv as (_ & _ & [_ Hset] & _).
  destruct (Hset _ Hit) as [->|?]; simpl in *; lia.
Qed.

Lemma main_full_width_wall_witness :
  main 21 4 3 [Rect.mk 3 2 3 2; Rect.mk 2 1 2 3; Rect.mk 4 1 4 1] = Some 0.
Proof.
  apply (main_full_width_wall 21 4 3 _ (Rect.mk 2 1 2 3));
    [lia|concrete_input| |simpl; lia|done|done].
  apply elem_of_cons. right. left.
Defined.

(** ** The buckets *)

Lemma readRects_dom rects : ∀ (adds dels : buckets) i,
  let res :=
    foldl (λ '(adds, dels) o,
             (push_back (Rect.x1 o) (Rect.cols o) adds,
              push_back (iadd (Rect.x2 o) 1) (Rect.cols o) dels))
          (adds, dels) rects in
  (i ∈ dom res.1 → i ∈ dom adds ∨ ∃ o, o ∈ rects ∧ Rect.x1 o = i) ∧
  (i ∈ dom res.2 →
   i ∈ dom dels ∨ ∃ o, o ∈ rects ∧ iadd (Rect.x2 o) 1 = i).
Proof.
  induction rects as [|o rects IH]; intros adds dels i; simpl; [by auto|].
  destruct (IH (push_back (Rect.x1 o) (Rect.cols o) adds)
               (push_back (iadd (Rect.x2 o) 1) (Rect.cols o) dels) i)
    as [Ha Hd].
  unfold push_back in Ha, Hd. rewrite dom_insert_L in Ha, Hd. split.
  - intros Hi. destruct (Ha Hi) as [[->%elem_of_singleton|?]%elem_of_union|(o' & ? & ?)];
      [right; exists o; split; [left|done]|by left|].
    right. exists o'. split; [by right|done].
  - intros Hi. destruct (Hd Hi) as [[->%elem_of_singleton|?]%elem_of_union|(o' & ? & ?)];
      [right; exists o; split; [left|done]|by left|].
    right. exists o'. split; [by right|done].
Qed.

(** X17 (lines 79, 83-88).  On a valid input the input loop appends to
    buckets with an index from 1 to [nRows + 1] only, inside the arrays
    of 1000010 vectors. *)
Theorem bucket_indices_in_bounds nRows mCols rects i :
  valid_input nRows mCols rects →
  i ∈ dom (readRects rects).1 ∨ i ∈ dom (readRects rects).2 →
  1 ≤ i ≤ nRows + 1 ∧ i < 1000010.
Proof.
  intros Hvalid Hi.
  pose proof Hvalid as (_ & Hn & _ & _ & Hall). unfold kMaxN in Hn.
  rewrite Forall_forall in Hall.
  destruct (readRects_dom rects ∅ ∅ i) as [Ha Hd].
  destruct Hi as [Hi|Hi].
  - destruct (Ha Hi) as [?|(o & Ho & <-)]; [set_solver|].
    destruct (Hall o Ho) as (?&?&?&_). lia.
  - destruct (Hd Hi) as [?|(o & Ho & <-)]; [set_solver|].
    destruct (valid_x2_succ _ _ _ o Hvalid Ho) as [-> (?&?&?&_)]. lia.
Qed.

Lemma bucket_indices_in_bounds_witness :
  1 ≤ 4 ≤ 3 + 1 ∧ 4 < 1000010.
Proof.
  apply (bucket_indices_in_bounds 3 3 [Rect.mk 2 2 3 3] 4);
    [concrete_input|].
  right. by vm_compute.
Defined.

Lemma filter_ext_Forall {A} (P Q : A → Prop) `{!∀ x, Decision (P x)}
    `{!∀ x, Decision (Q x)} (l : list A) :
  Forall (λ x, P x ↔ Q x) l → filter P l = filter Q l.
Proof.
  induction 1 as [|x l Hx _ IH]; [done|].
  rewrite !filter_cons, IH. repeat case_decide; tauto.
Qed.

(** X18 (lines 83-88).  After the input loop the bucket [addRanges[i]]
    holds the column intervals of the rectangles that start at row [i],
    and [delRanges[i]] those of the rectangles that end at row [i - 1],
    each in the order of the input and with its duplicates. *)
Theorem bucket_contents nRows mCols rects i :
  valid_input nRows mCols rects →
  addsAt rects i = Rect.cols <$> filter (λ o, Rect.x1 o = i) rects ∧
  delsAt rects i = Rect.cols <$> filter (λ o, Rect.x2 o + 1 = i) rects.
Proof.
  intros Hvalid. split; [apply addsAt_filter|].
  rewrite delsAt_filter. f_equal. apply filter_ext_Forall.
  apply Forall_forall. intros o Ho.
  by destruct (valid_x2_succ _ _ _ o Hvalid Ho) as [-> _].
Qed.

Lemma bucket_contents_witness :
  addsAt [Rect.mk 2 1 2 1; Rect.mk 1 3 2 3; Rect.mk 2 1 3 1] 2 =
    Rect.cols <$> filter (λ o, Rect.x1 o = 2)
                    [Rect.mk 2 1 2 1; Rect.mk 1 3 2 3; Rect.mk 2 1 3 1] ∧
  delsAt [Rect.mk 2 1 2 1; Rect.mk 1 3 2 3; Rect.mk 2 1 3 1] 2 =
    Rect.cols <$> filter (λ o, Rect.x2 o + 1 = 2)
                    [Rect.mk 2 1 2 1; Rect.mk 1 3 2 3; Rect.mk 2 1 3 1].
Proof. apply (bucket_contents 3 3). concrete_input. Defined.

(** X19 (lines 100, 112).  The two lookups in [activeSegs] step before
    [begin()] in one case each: [lower_bound(key)] followed by [it--]
    when no member is below [key], and [end()] followed by [it--] when
    the set is empty. *)
Theorem lookup_fails_iff (key : interval) (s : gset interval) :
  (lowerBoundPrev key s = None ↔ ∀ q, q ∈ s → ¬ pair_lt q key) ∧
  (setMax s = None ↔ s = ∅).
Proof.
  split.
  - pose proof (lowerBoundPrev_spec key s) as H.
    destruct (lowerBoundPrev key s) as [p|]; [|done].
    destruct H as (Hp & Hlt & _). split; [done|].
    intros Hno. by destruct (Hno p Hp).
  - pose proof (setMax_spec s) as H.
    destruct (setMax s) as [p|]; [|done].
    destruct H as [Hp _]. split; [done|]. intros ->. set_solver.
Qed.

Lemma forEach_ext_in {A S} (body body' : A → S → option S) l s :
  (∀ v s, v ∈ l → body v s = body' v s) →
  forEach body l s = forEach body' l s.
Proof.
  revert s. induction l as [|v l IH]; intros s Hext; simpl; [done|].
  rewrite Hext by left. destruct (body' v s); simpl; [|done].
  apply IH. intros w s' Hw. apply Hext. by right.
Qed.

(** X20 (lines 89-111).  The sweep works row by row on what the input
    holds for the rows so far: the state after row [i] is the same with
    and without the rectangles that start below row [i]. *)
Theorem sweep_ignores_later_rows fuel nRows mCols rects i :
  valid_input nRows mCols rects → 1 ≤ i →
  sweep fuel mCols (filter (λ o, Rect.x1 o ≤ i) rects) i =
    sweep fuel mCols rects i.
Proof.
  intros Hvalid Hi. unfold sweep. rewrite !sweepWith_unfold.
  assert (∀ j, j ≤ i →
    (readRects (filter (λ o, Rect.x1 o ≤ i) rects)).1 !!! j =
      (readRects rects).1 !!! j ∧
    (readRects (filter (λ o, Rect.x1 o ≤ i) rects)).2 !!! j =
      (readRects rects).2 !!! j) as Heq.
  { intros j Hj.
    change ((readRects ?r).1 !!! j) with (addsAt r j).
    change ((readRects ?r).2 !!! j) with (delsAt r j).
    rewrite !addsAt_filter, !delsAt_filter. split; f_equal.
    - apply list_filter_filter_l. intros o. lia.
    - rewrite list_filter_filter. apply filter_ext_Forall.
      apply Forall_forall. intros o Ho.
      destruct (valid_x2_succ _ _ _ o Hvalid Ho) as [-> (?&?&_)]. lia. }
  assert (initState fuel mCols
            (readRects (filter (λ o, Rect.x1 o ≤ i) rects)).1 =
          initState fuel mCols (readRects rects).1) as ->.
  { unfold initState. by rewrite (proj1 (Heq 1 Hi)). }
  destruct (initState fuel mCols (readRects rects).1) as [st|]; [|done].
  simpl. apply forEach_ext_in. intros j s [_ Hj]%elem_of_seqZ.
  unfold rowStepWith. destruct (Heq j) as [-> ->]; [lia|done].
Qed.

Lemma sweep_ignores_later_rows_witness :
  sweep 21 4
    (filter (λ o, Rect.x1 o ≤ 2)
       [Rect.mk 2 2 3 3; Rect.mk 3 1 3 1; Rect.mk 4 4 4 4]) 2 =
  sweep 21 4 [Rect.mk 2 2 3 3; Rect.mk 3 1 3 1; Rect.mk 4 4 4 4] 2.
Proof.
  apply (sweep_ignores_later_rows 21 4 4); [concrete_input|lia].
Defined.

(** ** Calls outside the tree *)

Lemma rangesIn_same m t t' : rangesIn m t → sameRanges t t' → rangesIn m t'.
Proof. intros Ht Hsame y. destruct (Hsame y) as [-> ->]. apply Ht. Qed.

Lemma buildTree_rangesIn m fuel : ∀ x l r t t',
  0 ≤ l → l ≤ r → r ≤ m → m < 2 ^ 30 → rangesIn m t →
  buildTree fuel x l r t = Some t' → rangesIn m t'.
Proof.
  induction fuel as [|fuel IH]; intros x l r t t' Hl Hlr Hr Hm Ht Hrun;
    [done|].
  simpl in Hrun.
  assert (rangesIn m (setRange x l r t)) as Ht0.
  { intros y. rewrite lookup_setRange. case_decide; [simpl; lia|apply Ht]. }
  destruct (Z.eqb_spec l r) as [->|Hne]; [by simplify_eq|].
  assert (l < r) as Hlt by lia.
  pose proof (mid_bounds _ _ Hlt) as Hmid.
  rewrite (iadd_small l r), shiftr_1 in Hrun by lia.
  rewrite iadd_small in Hrun by lia.
  destruct (buildTree fuel (lson x) _ _ _) as [t1|] eqn:H1; [|done].
  simpl in Hrun.
  eapply (IH (rson x)); [| | | | |done]; try lia.
  eapply (IH (lson x)); [| | | | |done]; try lia. done.
Qed.

Lemma treeState_rangesIn fuel mCols t :
  1 ≤ mCols → mCols + 10 ≤ kMaxN → treeState fuel mCols t →
  rangesIn mCols t.
Proof.
  intros Hm1 Hm2 (hist & outs & _ & Hrun). unfold kMaxN in Hm2.
  destruct (buildTree fuel 1 1 mCols ∅) as [t0|] eqn:Hb; [|done].
  simpl in Hrun. eapply rangesIn_same; [|by eapply runOps_keeps].
  eapply buildTree_rangesIn; [| | | | |done]; try lia.
  intros y. rewrite lookup_total_empty. simpl. lia.
Qed.

Lemma outside_not_covered m t x l r :
  rangesIn m t → l ≤ r → m < l ∨ r < 0 →
  (l <=? Node.l (t !!! x)) && (Node.r (t !!! x) <=? r) = false.
Proof.
  intros Ht Hlr Hout. destruct (Ht x) as [[??] ?].
  apply andb_false_iff. destruct Hout.
  - left. apply Z.leb_gt. lia.
  - right. apply Z.leb_gt. lia.
Qed.

Lemma outside_midpoint m t x :
  rangesIn m t → m < 2 ^ 30 → 0 ≤ midpoint x (pushDown x t) ≤ m.
Proof.
  intros Ht Hm.
  pose proof (rangesIn_same _ _ _ Ht (sameRanges_pushDown x t) x) as [[??] ?].
  rewrite (midpoint_eq _ _ _ _ eq_refl eq_refl) by lia.
  split; [apply Z.div_pos|apply Z.div_le_upper_bound]; lia.
Qed.

Lemma queryRange_outside m l r fuel : ∀ x t,
  rangesIn m t → m < 2 ^ 30 → l ≤ r → m < l ∨ r < 0 →
  queryRange fuel x l r t = None.
Proof.
  induction fuel as [|fuel IH]; intros x t Ht Hm Hlr Hout; [done|].
  simpl. rewrite (outside_not_covered m) by done.
  pose proof (outside_midpoint m t x Ht Hm) as Hmid.
  pose proof (rangesIn_same _ _ _ Ht (sameRanges_pushDown x t)) as Ht0.
  destruct Hout as [Hright|Hleft].
  - destruct (Z.leb_spec l (midpoint x (pushDown x t))); [lia|]. simpl.
    destruct (Z.ltb_spec (midpoint x (pushDown x t)) r); [|lia].
    by rewrite IH by auto.
  - destruct (Z.leb_spec l (midpoint x (pushDown x t))); [|lia].
    by rewrite IH by auto.
Qed.

Lemma zeroRange_outside m l r fuel : ∀ x t,
  rangesIn m t → m < 2 ^ 30 → l ≤ r → m < l ∨ r < 0 →
  zeroRange fuel x l r t = None.
Proof.
  induction fuel as [|fuel IH]; intros x t Ht Hm Hlr Hout; [done|].
  simpl. rewrite (outside_not_covered m) by done.
  pose proof (outside_midpoint m t x Ht Hm) as Hmid.
  pose proof (rangesIn_same _ _ _ Ht (sameRanges_pushDown x t)) as Ht0.
  destruct Hout as [Hright|Hleft].
  - destruct (Z.leb_spec l (midpoint x (pushDown x t))); [lia|]. simpl.
    destruct (Z.ltb_spec (midpoint x (pushDown x t)) r); [|lia].
    by rewrite IH by auto.
  - destruct (Z.leb_spec l (midpoint x (pushDown x t))); [|lia].
    by rewrite IH by auto.
Qed.

(** X21 (lines 58-76).  A range that is not empty and lies wholly right
    of the tree ([mCols < l ≤ r]) or wholly left of 0 ([l ≤ r < 0]) is
    outside what [queryRange] and [zeroRange] can handle: no node covers
    it, so the descent goes on below the leaves, through nodes that were
    never built, and no depth of recursion is enough for the call to
    return. *)
Theorem ranges_outside_never_return fuel0 mCols t l r fuel :
  1 ≤ mCols → mCols + 10 ≤ kMaxN → treeState fuel0 mCols t →
  l ≤ r → mCols < l ∨ r < 0 →
  queryRange fuel 1 l r t = None ∧ zeroRange fuel 1 l r t = None.
Proof.
  intros Hm1 Hm2 Hst Hlr Hout.
  pose proof (treeState_rangesIn fuel0 mCols t Hm1 Hm2 Hst) as Ht.
  unfold kMaxN in Hm2.
  split; [apply (queryRange_outside mCols)|apply (zeroRange_outside mCols)];
    auto; lia.
Qed.

Lemma ranges_outside_never_return_witness :
  queryRange 1000 1 5 6
    (default ∅ (t ← buildTree 21 1 1 4 ∅;
                snd <$> runOps 21 [PointSet 4 5] t)) = None ∧
  zeroRange 1000 1 5 6
    (default ∅ (t ← buildTree 21 1 1 4 ∅;
                snd <$> runOps 21 [PointSet 4 5] t)) = None.
Proof.
  apply (ranges_outside_never_return 21 4); try lia.
  - unfold kMaxN. lia.
  - exists [PointSet 4 5], []. split; [concrete_input|by vm_compute].
Defined.

Lemma buildTree_reversed fuel : ∀ x l r t,
  r < l → - 2 ^ 30 ≤ r → l ≤ 2 ^ 30 → buildTree fuel x l r t = None.
Proof.
  induction fuel as [|fuel IH]; intros x l r t Hrl Hr Hl; [done|].
  simpl. destruct (Z.eqb_spec l r); [lia|].
  rewrite (iadd_small l r), shiftr_1 by lia.
  assert (r ≤ (l + r) `div` 2 < l) as Hmid.
  { split; [apply Z.div_le_lower_bound|apply Z.div_lt_upper_bound]; lia. }
  by rewrite IH by lia.
Qed.

(** X22 (lines 30-36, 92).  With no column ([mCols ≤ 0]) the program
    does not get past [buildTree(1,1,mCols)]: the range is empty, no
    node is a leaf, and the recursion goes on without end. *)
Theorem main_without_columns fuel nRows mCols rects :
  - 2 ^ 30 ≤ mCols → mCols ≤ 0 → main fuel nRows mCols rects = None.
Proof.
  intros Hm1 Hm2. unfold main. rewrite mainWith_unfold, sweepWith_unfold.
  unfold initState. by rewrite buildTree_reversed by lia.
Qed.

Lemma main_without_columns_witness : main 1000 3 0 [] = None.
Proof. apply main_without_columns; lia. Defined.
